(** * libprotoserial: the fragmentation handler

    A shallow embedding of [sp::fragmentation_handler]
    (libprotoserial/fragmentation/fragmentation.hpp) and the properties of
    its receive path, transmit path and periodic pass.

    Conventions of the embedding
    - unsigned integers are [N]; the 32-bit counter [retransmitions] and the
      product it is compared with wrap modulo [2^32], header fields wrap to
      their wire widths when a header is constructed; the index, id and size
      types of transfer.hpp and container.hpp are [N] without a bound;
    - time points and durations are [Z]; the handler reads [clock::now()]
      wherever it compares or sets a timestamp, and the embedding takes the
      clock to stand still during a call: [now], an argument of the entry
      point, is what every reading within the call returns;
    - [std::list<transfer_progress>] is [list transfer_progress], the owning
      pointer [std::unique_ptr<transfer_wrapper>] is an [option];
    - the three [subject<>] members are a log of [event]s in emission order;
    - a C++ exception, [std::terminate] and the dereference of an empty
      [unique_ptr] are the constructors of [outcome];
    - [_fragments_count()] divides by [max_fragment_size()]: the theorems on
      the entry points are about handlers in which it is not zero. *)

From Stdlib Require Import String.
From Stdlib Require Import List NArith ZArith Lia Bool.
From Stdlib Require Strings.Byte.
Import ListNotations.

Local Open Scope N_scope.

(** ** Bytes and fragments (container.hpp, interface.hpp) *)

Definition byte := Byte.byte.
Definition bytes := list byte.

(** [(byte)n] for an unsigned [n]: the low eight bits. *)
Definition u8 (n : N) : byte :=
  match Byte.of_N (n mod 256) with
  | Some b => b
  | None => Byte.x00
  end.

Definition address_type := N.
Definition interface_identifier := N.

(** Modelled from the spec: interface.hpp is not among the sources.  A
    fragment carries the address of its peer in each direction and its
    payload bytes. *)
Record fragment : Type := mk_fragment {
  f_source : address_type;
  f_destination : address_type;
  f_data : bytes
}.

(** The two-argument constructor [fragment(addr, data)] the handler uses for
    what it sends: [addr] is where the fragment goes. *)
Definition fragment_to (dst : address_type) (d : bytes) : fragment :=
  mk_fragment 0 dst d.

(** [interface::status]; the handler reads one field of it. *)
Record status : Type := mk_status {
  available_transmit_slots : N
}.

(** ** Clock (clock.hpp) *)

Definition time_point := Z.
Definition duration := Z.

(** Modelled from the spec: clock.hpp is not among the sources.
    [older_than(ts, d)] holds when more than [d] has passed since [ts]
    (the spec's [now - ts > d]). *)
Definition older_than (now : time_point) (point : time_point) (d : duration) : bool :=
  (point + d <? now)%Z.

(** ** Header codec (fragmentation/headers.hpp) *)

Module headers.

(** Modelled from the spec: headers.hpp is not among the sources.  The
    [fragment_8b16b] header has the fields
    [{type:u8, fragment:u8, fragments_total:u8, id:u16, prev_id:u16}]. *)
Record fragment_8b16b : Type := mk_header {
  type : N;
  fragment : N;
  fragments_total : N;
  get_id : N;
  get_prev_id : N
}.

(** [message_types] *)
Definition FRAGMENT : N := 1.
Definition FRAGMENT_ACK : N := 2.
Definition FRAGMENT_REQ : N := 3.

(** The constructor narrows each argument to the width of its field. *)
Definition construct (ty fragment_pos total id prev_id : N) : fragment_8b16b :=
  mk_header (ty mod 256) (fragment_pos mod 256) (total mod 256)
            (id mod 65536) (prev_id mod 65536).

(** [sizeof(Header)]: the packed wire size. *)
Definition sizeof : nat := 7.

(** [is_valid()]: a known type, [fragments_total >= 1] and
    [1 <= fragment <= fragments_total]. *)
Definition is_valid (h : fragment_8b16b) : bool :=
  ((type h =? FRAGMENT) || (type h =? FRAGMENT_ACK) || (type h =? FRAGMENT_REQ))
  && (1 <=? fragment h) && (fragment h <=? fragments_total h)
  && (1 <=? fragments_total h).

(** [to_bytes(h)]: the fields in declaration order, the 16-bit ones low
    byte first. *)
Definition to_bytes (h : fragment_8b16b) : bytes :=
  [ u8 (type h); u8 (fragment h); u8 (fragments_total h);
    u8 (get_id h); u8 (get_id h / 256);
    u8 (get_prev_id h); u8 (get_prev_id h / 256) ].

(** [parsers::byte_copy<Header>(it)]: the inverse of [to_bytes] on the
    first [sizeof] bytes (a missing byte reads as zero; the caller checks
    the size first). *)
Definition byte_copy (b : bytes) : fragment_8b16b :=
  let at_ (i : nat) := Byte.to_N (nth i b Byte.x00) in
  mk_header (at_ 0%nat) (at_ 1%nat) (at_ 2%nat)
            (at_ 3%nat + 256 * at_ 4%nat)
            (at_ 5%nat + 256 * at_ 6%nat).

End headers.

Definition Header : Type := headers.fragment_8b16b.

(** ** Transfers (fragmentation/transfer.hpp) *)

(** Modelled from the spec: transfer.hpp is not among the sources.  A
    transfer is an ordered sequence of fragment slots with an id, the id of
    the previous transfer, the two addresses and its timestamps.  A slot is
    empty when it holds no bytes. *)
Record transfer : Type := mk_transfer {
  _data : list bytes;
  _interface_id : interface_identifier;
  _timestamp_creation : time_point;
  _timestamp_modified : time_point;
  _id : N;
  _prev_id : N;
  _source : address_type;
  _destination : address_type
}.

(** What [get_metadata()] returns: the transfer without its data. *)
Record transfer_metadata : Type := mk_metadata {
  m_interface_id : interface_identifier;
  m_timestamp_creation : time_point;
  m_id : N;
  m_prev_id : N;
  m_source : address_type;
  m_destination : address_type
}.

Definition get_metadata (t : transfer) : transfer_metadata :=
  mk_metadata (_interface_id t) (_timestamp_creation t) (_id t) (_prev_id t)
              (_source t) (_destination t).

Definition is_empty (b : bytes) : bool :=
  match b with [] => true | _ => false end.

(** [data_size()]: the bytes of all slots together. *)
Definition data_size (t : transfer) : N :=
  N.of_nat (length (concat (_data t))).

(** [data_begin() .. data_end()]: the bytes of the slots in order. *)
Definition data_bytes (t : transfer) : bytes := concat (_data t).

(** Modelled from the spec: [new_reassembly]: a transfer of
    [fragments_total] empty slots, its ids taken from the header.  The call
    in the handler is [transfer(_interface_identifier, h)]. *)
Definition transfer_new (now : time_point) (iid : interface_identifier) (h : Header) : transfer :=
  mk_transfer (repeat [] (N.to_nat (headers.fragments_total h))) iid now now
              (headers.get_id h) (headers.get_prev_id h) 0 0.

(** [l[i] = x] when [i] is a slot of [l]. *)
Fixpoint set_slot (i : nat) (x : bytes) (l : list bytes) {struct l} : list bytes :=
  match l, i with
  | [], _ => []
  | _ :: l', O => x :: l'
  | y :: l', S i' => y :: set_slot i' x l'
  end.

(** Modelled from the spec: [assign(index, fragment)] places the fragment's
    bytes at the 1-based slot [index] and, if the slot was empty, updates
    [timestamp_modified].  The transfer learns its peer from the fragment.
    The spec does not say what an index that names no slot does; here it
    leaves the slots alone. *)
Definition _assign (now : time_point) (fragment_pos : N) (p : fragment) (t : transfer) : transfer :=
  let i := N.to_nat (fragment_pos - 1) in
  let in_range := (1 <=? fragment_pos) && (fragment_pos <=? N.of_nat (length (_data t))) in
  let was_empty := is_empty (nth i (_data t) []) in
  mk_transfer
    (if in_range then set_slot i (f_data p) (_data t) else _data t)
    (_interface_id t)
    (_timestamp_creation t)
    (if in_range && was_empty then now else _timestamp_modified t)
    (_id t) (_prev_id t)
    (f_source p) (f_destination p).

(** Modelled from the spec: [match(fragment)]: the fragment travels in the
    direction of the transfer. *)
Definition transfer_match (t : transfer) (p : fragment) : bool :=
  (f_source p =? _source t) && (f_destination p =? _destination t).

(** Modelled from the spec: [match_as_response(fragment)]: the fragment
    travels in the opposite direction. *)
Definition match_as_response (t : transfer) (p : fragment) : bool :=
  (f_source p =? _destination t) && (f_destination p =? _source t).

(** ** [transfer_wrapper]

    The wrapper adds to a transfer a pointer to its handler, read only for
    [max_fragment_size()]; here that value is the first argument. *)

(** mode 1) only *)
Definition _is_complete (t : transfer) : bool :=
  forallb (fun b => negb (is_empty b)) (_data t).

(** The number of fragments needed to transmit the transfer.  The division
    is by [max_fragment_size()], which the statements below take nonzero. *)
Definition _fragments_count (max_fragment_size : N) (t : transfer) : N :=
  if _is_complete t then
    (* mode 2 *)
    data_size t / max_fragment_size
    + (if data_size t mod max_fragment_size =? 0 then 0 else 1)
  else
    (* mode 1 *)
    N.of_nat (length (_data t)).

Fixpoint first_empty (i : N) (l : list bytes) : N :=
  match l with
  | [] => 0
  | b :: l' => if is_empty b then i + 1 else first_empty (i + 1) l'
  end.

(** mode 1) only *)
Definition _missing_fragment (t : transfer) : N := first_empty 0 (_data t).

(** What a function that may throw [std::invalid_argument] yields. *)
Inductive exn (A : Type) : Type :=
| Value (a : A)
| Raise (what : String.string).
Arguments Value {A} a.
Arguments Raise {A} what.

(** mode 2) only, preferably *)
Definition _get_fragment (max_fragment_size : N) (t : transfer) (fragment_pos : N) : exn fragment :=
  if fragment_pos =? 0 then Raise "fragment_pos == 0"%string
  else
    let fragment_pos := fragment_pos - 1 in
    let p_size := max_fragment_size in
    if data_size t <? fragment_pos * p_size
    then Raise "fragment_pos * p_size > data_size()"%string
    else
      Value (fragment_to (_destination t)
               (firstn (N.to_nat p_size)
                  (skipn (N.to_nat (fragment_pos * p_size)) (data_bytes t)))).

(** ** [transfer_progress] *)

Record transfer_progress : Type := mk_progress {
  tr : option transfer;
  timestamp_accessed : time_point;
  retransmitions : N;
  id : N
}.

(** [uint] arithmetic *)
Definition uint (n : N) : N := n mod 2 ^ 32.

Definition new_progress (now : time_point) (t : transfer) : transfer_progress :=
  mk_progress (Some t) now 0 (_id t).

Definition transmit_done (now : time_point) (r : transfer_progress) : transfer_progress :=
  mk_progress (tr r) now (retransmitions r) (id r).

Definition retransmit_done (now : time_point) (r : transfer_progress) : transfer_progress :=
  mk_progress (tr r) now (uint (retransmitions r + 1)) (id r).

(** [it->tr.reset()] *)
Definition reset (r : transfer_progress) : transfer_progress :=
  mk_progress None (timestamp_accessed r) (retransmitions r) (id r).

(** ** The handler's state, events and outcomes *)

Record fragmentation_handler : Type := mk_handler {
  _incoming_transfers : list transfer_progress;
  _outgoing_transfers : list transfer_progress;
  _retransmit_time : duration;
  _drop_time : duration;
  _interface_identifier : interface_identifier;
  _interface_status : status;
  _max_fragment_size : N;
  _retransmit_multiplier : N
}.

Inductive event : Type :=
| transmit_event (f : fragment)
| transfer_receive_event (t : transfer)
| transfer_ack_event (m : transfer_metadata).

(** How a call ends.  [Throws] carries the state the exception leaves
    behind; [Terminates] is an exception that reaches a [noexcept]
    boundary; [NullDereference] is [->] on a [unique_ptr] that owns
    nothing; [FuelExhausted] is the iteration bound of a loop of the
    embedding running out. *)
Inductive outcome (A : Type) : Type :=
| Returns (a : A)
| Throws (what : String.string) (a : A)
| Terminates
| NullDereference
| FuelExhausted.
Arguments Returns {A} a.
Arguments Throws {A} what a.
Arguments Terminates {A}.
Arguments NullDereference {A}.
Arguments FuelExhausted {A}.

Definition outcome_map {A B : Type} (f : A -> B) (o : outcome A) : outcome B :=
  match o with
  | Returns a => Returns (f a)
  | Throws w a => Throws w (f a)
  | Terminates => Terminates
  | NullDereference => NullDereference
  | FuelExhausted => FuelExhausted
  end.

Definition set_incoming (l : list transfer_progress) (h : fragmentation_handler) :=
  mk_handler l (_outgoing_transfers h) (_retransmit_time h) (_drop_time h)
    (_interface_identifier h) (_interface_status h) (_max_fragment_size h)
    (_retransmit_multiplier h).

Definition set_outgoing (l : list transfer_progress) (h : fragmentation_handler) :=
  mk_handler (_incoming_transfers h) l (_retransmit_time h) (_drop_time h)
    (_interface_identifier h) (_interface_status h) (_max_fragment_size h)
    (_retransmit_multiplier h).

Definition set_status (st : status) (h : fragmentation_handler) :=
  mk_handler (_incoming_transfers h) (_outgoing_transfers h) (_retransmit_time h)
    (_drop_time h) (_interface_identifier h) st (_max_fragment_size h)
    (_retransmit_multiplier h).

Definition can_transmit_status (st : status) : bool :=
  negb (available_transmit_slots st =? 0).

Definition can_transmit (h : fragmentation_handler) : bool :=
  can_transmit_status (_interface_status h).

Definition max_fragment_size (h : fragmentation_handler) : N := _max_fragment_size h.

Definition interface_status_callback (st : status) (h : fragmentation_handler) :=
  set_status st h.

(** [make_header(type, fragment_pos, tp)], on the transfer [tp.tr] owns. *)
Definition make_header (h : fragmentation_handler) (ty fragment_pos : N) (w : transfer) : Header :=
  headers.construct ty fragment_pos (_fragments_count (max_fragment_size h) w)
    (_id w) (_prev_id w).

(** [p.data().push_front(h)] *)
Definition push_front (hd : bytes) (p : fragment) : fragment :=
  mk_fragment (f_source p) (f_destination p) (hd ++ f_data p).

(** [serialize_fragment(type, fragment_pos, tp)], on the transfer [tp.tr]
    owns. *)
Definition serialize_fragment (h : fragmentation_handler) (ty fragment_pos : N) (w : transfer)
  : exn fragment :=
  match _get_fragment (max_fragment_size h) w fragment_pos with
  | Raise what => Raise what
  | Value p => Value (push_front (headers.to_bytes (make_header h ty fragment_pos w)) p)
  end.

(** [std::find_if]: the list split at the first element that satisfies the
    predicate, or [None] for [end()]. *)
Fixpoint find_if {A : Type} (pred : A -> bool) (l : list A) : option (list A * A * list A) :=
  match l with
  | [] => None
  | x :: l' =>
      if pred x then Some ([], x, l')
      else match find_if pred l' with
           | Some (before, y, after) => Some (x :: before, y, after)
           | None => None
           end
  end.

(** [std::find_if] with the predicate of the outgoing branch, which
    dereferences [t.tr] of every element it looks at. *)
Fixpoint find_if_tr (pred : transfer -> bool) (l : list transfer_progress)
  : outcome (option (list transfer_progress * (transfer_progress * transfer) * list transfer_progress)) :=
  match l with
  | [] => Returns None
  | x :: l' =>
      match tr x with
      | None => NullDereference
      | Some w =>
          if pred w then Returns (Some ([], (x, w), l'))
          else outcome_map
                 (fun r => match r with
                           | Some (before, y, after) => Some (x :: before, y, after)
                           | None => None
                           end)
                 (find_if_tr pred l')
      end
  end.

(** What one iteration of the first loop of [main_task] does with the
    element the iterator is at. *)
Inductive visit : Type :=
| Erased
| Kept (r : transfer_progress).

(** Where one iteration of the second loop of [main_task] leaves the
    iterator: at the successor of the element it erased, at the element it
    was at, which it may have updated, or one element further. *)
Inductive step : Type :=
| Erase
| Stay (r : transfer_progress)
| Advance.

(** The loops return the list they leave, what they emitted and the
    interface status. *)
Definition pass (E : Type) : Type := (list transfer_progress * list E * status)%type.

Definition keep {E : Type} (r : transfer_progress) (x : pass E) : pass E :=
  let '(l, ev, st) := x in (r :: l, ev, st).

Definition after_events {E : Type} (ev0 : list E) (x : pass E) : pass E :=
  let '(l, ev, st) := x in (l, ev0 ++ ev, st).

(** The first loop of [main_task] around its body, from the iterator [it] at
    the head of [l].  After an erase [it] is at the successor of the erased
    element, and the closing [if (it != end) ++it] steps over that
    successor. *)
Fixpoint incoming_walk {E : Type}
    (body : status -> transfer_progress -> visit * list E * status)
    (st : status) (l : list transfer_progress) : pass E :=
  match l with
  | [] => ([], [], st)
  | r :: rest =>
      match body st r with
      | (Kept r', ev, st') => keep r' (after_events ev (incoming_walk body st' rest))
      | (Erased, ev, st') =>
          match rest with
          | [] => ([], ev, st')
          | r2 :: rest' => keep r2 (after_events ev (incoming_walk body st' rest'))
          end
      end
  end.

(** The second loop of [main_task] around its body, from the iterator [it]
    at the head of [l]; [fuel] bounds the number of iterations.  An
    exception leaves the list as it is at that moment. *)
Fixpoint outgoing_walk {E : Type}
    (body : status -> transfer_progress -> outcome (step * list E * status))
    (fuel : nat) (st : status) (l : list transfer_progress) : outcome (pass E) :=
  match fuel with
  | O => FuelExhausted
  | S fuel' =>
      match l with
      | [] => Returns ([], [], st)
      | r :: rest =>
          match body st r with
          | Returns (Erase, ev, st') =>
              outcome_map (after_events ev) (outgoing_walk body fuel' st' rest)
          | Returns (Stay r', ev, st') =>
              outcome_map (after_events ev) (outgoing_walk body fuel' st' (r' :: rest))
          | Returns (Advance, ev, st') =>
              outcome_map (fun x => keep r (after_events ev x))
                (outgoing_walk body fuel' st' rest)
          | Throws what (_, ev, st') => Throws what (r :: rest, ev, st')
          | Terminates => Terminates
          | NullDereference => NullDereference
          | FuelExhausted => FuelExhausted
          end
      end
  end.

(** The fragment positions [1 .. n] the loop of [transmit] runs through. *)
Definition positions (n : N) : list N := map N.of_nat (seq 1 (N.to_nat n)).

Section entry_points.

(** [explicit operator bool] of a fragment (interface.hpp, not among the
    sources). *)
Variable fragment_ok : fragment -> bool.

(** The interface status once a subscriber of [transmit_event] (the
    interface's [write_noexcept], see [bind_to]) has taken a fragment: the
    interface may report its new status before [emit] returns. *)
Variable link_write : status -> fragment -> status.

(** *** [main_task] *)

(** The body of the first loop, up to the closing [if (it != end) ++it]. *)
Definition incoming_body (now : time_point) (h : fragmentation_handler)
    (st : status) (r : transfer_progress) : visit * list event * status :=
  match tr r with
  | None =>
      if older_than now (timestamp_accessed r) (_drop_time h * 5)%Z
      then (Erased, [], st)
      else (Kept r, [], st)
  | Some w =>
      if _is_complete w && can_transmit_status st then
        let f := fragment_to (_source w)
                   (headers.to_bytes
                      (make_header h headers.FRAGMENT_ACK
                         (_fragments_count (max_fragment_size h) w) w)) in
        (Kept (reset r), [transmit_event f; transfer_receive_event w], link_write st f)
      else if older_than now (_timestamp_modified w) (_drop_time h) then
        (Erased, [], st)
      else if can_transmit_status st
              && older_than now (_timestamp_modified w) (_retransmit_time h)
              && older_than now (timestamp_accessed r) (_retransmit_time h) then
        let index := _missing_fragment w in
        let f := fragment_to (_source w)
                   (headers.to_bytes (make_header h headers.FRAGMENT_REQ index w)) in
        (Kept (retransmit_done now r), [transmit_event f], link_write st f)
      else (Kept r, [], st)
  end.

Definition incoming_loop (now : time_point) (h : fragmentation_handler)
    (st : status) (l : list transfer_progress) : pass event :=
  incoming_walk (incoming_body now h) st l.

(** The cap [main_task] compares [retransmitions] with: the product is
    taken in [uint]. *)
Definition cap (h : fragmentation_handler) (w : transfer) : N :=
  uint (_fragments_count (max_fragment_size h) w * _retransmit_multiplier h).

(** The body of the second loop. *)
Definition outgoing_body (now : time_point) (h : fragmentation_handler)
    (st : status) (r : transfer_progress) : outcome (step * list event * status) :=
  if older_than now (timestamp_accessed r) (_drop_time h) then
    Returns (Erase, [], st)
  else if can_transmit_status st then
    match tr r with
    | None => NullDereference
    | Some w =>
        if (retransmitions r <? cap h w)
           && older_than now (timestamp_accessed r) (_retransmit_time h)
        then
          match serialize_fragment h headers.FRAGMENT 1 w with
          | Raise what => Throws what (Stay r, [], st)
          | Value f =>
              Returns (Stay (retransmit_done now r), [transmit_event f],
                       link_write st f)
          end
        else Returns (Advance, [], st)
    end
  else Returns (Advance, [], st).

Definition outgoing_loop (fuel : nat) (now : time_point) (h : fragmentation_handler)
    (st : status) (l : list transfer_progress) : outcome (pass event) :=
  outgoing_walk (outgoing_body now h) fuel st l.

(** The retransmissions the cap leaves to a record. *)
Definition budget (h : fragmentation_handler) (r : transfer_progress) : N :=
  match tr r with
  | None => 0
  | Some w => cap h w - retransmitions r
  end.

Definition budgets (h : fragmentation_handler) (l : list transfer_progress) : N :=
  fold_right (fun r n => budget h r + n) 0 l.

(** Enough iterations for the second loop: one per element, one per
    retransmission the caps leave, and the last test of the condition. *)
Definition outgoing_fuel (h : fragmentation_handler) (l : list transfer_progress) : nat :=
  S (length l + N.to_nat (budgets h l)).

Definition main_task (now : time_point) (h : fragmentation_handler)
  : outcome (fragmentation_handler * list event) :=
  let '(inc, ev1, st1) :=
    incoming_loop now h (_interface_status h) (_incoming_transfers h) in
  let h1 := set_status st1 (set_incoming inc h) in
  match outgoing_loop (outgoing_fuel h (_outgoing_transfers h)) now h st1
          (_outgoing_transfers h) with
  | Returns (out, ev2, st2) =>
      Returns (set_status st2 (set_outgoing out h1), ev1 ++ ev2)
  | Throws what (out, ev2, st2) =>
      Throws what (set_status st2 (set_outgoing out h1), ev1 ++ ev2)
  | Terminates => Terminates
  | NullDereference => NullDereference
  | FuelExhausted => FuelExhausted
  end.

(** *** [handle_fragment] *)

(** The predicate of the lookup in [_incoming_transfers]. *)
Definition incoming_match (hd : Header) (p : fragment) (t : transfer_progress) : bool :=
  match tr t with
  | Some w => (_id w =? headers.get_id hd) && transfer_match w p
  | None => id t =? headers.get_id hd
  end.

(** The predicate of the lookup in [_outgoing_transfers], on [*t.tr]. *)
Definition outgoing_match (hd : Header) (p : fragment) (w : transfer) : bool :=
  (_id w =? headers.get_id hd) && match_as_response w p.

Definition with_tr (w : transfer) (r : transfer_progress) : transfer_progress :=
  mk_progress (Some w) (timestamp_accessed r) (retransmitions r) (id r).

Definition handle_fragment (now : time_point) (hd : Header) (p : fragment)
    (h : fragmentation_handler) : outcome (fragmentation_handler * list event) :=
  if headers.type hd =? headers.FRAGMENT then
    match find_if (incoming_match hd p) (_incoming_transfers h) with
    | None =>
        let t := new_progress now (transfer_new now (_interface_identifier h) hd) in
        let t := match tr t with
                 | Some w => with_tr (_assign now (headers.fragment hd) p w) t
                 | None => t
                 end in
        Returns (set_incoming (_incoming_transfers h ++ [t]) h, [])
    | Some (before, it, after) =>
        match tr it with
        | Some w =>
            let it' := with_tr (_assign now (headers.fragment hd) p w) it in
            Returns (set_incoming (before ++ it' :: after) h, [])
        | None =>
            if can_transmit h then
              let f := fragment_to (f_source p)
                         (headers.to_bytes
                            (headers.construct headers.FRAGMENT_ACK
                               (headers.fragment hd) (headers.fragments_total hd)
                               (headers.get_id hd) (headers.get_prev_id hd))) in
              Returns (set_status (link_write (_interface_status h) f) h,
                       [transmit_event f])
            else Returns (h, [])
        end
    end
  else
    match find_if_tr (outgoing_match hd p) (_outgoing_transfers h) with
    | Returns None => Returns (h, [])
    | Returns (Some (before, (it, w), after)) =>
        if (headers.type hd =? headers.FRAGMENT_REQ) && can_transmit h then
          match serialize_fragment h headers.FRAGMENT (headers.fragment hd) w with
          | Raise what => Throws what (h, [])
          | Value f =>
              Returns (set_status (link_write (_interface_status h) f)
                         (set_outgoing (before ++ retransmit_done now it :: after) h),
                       [transmit_event f])
          end
        else if headers.type hd =? headers.FRAGMENT_ACK then
          Returns (set_outgoing (before ++ after) h,
                   [transfer_ack_event (get_metadata w)])
        else Returns (h, [])
    | Throws what _ => Throws what (h, [])
    | Terminates => Terminates
    | NullDereference => NullDereference
    | FuelExhausted => FuelExhausted
    end.

(** *** [receive_callback]

    The function is [noexcept]: an exception that leaves
    [handle_fragment] ends the program. *)

(** [p.data().shrink(sizeof(Header), 0)] *)
Definition shrink_header (p : fragment) : fragment :=
  mk_fragment (f_source p) (f_destination p) (skipn headers.sizeof (f_data p)).

Definition receive_callback (now : time_point) (p : fragment)
    (h : fragmentation_handler) : outcome (fragmentation_handler * list event) :=
  if fragment_ok p && (headers.sizeof <=? length (f_data p))%nat then
    let hd := headers.byte_copy (f_data p) in
    if headers.is_valid hd then
      match handle_fragment now hd (shrink_header p) h with
      | Throws _ _ => Terminates
      | o => o
      end
    else Returns (h, [])
  else Returns (h, []).

(** *** [transmit] *)

(** The loop over [fragment_pos], for the positions still to go. *)
Fixpoint transmit_loop (h : fragmentation_handler) (w : transfer) (ps : list N)
    (st : status) : outcome (list event * status) :=
  match ps with
  | [] => Returns ([], st)
  | fragment_pos :: ps' =>
      if can_transmit_status st then
        match serialize_fragment h headers.FRAGMENT fragment_pos w with
        | Raise what => Throws what ([], st)
        | Value f =>
            outcome_map (fun x => (transmit_event f :: fst x, snd x))
              (transmit_loop h w ps' (link_write st f))
        end
      else Returns ([], st)
  end.

Definition transmit (now : time_point) (t : transfer) (h : fragmentation_handler)
  : outcome (fragmentation_handler * list event) :=
  let tp := new_progress now t in
  let emplaced (tp : transfer_progress) (st : status) :=
    set_status st (set_outgoing (_outgoing_transfers h ++ [tp]) h) in
  match transmit_loop h t (positions (_fragments_count (max_fragment_size h) t))
          (_interface_status h) with
  | Returns (ev, st) => Returns (emplaced (transmit_done now tp) st, ev)
  | Throws what (ev, st) => Throws what (emplaced tp st, ev)
  | Terminates => Terminates
  | NullDereference => NullDereference
  | FuelExhausted => FuelExhausted
  end.

End entry_points.

(** ** Runs of the handler

    The host serialises its calls of the three entry points and of the
    status callback. *)

Inductive call : Type :=
| call_receive (now : time_point) (p : fragment)
| call_transmit (now : time_point) (t : transfer)
| call_main_task (now : time_point)
| call_status (st : status).

Section runs.

Variable fragment_ok : fragment -> bool.
Variable link_write : status -> fragment -> status.

Definition exec (c : call) (h : fragmentation_handler)
  : outcome (fragmentation_handler * list event) :=
  match c with
  | call_receive now p => receive_callback fragment_ok link_write now p h
  | call_transmit now t => transmit link_write now t h
  | call_main_task now => main_task link_write now h
  | call_status st => Returns (interface_status_callback st h, [])
  end.

(** The calls made one after the other, each with the events it emitted,
    for as long as the program lives.  A caller that catches what
    [transmit] throws goes on with the state the exception left. *)
Fixpoint run (cs : list call) (h : fragmentation_handler)
  : fragmentation_handler * list (call * list event) :=
  match cs with
  | [] => (h, [])
  | c :: cs' =>
      match exec c h with
      | Returns (h', ev) | Throws _ (h', ev) =>
          let '(h'', log) := run cs' h' in (h'', (c, ev) :: log)
      | _ => (h, [])
      end
  end.

End runs.

(** ** What is counted in the events *)


(** The events that are a fragment of the given header type on its way to
    the link. *)
Definition is_emission (ty : N) (e : event) : bool :=
  match e with
  | transmit_event f => headers.type (headers.byte_copy (f_data f)) =? ty
  | _ => false
  end.

(** On the link a transfer is known by the id in the headers of its
    fragments and by the address they go to. *)
Definition key : Type := (N * address_type)%type.

Definition transfer_key (w : transfer) : key := (_id w mod 65536, _destination w).

Definition fragment_key (f : fragment) : key :=
  (headers.get_id (headers.byte_copy (f_data f)), f_destination f).

Definition same_key (k k' : key) : bool :=
  (fst k =? fst k') && (snd k =? snd k').

(** The events that are a [FRAGMENT] of a selected transfer on its way to
    the link. *)
Definition is_fragment_of (sel : key -> bool) (e : event) : bool :=
  match e with
  | transmit_event f => is_emission headers.FRAGMENT e && sel (fragment_key f)
  | _ => false
  end.

Definition fragments_of (sel : key -> bool) (ev : list event) : N :=
  N.of_nat (length (filter (is_fragment_of sel) ev)).

(** What a call left in the log of events when it came back to its caller,
    by return or by exception. *)
Definition events_of (o : outcome (fragmentation_handler * list event)) : list event :=
  match o with
  | Returns (_, ev) | Throws _ (_, ev) => ev
  | _ => []
  end.

(** Collaborators for the concrete scenarios: every fragment is usable and
    writing to the link leaves the status as it is. *)
Definition any_fragment (p : fragment) : bool := true.
Definition write_keeps_status (st : status) (f : fragment) : status := st.

(** ** Predicates of the statements *)

(** A property of what a call leaves when it comes back to its caller, by
    return or by exception. *)
Definition when_back {A : Type} (P : A -> Prop) (o : outcome A) : Prop :=
  match o with
  | Returns a | Throws _ a => P a
  | _ => True
  end.


(** [thinned R l l']: [l'] is [l] with some records erased and every other
    one replaced by a record it is in relation [R] with. *)
Inductive thinned (R : transfer_progress -> transfer_progress -> Prop)
  : list transfer_progress -> list transfer_progress -> Prop :=
| thinned_nil : thinned R [] []
| thinned_erase r l l' : thinned R l l' -> thinned R (r :: l) l'
| thinned_keep r r' l l' : R r r' -> thinned R l l' -> thinned R (r :: l) (r' :: l').

(** The record still owns the transfer it owned. *)
Definition same_tr (r r' : transfer_progress) : Prop := tr r' = tr r.

(** The record owns the transfer it owned or has released it. *)
Definition same_or_released (r r' : transfer_progress) : Prop :=
  tr r' = tr r \/ tr r' = None.

(** The record owns the transfer it owned, and its counter is where it was
    or has moved up without passing the cap. *)
Definition probed (h : fragmentation_handler) (r r' : transfer_progress) : Prop :=
  tr r' = tr r
  /\ (retransmitions r' = retransmitions r
      \/ exists w, tr r = Some w
                   /\ retransmitions r < retransmitions r' <= cap h w).

(** The handlers differ in their tables and interface status at most. *)
Definition same_config (h h' : fragmentation_handler) : Prop :=
  _retransmit_time h' = _retransmit_time h
  /\ _drop_time h' = _drop_time h
  /\ _interface_identifier h' = _interface_identifier h
  /\ _max_fragment_size h' = _max_fragment_size h
  /\ _retransmit_multiplier h' = _retransmit_multiplier h.

Definition owns (r : transfer_progress) : Prop := tr r <> None.

(** The metadata the [transfer_ack_event]s of a list of events carry. *)
Definition acks_of (ev : list event) : list transfer_metadata :=
  flat_map (fun e => match e with transfer_ack_event m => [m] | _ => [] end) ev.

(** The metadata of the transfers the records of a table own. *)
Definition metadata_of (l : list transfer_progress) : list transfer_metadata :=
  flat_map (fun r => match tr r with Some w => [get_metadata w] | None => [] end) l.

(** The transfers the records of a table own. *)
Definition transfers_of (l : list transfer_progress) : list transfer :=
  flat_map (fun r => match tr r with Some w => [w] | None => [] end) l.

(** Every transfer stored in the handler. *)
Definition stored (h : fragmentation_handler) : list transfer :=
  transfers_of (_incoming_transfers h) ++ transfers_of (_outgoing_transfers h).

(** What a call of [receive_callback] that returns has done, case by case:
    the handler it leaves and the events it emitted. *)
Inductive receive_effect (link_write : status -> fragment -> status)
    (now : time_point) (h : fragmentation_handler)
  : fragmentation_handler -> list event -> Prop :=
| received_nothing :
    receive_effect link_write now h h []
| received_first hd p :
    headers.is_valid hd = true ->
    receive_effect link_write now h
      (set_incoming
         (_incoming_transfers h
          ++ [mk_progress
                (Some (_assign now (headers.fragment hd) p
                         (transfer_new now (_interface_identifier h) hd)))
                now 0 (headers.get_id hd)]) h)
      []
| received_next hd p before it w after :
    _incoming_transfers h = before ++ it :: after ->
    tr it = Some w ->
    receive_effect link_write now h
      (set_incoming
         (before ++ with_tr (_assign now (headers.fragment hd) p w) it :: after) h)
      []
| received_duplicate f :
    is_emission headers.FRAGMENT_ACK (transmit_event f) = true ->
    receive_effect link_write now h
      (set_status (link_write (_interface_status h) f) h)
      [transmit_event f]
| received_request f before it w after :
    _outgoing_transfers h = before ++ it :: after ->
    tr it = Some w ->
    is_emission headers.FRAGMENT (transmit_event f) = true ->
    receive_effect link_write now h
      (set_status (link_write (_interface_status h) f)
         (set_outgoing (before ++ retransmit_done now it :: after) h))
      [transmit_event f]
| received_ack before it w after :
    _outgoing_transfers h = before ++ it :: after ->
    tr it = Some w ->
    receive_effect link_write now h
      (set_outgoing (before ++ after) h)
      [transfer_ack_event (get_metadata w)].

(** ** What is counted in a run *)

Definition metadata_eq_dec (x y : transfer_metadata) : {x = y} + {x <> y}.
Proof. decide equality; first [apply N.eq_dec | apply Z.eq_dec]. Defined.

(** How many of the metadata in [l] are [m]. *)
Definition count_metadata (m : transfer_metadata) (l : list transfer_metadata) : nat :=
  count_occ metadata_eq_dec l m.

(** The transfers handed to [transmit] in a run. *)
Definition transmitted (log : list (call * list event)) : list transfer :=
  flat_map (fun x => match fst x with call_transmit _ t => [t] | _ => [] end) log.

(** The metadata of all [transfer_ack_event]s of a run. *)
Definition acked (log : list (call * list event)) : list transfer_metadata :=
  flat_map (fun x => acks_of (snd x)) log.

(** The [FRAGMENT]s of the selected transfers that a run emitted of the
    handler's own accord: in the bursts of [transmit] and in the
    retransmissions of [main_task]. *)
Definition unasked_fragments (sel : key -> bool) (log : list (call * list event)) : N :=
  fold_right
    (fun x n => match fst x with
                | call_transmit _ _ | call_main_task _ => fragments_of sel (snd x) + n
                | _ => n
                end) 0 log.

(** All [FRAGMENT]s of the selected transfers that a run emitted. *)
Definition all_fragments (sel : key -> bool) (log : list (call * list event)) : N :=
  fold_right (fun x n => fragments_of sel (snd x) + n) 0 log.

(** [N + N * retransmit_multiplier], summed over the selected transfers of
    [ts]. *)
Definition allowance (h : fragmentation_handler) (sel : key -> bool) (ts : list transfer) : N :=
  fold_right
    (fun t n =>
       (if sel (transfer_key t)
        then _fragments_count (max_fragment_size h) t
             + _fragments_count (max_fragment_size h) t * _retransmit_multiplier h
        else 0) + n) 0 ts.

(** The retransmissions the caps leave to the selected transfers of a
    table. *)
Definition budgets_of (h : fragmentation_handler) (sel : key -> bool)
    (l : list transfer_progress) : N :=
  fold_right
    (fun r n =>
       match tr r with
       | Some w => if sel (transfer_key w) then budget h r + n else n
       | None => n
       end) 0 l.

(** [probes now h l l' ev]: the second loop of [main_task] may go from the
    table [l] to the table [l'] emitting [ev]: it erases a record, goes past
    it, or sends the first fragment of its transfer, the counter being below
    the cap, and looks at the record again. *)
Inductive probes (now : time_point) (h : fragmentation_handler)
  : list transfer_progress -> list transfer_progress -> list event -> Prop :=
| probes_nil : probes now h [] [] []
| probes_erase r l l' ev :
    probes now h l l' ev -> probes now h (r :: l) l' ev
| probes_advance r l l' ev :
    probes now h l l' ev -> probes now h (r :: l) (r :: l') ev
| probes_stay r w f l l' ev :
    tr r = Some w ->
    retransmitions r < cap h w ->
    serialize_fragment h headers.FRAGMENT 1 w = Value f ->
    probes now h (retransmit_done now r :: l) l' ev ->
    probes now h (r :: l) l' (transmit_event f :: ev).

(** The 32-bit counter has room for the caps of the transfers of [cs] and
    one more retransmission for each call of [cs]. *)
Definition counters_fit (h : fragmentation_handler) (cs : list call) : bool :=
  forallb
    (fun c => match c with
              | call_transmit _ t =>
                  _fragments_count (max_fragment_size h) t * _retransmit_multiplier h
                  + N.of_nat (length cs) <? 2 ^ 32
              | _ => true
              end) cs.

(** The record owns a transfer, its counter is at most [k] above its cap,
    and the cap leaves room for [total] more steps of the 32-bit counter. *)
Definition fits (h : fragmentation_handler) (total k : N) (r : transfer_progress) : Prop :=
  exists w,
    tr r = Some w
    /\ retransmitions r <= cap h w + k
    /\ _fragments_count (max_fragment_size h) w * _retransmit_multiplier h + total
       < 2 ^ 32.

Definition within (total : N) (h : fragmentation_handler) (k : N) : Prop :=
  Forall (fits h total k) (_outgoing_transfers h).

(** No event of the list is a [FRAGMENT] or a [transfer_ack_event]. *)
Definition incoming_events (ev : list event) : Prop :=
  filter (is_emission headers.FRAGMENT) ev = [] /\ acks_of ev = [].

(** No transfer handed to [transmit] in [cs] is without slots. *)
Definition transmits_have_slots (cs : list call) : bool :=
  forallb
    (fun c => match c with
              | call_transmit _ t => match _data t with [] => false | _ => true end
              | _ => true
              end) cs.

(** The ceiling of [a / b]. *)
Definition ceil_div (a b : N) : N := (a + b - 1) / b.

(** The transfer has at least one slot. *)
Definition has_slots (w : transfer) : Prop := _data w <> [].

(** The condition of [exec_has_slots] on a call. *)
Definition transmit_has_slots (c : call) : Prop :=
  match c with
  | call_transmit _ t => has_slots t
  | _ => True
  end.

(** ** What a pass of [main_task] examines

    The loops of [main_task] run around a body that yields, in place of the
    events, the record it was applied to: the records a loop examines, in
    the order in which it examines them. *)

Section examined.

Variable link_write : status -> fragment -> status.

Definition incoming_examined (now : time_point) (h : fragmentation_handler)
    (st : status) (l : list transfer_progress) : list transfer_progress :=
  snd (fst (incoming_walk
              (fun st r =>
                 let '(v, _, st') := incoming_body link_write now h st r in
                 (v, [r], st'))
              st l)).

Definition outgoing_examined (fuel : nat) (now : time_point)
    (h : fragmentation_handler) (st : status) (l : list transfer_progress)
  : outcome (list transfer_progress) :=
  outcome_map (fun x => snd (fst x))
    (outgoing_walk
       (fun st r =>
          outcome_map (fun x => (fst (fst x), [r], snd x))
            (outgoing_body link_write now h st r))
       fuel st l).

(** The records the first loop examines, in the order in which it
    examines them, each with what the loop does at it. *)
Definition incoming_trace (now : time_point) (h : fragmentation_handler)
    (st : status) (l : list transfer_progress) : list (transfer_progress * visit) :=
  snd (fst (incoming_walk
              (fun st r =>
                 let '(v, _, st') := incoming_body link_write now h st r in
                 (v, [(r, v)], st'))
              st l)).

End examined.

(** [passes_over l e l']: going through the table [l] the first loop
    examines the records of [e], doing at each what [e] says, and leaves
    the table [l'].  A record it keeps, as it is or updated, stays in the
    table; a record it erases is gone, and the record directly behind it
    is stepped over: it is not examined and stays in the table as it
    is. *)
Inductive passes_over
  : list transfer_progress -> list (transfer_progress * visit)
    -> list transfer_progress -> Prop :=
| passes_over_nil : passes_over [] [] []
| passes_over_kept r r' l e l' :
    passes_over l e l' ->
    passes_over (r :: l) ((r, Kept r') :: e) (r' :: l')
| passes_over_erased_last r :
    passes_over [r] [(r, Erased)] []
| passes_over_erased r r2 l e l' :
    passes_over l e l' ->
    passes_over (r :: r2 :: l) ((r, Erased) :: e) (r2 :: l').

(** The conditions under which the first loop erases a record, but for the
    interface status. *)
Definition due_for_erase (now : time_point) (h : fragmentation_handler)
    (r : transfer_progress) : bool :=
  match tr r with
  | None => older_than now (timestamp_accessed r) (_drop_time h * 5)%Z
  | Some w => older_than now (_timestamp_modified w) (_drop_time h)
  end.



(** [subsequence l e]: the elements of [l] are among those of [e], in the
    same order. *)
Inductive subsequence {A : Type} : list A -> list A -> Prop :=
| subsequence_nil e : subsequence [] e
| subsequence_skip x l e : subsequence l e -> subsequence l (x :: e)
| subsequence_take x l e : subsequence l e -> subsequence (x :: l) (x :: e).

(** ** Concrete handlers, fragments and transfers for the scenarios *)

Definition payload (l : list N) : bytes := map u8 l.

(** A fragment as it comes from the link: the header, then the payload. *)
Definition wire (src dst : address_type) (hd : Header) (pl : bytes) : fragment :=
  mk_fragment src dst (headers.to_bytes hd ++ pl).

(** A handler with empty tables, a retransmit time of 10 and a drop time
    of 100. *)
Definition idle_handler (slots max_size multiplier : N) : fragmentation_handler :=
  mk_handler [] [] 10%Z 100%Z 0 (mk_status slots) max_size multiplier.

(** A transfer of the local address 9 to the peer 1, with id 7. *)
Definition outbound (slots : list bytes) : transfer :=
  mk_transfer slots 0 0%Z 0%Z 7 6 9 1.

(** The fragments among the events as the peer receives them: the
    interface at [src] stamps what it sends with its own address. *)
Definition on_link (src : address_type) (ev : list event) : list fragment :=
  flat_map (fun e => match e with
                     | transmit_event f => [mk_fragment src (f_destination f) (f_data f)]
                     | _ => []
                     end) ev.

(** A handler receives the fragments [fs] one after the other. *)
Definition feed (now : time_point) (fs : list fragment) (h : fragmentation_handler)
  : fragmentation_handler * list (call * list event) :=
  run any_fragment write_keeps_status (map (call_receive now) fs) h.

(** ** The constructor of the handler *)

(** [size_type] is an unsigned type of container.hpp, which is not among
    the sources: its width in bits is the argument [size_bits]. *)
Definition size_type (size_bits : N) (z : Z) : N :=
  Z.to_N (z mod 2 ^ Z.of_N size_bits).

(** [fragmentation_handler(iid, max_fragment_size, retransmit_time,
    drop_time, retransmit_multiplier)]: the tables are empty and the room
    of the header is taken off the fragment size, in [size_type].  The
    member [_interface_status] is not in the initialiser list: [st] is the
    value its default constructor gives it. *)
Definition new_handler (size_bits : N) (st : status) (iid : interface_identifier)
    (max_fragment_size : N) (retransmit_time drop_time : duration)
    (retransmit_multiplier : N) : fragmentation_handler :=
  mk_handler [] [] retransmit_time drop_time iid st
    (size_type size_bits (Z.of_N max_fragment_size - Z.of_nat headers.sizeof))
    retransmit_multiplier.

(** ** What is read in the events *)

(** The fragments handed to [transmit_event], in order. *)
Definition transmits (ev : list event) : list fragment :=
  flat_map (fun e => match e with transmit_event f => [f] | _ => [] end) ev.





(** The transfers handed to [transfer_receive_event], in order. *)
Definition delivered (ev : list event) : list transfer :=
  flat_map (fun e => match e with transfer_receive_event t => [t] | _ => [] end) ev.

(** All events of a run, in order. *)
Definition events_in (log : list (call * list event)) : list event :=
  flat_map snd log.

(** The calls of [receive_callback] in a run. *)
Definition receptions (log : list (call * list event)) : nat :=
  length (filter (fun x => match fst x with call_receive _ _ => true | _ => false end) log).

(** The records of a table that own a transfer. *)
Definition live (l : list transfer_progress) : nat := length (transfers_of l).

(** The fragment is no longer than a header and [m] bytes. *)
Definition sized (m : N) (f : fragment) : Prop :=
  (length (f_data f) <= headers.sizeof + N.to_nat m)%nat.

(** The bytes [_get_fragment] copies for the position [pos]: at most [m]
    bytes of [d] from the offset [(pos - 1) * m] on. *)
Definition chunk (m : N) (d : bytes) (pos : N) : bytes :=
  firstn (N.to_nat m) (skipn (N.to_nat ((pos - 1) * m)) d).

(** The fragments [transmit] makes of a transfer, one for each position of
    its loop for which [serialize_fragment] returns. *)
Definition burst (h : fragmentation_handler) (t : transfer) : list fragment :=
  flat_map (fun pos => match serialize_fragment h headers.FRAGMENT pos t with
                       | Value f => [f]
                       | Raise _ => []
                       end)
    (positions (_fragments_count (max_fragment_size h) t)).

(** The [FRAGMENT_ACK] that [main_task] sends for a complete transfer. *)
Definition completion_ack (h : fragmentation_handler) (w : transfer) : fragment :=
  fragment_to (_source w)
    (headers.to_bytes
       (make_header h headers.FRAGMENT_ACK (_fragments_count (max_fragment_size h) w) w)).

(** The comment at [transfer_progress::id]: it should always match
    [tr->get_id()]. *)
Definition id_matches (r : transfer_progress) : Prop :=
  forall w, tr r = Some w -> id r = _id w.

(** [expired P R l l']: [l'] is [l] without some records that satisfy [P],
    every other one replaced by a record it is in relation [R] with. *)
Inductive expired (P : transfer_progress -> Prop)
    (R : transfer_progress -> transfer_progress -> Prop)
  : list transfer_progress -> list transfer_progress -> Prop :=
| expired_nil : expired P R [] []
| expired_erase r l l' : P r -> expired P R l l' -> expired P R (r :: l) l'
| expired_keep r r' l l' : R r r' -> expired P R l l' -> expired P R (r :: l) (r' :: l').

(** The record is the one it was, up to its timestamp, its counter and the
    release of its transfer. *)
Definition same_record (r r' : transfer_progress) : Prop :=
  id r' = id r /\ (tr r' = tr r \/ tr r' = None).

(** The second loop of [main_task] finds nothing to do at the record: it
    owns a transfer and is out of retransmissions or was accessed within
    the retransmit time. *)
Definition settled (now : time_point) (h : fragmentation_handler)
    (r : transfer_progress) : Prop :=
  exists w,
    tr r = Some w
    /\ (retransmitions r <? cap h w)
       && older_than now (timestamp_accessed r) (_retransmit_time h) = false.

(** The interface at [src] stamps a fragment it sends with its own
    address. *)
Definition sent_from (src : address_type) (f : fragment) : fragment :=
  mk_fragment src (f_destination f) (f_data f).

(** ** Passes of [main_task] *)

(** Every [transfer_receive_event] of the list directly follows the
    [FRAGMENT_ACK] for its transfer, and the slots of the transfer are all
    filled. *)
Inductive acknowledged (h : fragmentation_handler) : list event -> Prop :=
| acknowledged_nil : acknowledged h []
| acknowledged_delivery w ev :
    _is_complete w = true ->
    acknowledged h ev ->
    acknowledged h (transmit_event (completion_ack h w) :: transfer_receive_event w :: ev)
| acknowledged_other e ev :
    delivered [e] = [] -> acknowledged h ev -> acknowledged h (e :: ev).

(** [incoming_pass B l l' ev]: the first loop of [main_task] may go from
    the table [l] to the table [l'] emitting [ev], [B r v e] being what its
    body may do at the record [r]: it keeps the record, updated or not, or
    it erases it and steps over the record behind it. *)
Inductive incoming_pass (B : transfer_progress -> visit -> list event -> Prop)
  : list transfer_progress -> list transfer_progress -> list event -> Prop :=
| incoming_pass_nil : incoming_pass B [] [] []
| incoming_pass_kept r r' e l l' ev :
    B r (Kept r') e -> incoming_pass B l l' ev ->
    incoming_pass B (r :: l) (r' :: l') (e ++ ev)
| incoming_pass_erased_last r e :
    B r Erased e -> incoming_pass B [r] [] e
| incoming_pass_erased r r2 e l l' ev :
    B r Erased e -> incoming_pass B l l' ev ->
    incoming_pass B (r :: r2 :: l) (r2 :: l') (e ++ ev).

(** What the body of the first loop may do at a record, whatever the
    interface status. *)
Definition incoming_does (link_write : status -> fragment -> status)
    (now : time_point) (h : fragmentation_handler)
    (r : transfer_progress) (v : visit) (e : list event) : Prop :=
  exists st st', incoming_body link_write now h st r = (v, e, st').

(** The [FRAGMENT_REQ] that [main_task] sends for a transfer with an empty
    slot. *)
Definition retransmit_request (h : fragmentation_handler) (w : transfer) : fragment :=
  fragment_to (_source w)
    (headers.to_bytes (make_header h headers.FRAGMENT_REQ (_missing_fragment w) w)).

(** ** The effects of a call *)

(** What a call that came back has done to the handler [h]: it has left
    its configuration alone, the fragments it emitted fit the link, its
    deliveries are acknowledged, it has delivered or kept the incoming
    transfers there were, up to [extra] new ones, and its records have
    the ids of their transfers. *)
Definition effects (extra : nat) (h : fragmentation_handler)
    (x : fragmentation_handler * list event) : Prop :=
  same_config h (fst x)
  /\ Forall (sized (max_fragment_size h)) (transmits (snd x))
  /\ acknowledged h (snd x)
  /\ (length (delivered (snd x)) + live (_incoming_transfers (fst x))
      <= live (_incoming_transfers h) + extra)%nat
  /\ (Forall id_matches (_incoming_transfers h) ->
      Forall id_matches (_incoming_transfers (fst x)))
  /\ (Forall id_matches (_outgoing_transfers h) ->
      Forall id_matches (_outgoing_transfers (fst x))).

(** ** A transfer on its way to the peer *)

(** The slots of an incoming transfer of [n] fragments once the first [k]
    fragments of the data [d] have been assigned. *)
Definition slots_after (m : N) (d : bytes) (n k : nat) : list bytes :=
  map (chunk m d) (map N.of_nat (seq 1 k)) ++ repeat [] (n - k).

(** The incoming transfer that the peer [h] makes of the first [k] of the
    [n] fragments of [t], received at the time [now]. *)
Definition arriving (now : time_point) (h : fragmentation_handler) (m : N)
    (t : transfer) (n k : nat) : transfer :=
  mk_transfer (slots_after m (data_bytes t) n k) (_interface_identifier h)
    now now (_id t) (_prev_id t) (_source t) (_destination t).

(** The slots of an incoming transfer of [n] fragments of the data [d] when
    the fragments at the positions that [got] selects have been assigned. *)
Definition slots_with (m : N) (d : bytes) (n : N) (got : N -> bool) : list bytes :=
  map (fun pos => if got pos then chunk m d pos else []) (positions n).

(** The incoming transfer that the peer [h] makes of the fragments of [t]
    at the positions that [got] selects. *)
Definition reassembling (created modified : time_point) (h : fragmentation_handler)
    (m : N) (t : transfer) (got : N -> bool) : transfer :=
  mk_transfer (slots_with m (data_bytes t) (_fragments_count m t) got)
    (_interface_identifier h) created modified (_id t) (_prev_id t)
    (_source t) (_destination t).

(** A list without its element at the one-based position [pos]. *)
Definition without {A : Type} (pos : N) (l : list A) : list A :=
  firstn (N.to_nat pos - 1) l ++ skipn (N.to_nat pos) l.

(** ** A handler at work, for the scenarios *)

(** A handler with a retransmit time of 10 and a drop time of 100 that
    has been idle since the time 0: it waits for the second fragment of an
    incoming transfer, keeps a record in grace, and has sent an outgoing
    transfer of three bytes that is not acknowledged. *)
Definition waiting_handler : fragmentation_handler :=
  mk_handler
    [ mk_progress (Some (mk_transfer [payload [1]; []] 0 0%Z 0%Z 5 4 1 9)) 0%Z 0 5;
      mk_progress None 0%Z 0 3 ]
    [ mk_progress (Some (outbound [payload [1; 2; 3]])) 0%Z 0 7 ]
    10%Z 100%Z 0 (mk_status 5) 4 1.

(** * The receive buffer of a buffered interface
    (libprotoserial/interface/buffered.hpp) *)

Module buffered_interface.

(** [circular_iterator]: an iterator into the receive buffer that wraps at
    its end.  [bytes::iterator] is a pointer, here the address it holds;
    [_begin] is the first byte of the buffer and [_end] one past its last
    byte. *)
Record circular_iterator : Type := mk_circular_iterator {
  _begin : Z;
  _end : Z;
  _current : Z
}.

(** [operator*], in a memory that maps addresses to bytes. *)
Definition deref (memory : Z -> byte) (it : circular_iterator) : byte :=
  memory (_current it).

(** [operator++] (prefix) *)
Definition increment (it : circular_iterator) : circular_iterator :=
  let current := (_current it + 1)%Z in
  mk_circular_iterator (_begin it) (_end it)
    (if (_end it <=? current)%Z then _begin it else current).

(** [operator+=(uint shift)] *)
Definition add_assign (it : circular_iterator) (shift : N) : circular_iterator :=
  let current := (_current it + Z.of_N shift)%Z in
  mk_circular_iterator (_begin it) (_end it)
    (if (_end it <=? current)%Z then (current - (_end it - _begin it))%Z else current).

(** [operator+(circular_iterator lhs, uint rhs)] *)
Definition plus (lhs : circular_iterator) (rhs : N) : circular_iterator :=
  add_assign lhs rhs.

(** [distance(lagging, leading)] *)
Definition distance (lagging leading : circular_iterator) : Z :=
  let diff := (_current leading - _current lagging)%Z in
  if (0 <=? diff)%Z then diff else (diff + (_end lagging - _begin lagging))%Z.

(** [operator==] and [operator!=] *)
Definition eqb (a b : circular_iterator) : bool := (_current a =? _current b)%Z.
Definition neqb (a b : circular_iterator) : bool := negb (_current a =? _current b)%Z.

(** [get_rx_buffer()], for a receive buffer of [buffer_size] bytes at the
    address [rx_buffer]. *)
Definition get_rx_buffer (rx_buffer : Z) (buffer_size : N) : circular_iterator :=
  mk_circular_iterator rx_buffer (rx_buffer + Z.of_N buffer_size)%Z rx_buffer.

(** The invariant stated at the members: [_current] is in the interval
    [[_begin, _end)]. *)
Definition in_buffer (it : circular_iterator) : Prop :=
  (_begin it <= _current it < _end it)%Z.

(** The two iterators are into the same buffer. *)
Definition same_buffer (a b : circular_iterator) : Prop :=
  _begin a = _begin b /\ _end a = _end b.

(** The number of bytes of the buffer and the index of the byte the
    iterator is at. *)
Definition size (it : circular_iterator) : Z := (_end it - _begin it)%Z.
Definition offset (it : circular_iterator) : Z := (_current it - _begin it)%Z.

End buffered_interface.

(** * Peers of the minimal handler
    (libprotoserial/fragmentation/minimal.hpp) *)

Module base_minimal_handler.

(** [configuration]: the handler reads its [peer_rate]. *)
Record configuration : Type := mk_configuration {
  peer_rate : N
}.

Record peer_state : Type := mk_peer_state {
  addr : address_type;
  tx_rate : N;
  last_rx : time_point;
  tx_holdoff : time_point
}.

(** [peer_state(a, c)]; [never] is the time point [never()] of clock.hpp
    and [now] what [clock::now()] returns. *)
Definition new_peer_state (never now : time_point) (a : address_type)
    (c : configuration) : peer_state :=
  mk_peer_state a (peer_rate c) never now.

(** [in_transmit_holdoff()] at the time [now] *)
Definition in_transmit_holdoff (now : time_point) (ps : peer_state) : bool :=
  (now <? tx_holdoff ps)%Z.

(** [peer_find(addr)]: the list of peers it leaves and the position in it
    of the iterator it returns. *)
Definition peer_find (never now : time_point) (_config : configuration)
    (a : address_type) (_peer_states : list peer_state) : list peer_state * nat :=
  match find_if (fun ps => addr ps =? a) _peer_states with
  | None => (new_peer_state never now a _config :: _peer_states, 0%nat)
  | Some (before, _, _) => (_peer_states, length before)
  end.

End base_minimal_handler.

(** * Properties *)

(** ** The header codec *)

Lemma to_N_u8 (n : N) : Byte.to_N (u8 n) = n mod 256.
Proof.
  unfold u8. destruct (Byte.of_N (n mod 256)) as [b|] eqn:E.
  - now apply Byte.to_of_N.
  - apply Byte.of_N_None_iff in E.
    pose proof (N.mod_upper_bound n 256). lia.
Qed.

Lemma byte_copy_to_bytes_type (hd : Header) (d : bytes) :
  headers.type (headers.byte_copy (headers.to_bytes hd ++ d)) = headers.type hd mod 256.
Proof. unfold headers.byte_copy, headers.to_bytes. simpl. apply to_N_u8. Qed.

Lemma byte_copy_to_bytes_total (hd : Header) (d : bytes) :
  headers.fragments_total (headers.byte_copy (headers.to_bytes hd ++ d))
  = headers.fragments_total hd mod 256.
Proof. unfold headers.byte_copy, headers.to_bytes. simpl. apply to_N_u8. Qed.

Lemma to_N_lt (x : byte) : Byte.to_N x < 256.
Proof. pose proof (Byte.to_N_bounded x). lia. Qed.

Lemma byte_copy_bounds (d : bytes) :
  let hd := headers.byte_copy d in
  headers.type hd < 256 /\ headers.fragment hd < 256
  /\ headers.fragments_total hd < 256
  /\ headers.get_id hd < 65536 /\ headers.get_prev_id hd < 65536.
Proof.
  unfold headers.byte_copy. cbn [headers.type headers.fragment headers.fragments_total
                                 headers.get_id headers.get_prev_id].
  pose proof (to_N_lt (nth 0 d Byte.x00)). pose proof (to_N_lt (nth 1 d Byte.x00)).
  pose proof (to_N_lt (nth 2 d Byte.x00)). pose proof (to_N_lt (nth 3 d Byte.x00)).
  pose proof (to_N_lt (nth 4 d Byte.x00)). pose proof (to_N_lt (nth 5 d Byte.x00)).
  pose proof (to_N_lt (nth 6 d Byte.x00)). lia.
Qed.

Lemma u16_bytes (n : N) : n < 65536 -> n mod 256 + 256 * ((n / 256) mod 256) = n.
Proof.
  intros Hn. rewrite (N.mod_small (n / 256)).
  - rewrite N.add_comm. symmetry. apply N.div_mod. discriminate.
  - apply N.Div0.div_lt_upper_bound. exact Hn.
Qed.

Lemma byte_copy_to_bytes (hd : Header) (d : bytes) :
  headers.type hd < 256 -> headers.fragment hd < 256 ->
  headers.fragments_total hd < 256 ->
  headers.get_id hd < 65536 -> headers.get_prev_id hd < 65536 ->
  headers.byte_copy (headers.to_bytes hd ++ d) = hd.
Proof.
  intros Ht Hf Hn Hi Hp. destruct hd as [ty f n i p].
  cbn [headers.type headers.fragment headers.fragments_total headers.get_id
         headers.get_prev_id] in *.
  unfold headers.byte_copy, headers.to_bytes.
  cbn [headers.type headers.fragment headers.fragments_total headers.get_id
         headers.get_prev_id app nth].
  rewrite !to_N_u8, !N.mod_small, !u16_bytes by assumption. reflexivity.
Qed.

Lemma ceil_count (d m : N) :
  m <> 0 -> d / m + (if d mod m =? 0 then 0 else 1) = (d + m - 1) / m.
Proof.
  intros Hm.
  pose proof (N.div_mod d m Hm) as Hd.
  pose proof (N.mod_upper_bound d m Hm) as Hr.
  generalize dependent (d mod m). generalize dependent (d / m).
  intros q r Hd Hr.
  destruct (N.eqb_spec r 0) as [E|E].
  - apply N.div_unique with (r := m - 1); lia.
  - apply N.div_unique with (r := r - 1); lia.
Qed.

(** ** Generalities on outcomes and on the loops *)

Lemma when_back_map {A B : Type} (f : A -> B) (P : B -> Prop) (o : outcome A) :
  when_back (fun a => P (f a)) o -> when_back P (outcome_map f o).
Proof. destruct o; simpl; auto. Qed.

Lemma when_back_impl {A : Type} (P Q : A -> Prop) (o : outcome A) :
  (forall a, P a -> Q a) -> when_back P o -> when_back Q o.
Proof. destruct o; simpl; auto. Qed.

(** Induction on a list for a loop that, at an element, goes on either with
    the rest or with the rest less its first element. *)
Lemma list_ind_skip {A : Type} (P : list A -> Prop) :
  P [] ->
  (forall r rest,
      P rest -> (forall r2 rest', rest = r2 :: rest' -> P rest') -> P (r :: rest)) ->
  forall l, P l.
Proof.
  intros Hnil Hcons l.
  assert (H : P l /\ (forall r2 rest', l = r2 :: rest' -> P rest')).
  { induction l as [|r rest [IH1 IH2]].
    - split; [exact Hnil | discriminate].
    - split.
      + apply Hcons; assumption.
      + intros r2 rest' E. injection E as _ <-. exact IH1. }
  apply H.
Qed.

Section blocked.

Variable fragment_ok : fragment -> bool.
Variable link_write : status -> fragment -> status.

Lemma outgoing_body_blocked now h st r :
  can_transmit_status st = false ->
  outgoing_body link_write now h st r = Returns (Erase, [], st)
  \/ outgoing_body link_write now h st r = Returns (Advance, [], st).
Proof.
  intros Hst. unfold outgoing_body. rewrite Hst.
  destruct (older_than _ _ _); auto.
Qed.

Lemma outgoing_loop_blocked fuel now h st l :
  can_transmit_status st = false ->
  when_back (fun x => snd (fst x) = [] /\ snd x = st)
    (outgoing_loop link_write fuel now h st l).
Proof.
  intros Hst. unfold outgoing_loop. revert l.
  induction fuel as [|fuel IH]; intros l; cbn [outgoing_walk when_back]; auto.
  destruct l as [|r rest]; cbn [when_back fst snd]; auto.
  destruct (outgoing_body_blocked now h st r Hst) as [-> | ->];
    apply when_back_map; (eapply when_back_impl; [|apply IH]);
    intros [[l' ev] st']; cbn; auto.
Qed.


End blocked.


(** ** What the calls do to a table *)

Lemma thinned_refl R l : (forall r, R r r) -> thinned R l l.
Proof. intros HR. induction l; [apply thinned_nil | apply thinned_keep; auto]. Qed.

Lemma thinned_app R l1 l1' l2 l2' :
  thinned R l1 l1' -> thinned R l2 l2' -> thinned R (l1 ++ l2) (l1' ++ l2').
Proof.
  induction 1; intros H2; simpl;
    [assumption | apply thinned_erase; auto | apply thinned_keep; auto].
Qed.

Lemma thinned_Forall R (P : transfer_progress -> Prop) l l' :
  (forall r r', R r r' -> P r -> P r') ->
  thinned R l l' -> Forall P l -> Forall P l'.
Proof.
  intros HR Ht. induction Ht; intros HF; inversion_clear HF; eauto.
Qed.

Lemma find_if_split {A : Type} (pred : A -> bool) l before x after :
  find_if pred l = Some (before, x, after) ->
  l = before ++ x :: after /\ pred x = true
  /\ Forall (fun y => pred y = false) before.
Proof.
  revert before. induction l as [|y l IH]; intros before; simpl; [discriminate|].
  destruct (pred y) eqn:Hy.
  - intros [= <- <- <-]. auto.
  - destruct (find_if pred l) as [[[b z] a]|]; [|discriminate].
    intros [= <- <- <-]. destruct (IH b eq_refl) as (-> & Hz & Hb). auto.
Qed.

Lemma find_if_none {A : Type} (pred : A -> bool) l :
  find_if pred l = None -> Forall (fun y => pred y = false) l.
Proof.
  induction l as [|y l IH]; simpl; [constructor|].
  destruct (pred y) eqn:Hy; [discriminate|].
  destruct (find_if pred l) as [[[b z] a]|]; [discriminate|]. auto.
Qed.

Lemma find_if_tr_split pred l before it w after :
  find_if_tr pred l = Returns (Some (before, (it, w), after)) ->
  l = before ++ it :: after /\ tr it = Some w /\ pred w = true
  /\ Forall (fun r => exists v, tr r = Some v /\ pred v = false) before.
Proof.
  revert before. induction l as [|y l IH]; intros before; simpl; [discriminate|].
  destruct (tr y) as [v|] eqn:Hy; [|discriminate].
  destruct (pred v) eqn:Hv.
  - intros [= <- <- <- <-]. auto.
  - destruct (find_if_tr pred l) as [[[[b [z u]] a]|]| | | |]; simpl; try discriminate.
    intros [= <- <- <- <-]. destruct (IH b eq_refl) as (-> & Hz & Hu & Hb).
    repeat split; eauto.
Qed.

Lemma find_if_tr_owned pred l :
  Forall (fun r => tr r <> None) l ->
  exists x, find_if_tr pred l = Returns x.
Proof.
  induction 1 as [|y l Hy _ IH]; simpl; eauto.
  destruct (tr y) as [v|]; [|congruence].
  destruct (pred v); eauto. destruct IH as [x ->]. simpl. eauto.
Qed.

Lemma find_if_tr_back pred l : 
  (exists x, find_if_tr pred l = Returns x) \/ find_if_tr pred l = NullDereference.
Proof.
  induction l as [|y l IH]; simpl; eauto.
  destruct (tr y) as [v|]; auto. destruct (pred v); eauto.
  destruct IH as [[x ->]| ->]; simpl; eauto.
Qed.

(** *** The exceptions of [_get_fragment] *)

Lemma _get_fragment_raises m t i :
  (exists what, _get_fragment m t i = Raise what)
  <-> i = 0 \/ data_size t < (i - 1) * m.
Proof.
  unfold _get_fragment.
  destruct (N.eqb_spec i 0) as [->|Hi].
  - split; eauto.
  - destruct (N.ltb_spec (data_size t) ((i - 1) * m)).
    + split; eauto.
    + split; [intros [what [=]] | intros [?|?]; [congruence | lia]].
Qed.

Lemma is_emission_push_front ty hd p :
  is_emission ty (transmit_event (push_front (headers.to_bytes hd) p))
  = (headers.type hd mod 256 =? ty).
Proof.
  unfold is_emission, push_front. cbn [f_data].
  now rewrite byte_copy_to_bytes_type.
Qed.

Lemma is_emission_fragment_to ty hd dst :
  is_emission ty (transmit_event (fragment_to dst (headers.to_bytes hd)))
  = (headers.type hd mod 256 =? ty).
Proof.
  unfold is_emission, fragment_to. cbn [f_data].
  rewrite <- (app_nil_r (headers.to_bytes hd)).
  now rewrite byte_copy_to_bytes_type.
Qed.

Lemma serialize_fragment_value h ty pos w f :
  serialize_fragment h ty pos w = Value f ->
  forall ty', is_emission ty' (transmit_event f) = (ty mod 256 =? ty').
Proof.
  unfold serialize_fragment.
  destruct (_get_fragment _ _ _) as [p|]; [|discriminate].
  intros [= <-] ty'. rewrite is_emission_push_front.
  unfold make_header, headers.construct. cbn [headers.type].
  now rewrite N.Div0.mod_mod.
Qed.

Lemma byte_copy_construct ty pos total i prev (d : bytes) :
  headers.byte_copy (headers.to_bytes (headers.construct ty pos total i prev) ++ d)
  = headers.construct ty pos total i prev.
Proof.
  apply byte_copy_to_bytes; unfold headers.construct;
    cbn [headers.type headers.fragment headers.fragments_total headers.get_id
           headers.get_prev_id];
    apply N.mod_upper_bound; discriminate.
Qed.

(** A fragment made from a transfer carries the key of the transfer. *)
Lemma serialize_fragment_key h ty pos w f :
  serialize_fragment h ty pos w = Value f -> fragment_key f = transfer_key w.
Proof.
  unfold serialize_fragment, _get_fragment.
  destruct (pos =? 0); [discriminate|].
  destruct (data_size w <? _); [discriminate|].
  intros [= <-]. unfold fragment_key, push_front, fragment_to, make_header.
  cbn [f_data f_destination]. rewrite byte_copy_construct. reflexivity.
Qed.

Lemma serialize_first_fragment h ty w :
  exists f, serialize_fragment h ty 1 w = Value f.
Proof.
  unfold serialize_fragment.
  destruct (_get_fragment (max_fragment_size h) w 1) as [p|what] eqn:E; eauto.
  assert (Hr : exists what, _get_fragment (max_fragment_size h) w 1 = Raise what)
    by eauto.
  apply _get_fragment_raises in Hr. lia.
Qed.

(** ** The loops of [main_task] *)

Lemma cap_lt h w : cap h w < 2 ^ 32.
Proof. unfold cap, uint. apply N.mod_upper_bound. discriminate. Qed.

Lemma retransmit_done_below_cap now h r w :
  tr r = Some w -> retransmitions r < cap h w ->
  retransmitions (retransmit_done now r) = retransmitions r + 1
  /\ budget h (retransmit_done now r) + 1 = budget h r.
Proof.
  intros Hw Hlt. pose proof (cap_lt h w) as Hc.
  unfold budget, retransmit_done. cbn [tr retransmitions]. rewrite Hw.
  unfold uint. rewrite N.mod_small by lia. lia.
Qed.

Lemma probed_refl h r : probed h r r.
Proof. split; auto. Qed.

Lemma thinned_after_probe now h r w rest l' :
  tr r = Some w -> retransmitions r < cap h w ->
  thinned (probed h) (retransmit_done now r :: rest) l' ->
  thinned (probed h) (r :: rest) l'.
Proof.
  intros Hw Hlt Ht.
  destruct (retransmit_done_below_cap now h r w Hw Hlt) as [Hr _].
  inversion Ht as [|? ? ? Ht'|? r'' ? l'' [Htr Hre] Ht']; subst.
  - now apply thinned_erase.
  - apply thinned_keep; [|assumption].
    split; [exact Htr|]. right. exists w. split; [assumption|].
    rewrite Hr in Hre.
    destruct Hre as [E|(w' & Hw' & Hlt')]; [lia|].
    cbn [tr retransmit_done] in Hw'.
    rewrite Hw in Hw'. injection Hw' as <-. lia.
Qed.

Section passes.

Variable link_write : status -> fragment -> status.

(** What the body of the second loop does at a record. *)
Lemma outgoing_body_spec now h st r :
  match outgoing_body link_write now h st r with
  | Returns (Erase, ev, st') | Returns (Advance, ev, st') => ev = [] /\ st' = st
  | Returns (Stay r', ev, st') =>
      exists w f,
        tr r = Some w /\ retransmitions r < cap h w
        /\ r' = retransmit_done now r
        /\ serialize_fragment h headers.FRAGMENT 1 w = Value f
        /\ ev = [transmit_event f] /\ st' = link_write st f
  | NullDereference => tr r = None
  | _ => False
  end.
Proof.
  unfold outgoing_body.
  destruct (older_than now (timestamp_accessed r) (_drop_time h)); [auto|].
  destruct (can_transmit_status st); [|auto].
  destruct (tr r) as [w|] eqn:Hw; [|reflexivity].
  fold (cap h w).
  destruct (N.ltb_spec (retransmitions r) (cap h w)) as [Hlt|Hge]; [|cbn; auto].
  destruct (older_than now (timestamp_accessed r) (_retransmit_time h)); [|cbn; auto].
  cbn [andb].
  destruct (serialize_first_fragment h headers.FRAGMENT w) as [f Hf].
  rewrite Hf. exists w, f. repeat split; auto.
Qed.

(** The second loop with enough fuel: it comes to its end, it throws
    nothing, and the only thing it may trip over is a record that owns no
    transfer. *)
Lemma outgoing_loop_spec fuel now h st l :
  (length l + N.to_nat (budgets h l) < fuel)%nat ->
  match outgoing_loop link_write fuel now h st l with
  | Returns (l', ev, st') => probes now h l l' ev
  | NullDereference => ~ Forall owns l
  | _ => False
  end.
Proof.
  unfold outgoing_loop.
  revert st l. induction fuel as [|fuel IH]; intros st l Hfuel; [lia|].
  destruct l as [|r rest]; cbn [outgoing_walk]; [constructor|].
  cbn [length] in Hfuel.
  change (budgets h (r :: rest)) with (budget h r + budgets h rest) in *.
  pose proof (outgoing_body_spec now h st r) as Hbody.
  destruct (outgoing_body link_write now h st r)
    as [[[[|r'|] ev0] st0]|what [[s ev0] st0]| | |]; try contradiction.
  - destruct Hbody as [-> ->].
    specialize (IH st rest ltac:(lia)).
    destruct (outgoing_walk _ fuel st rest)
      as [[[l' ev] st']|what [[l' ev] st']| | |];
      cbn [outcome_map after_events app] in *; try contradiction.
    + now apply probes_erase.
    + intros HF. inversion HF. auto.
  - destruct Hbody as (w & f & Hw & Hlt & -> & Hf & -> & ->).
    destruct (retransmit_done_below_cap now h r w Hw Hlt) as [Hr Hb1].
    specialize (IH (link_write st f) (retransmit_done now r :: rest)).
    cbn [length] in IH.
    change (budgets h (retransmit_done now r :: rest))
      with (budget h (retransmit_done now r) + budgets h rest) in IH.
    specialize (IH ltac:(lia)).
    destruct (outgoing_walk _ fuel (link_write st f) (retransmit_done now r :: rest))
      as [[[l' ev] st']|what [[l' ev] st']| | |];
      cbn [outcome_map after_events app] in *; try contradiction.
    + eapply probes_stay; eassumption.
    + intros HF. apply IH. inversion HF as [|? ? Hr' HF']. constructor; auto.
  - destruct Hbody as [-> ->].
    specialize (IH st rest ltac:(lia)).
    destruct (outgoing_walk _ fuel st rest)
      as [[[l' ev] st']|what [[l' ev] st']| | |];
      cbn [outcome_map after_events keep app] in *; try contradiction.
    + now apply probes_advance.
    + intros HF. inversion HF. auto.
  - intros HF. inversion HF as [|? ? Hr _]. apply Hr. exact Hbody.
Qed.

Lemma probes_thinned now h l l' ev :
  probes now h l l' ev -> thinned (probed h) l l'.
Proof.
  induction 1 as [|r l l' ev _ IH|r l l' ev _ IH|r w f l l' ev Hw Hlt Hf _ IH].
  - constructor.
  - now apply thinned_erase.
  - apply thinned_keep; [apply probed_refl | assumption].
  - eapply thinned_after_probe; eassumption.
Qed.

Lemma probes_fragments now h l l' ev :
  probes now h l l' ev ->
  Forall (fun e => is_emission headers.FRAGMENT e = true) ev.
Proof.
  induction 1 as [|r l l' ev _ IH|r l l' ev _ IH|r w f l l' ev Hw Hlt Hf _ IH];
    try assumption; [constructor|].
  constructor; [|assumption].
  rewrite (serialize_fragment_value _ _ _ _ _ Hf). reflexivity.
Qed.

End passes.

Section main_task_facts.

Variable link_write : status -> fragment -> status.

Lemma incoming_events_app ev1 ev2 :
  incoming_events ev1 -> incoming_events ev2 -> incoming_events (ev1 ++ ev2).
Proof.
  unfold incoming_events, acks_of. intros [H1 H2] [H3 H4].
  rewrite filter_app, flat_map_app, H1, H2, H3, H4. auto.
Qed.

Lemma incoming_body_spec now h st r :
  let '(v, ev, st') := incoming_body link_write now h st r in
  incoming_events ev
  /\ match v with
     | Erased => True
     | Kept r' => same_or_released r r' /\ id r' = id r
     end.
Proof.
  unfold incoming_body. destruct (tr r) as [w|] eqn:Hw.
  - destruct (_is_complete w && can_transmit_status st).
    { split; [|split; [right|]; reflexivity].
      unfold incoming_events. cbn [filter acks_of flat_map app].
      rewrite is_emission_fragment_to. unfold make_header, headers.construct.
      cbn [headers.type]. rewrite N.Div0.mod_mod. split; reflexivity. }
    destruct (older_than now (_timestamp_modified w) (_drop_time h)).
    { split; [split; reflexivity | exact I]. }
    destruct (can_transmit_status st && _ && _).
    { split; [|split; [left|]; reflexivity].
      unfold incoming_events. cbn [filter acks_of flat_map app].
      rewrite is_emission_fragment_to. unfold make_header, headers.construct.
      cbn [headers.type]. rewrite N.Div0.mod_mod. split; reflexivity. }
    split; [split; reflexivity | split; [left|]; reflexivity].
  - destruct (older_than _ _ _).
    + split; [split; reflexivity | exact I].
    + split; [split; reflexivity | split; [left|]; reflexivity].
Qed.

Lemma incoming_loop_spec now h st l :
  let '(l', ev, st') := incoming_loop link_write now h st l in
  incoming_events ev /\ thinned same_or_released l l'.
Proof.
  unfold incoming_loop.
  revert st. induction l as [|r rest IH1 IH2] using list_ind_skip; intros st.
  - cbn. split; [split; reflexivity | constructor].
  - cbn [incoming_walk].
    pose proof (incoming_body_spec now h st r) as Hb.
    destruct (incoming_body link_write now h st r) as [[v ev] st'].
    destruct Hb as [Hev Hv]. destruct v as [|r'].
    + destruct rest as [|r2 rest'].
      * split; [assumption | apply thinned_erase; constructor].
      * specialize (IH2 r2 rest' eq_refl st').
        destruct (incoming_walk _ st' rest') as [[l' ev'] st''].
        destruct IH2 as [Hev' Ht]. cbn. split.
        -- now apply incoming_events_app.
        -- apply thinned_erase. apply thinned_keep; [left; reflexivity | assumption].
    + specialize (IH1 st').
      destruct (incoming_walk _ st' rest) as [[l' ev'] st''].
      destruct IH1 as [Hev' Ht]. cbn. split.
      * now apply incoming_events_app.
      * apply thinned_keep; [apply Hv | assumption].
Qed.

Lemma same_config_refl h : same_config h h.
Proof. repeat split. Qed.

(** [main_task] comes to its end unless a record of the outgoing table
    owns no transfer; it throws nothing.  Its events are those of the first
    loop, then those of the second. *)
Lemma main_task_spec now h :
  match main_task link_write now h with
  | Returns (h', ev) =>
      same_config h h'
      /\ thinned same_or_released (_incoming_transfers h) (_incoming_transfers h')
      /\ exists ev1 ev2,
           ev = ev1 ++ ev2
           /\ incoming_events ev1
           /\ probes now h (_outgoing_transfers h) (_outgoing_transfers h') ev2
  | NullDereference => ~ Forall owns (_outgoing_transfers h)
  | _ => False
  end.
Proof.
  unfold main_task.
  pose proof (incoming_loop_spec now h (_interface_status h) (_incoming_transfers h))
    as Hinc.
  destruct (incoming_loop _ _ _ _ _) as [[inc ev1] st1].
  destruct Hinc as [Hev1 Hti].
  pose proof (outgoing_loop_spec link_write
                (outgoing_fuel h (_outgoing_transfers h)) now h st1
                (_outgoing_transfers h)) as Hout.
  specialize (Hout ltac:(unfold outgoing_fuel; lia)).
  destruct (outgoing_loop _ _ _ _ _ _) as [[[out ev2] st2]| | | |]; try contradiction.
  - cbn. repeat split; try assumption. exists ev1, ev2. auto.
  - exact Hout.
Qed.

Lemma main_task_no_acks ev1 ev2 now h l l' :
  incoming_events ev1 -> probes now h l l' ev2 -> acks_of (ev1 ++ ev2) = [].
Proof.
  intros [_ Ha] Hp. unfold acks_of in *. rewrite flat_map_app, Ha. cbn [app].
  pose proof (probes_fragments _ _ _ _ _ Hp) as Hf.
  clear - Hf. induction Hf as [|e ev He _ IH]; [reflexivity|].
  destruct e; cbn in He |- *; try discriminate. exact IH.
Qed.

End main_task_facts.

(** ** [receive_callback] and [transmit] *)

Section receive_transmit_facts.

Variable fragment_ok : fragment -> bool.
Variable link_write : status -> fragment -> status.

Lemma handle_fragment_effect now hd p h :
  headers.is_valid hd = true ->
  match handle_fragment link_write now hd p h with
  | Returns (h', ev) => receive_effect link_write now h h' ev
  | Throws _ (h', ev) => h' = h /\ ev = []
  | NullDereference => ~ Forall owns (_outgoing_transfers h)
  | _ => False
  end.
Proof.
  intros Hvalid. unfold handle_fragment.
  destruct (headers.type hd =? headers.FRAGMENT).
  - destruct (find_if _ _) as [[[before it] after]|] eqn:Hfind.
    + apply find_if_split in Hfind. destruct Hfind as (Hl & _ & _).
      destruct (tr it) as [w|] eqn:Hw.
      * eapply received_next; eassumption.
      * destruct (can_transmit h); [|constructor].
        apply received_duplicate. rewrite is_emission_fragment_to.
        unfold headers.construct. cbn [headers.type].
        now rewrite N.Div0.mod_mod.
    + cbn [new_progress tr]. now apply received_first.
  - destruct (find_if_tr _ _) as [[[[before [it w]] after]|]| | | |] eqn:Hfind.
    + apply find_if_tr_split in Hfind. destruct Hfind as (Hl & Hw & _ & _).
      destruct (_ && can_transmit h).
      * destruct (serialize_fragment _ _ _ _) as [f|what] eqn:Hf; [|auto].
        eapply received_request; try eassumption.
        now rewrite (serialize_fragment_value _ _ _ _ _ Hf).
      * destruct (headers.type hd =? headers.FRAGMENT_ACK); [|constructor].
        eapply received_ack; eassumption.
    + constructor.
    + destruct (find_if_tr_back (outgoing_match hd p) (_outgoing_transfers h))
        as [[x Hx]|Hx]; congruence.
    + destruct (find_if_tr_back (outgoing_match hd p) (_outgoing_transfers h))
        as [[x Hx]|Hx]; congruence.
    + intros HF. destruct (find_if_tr_owned (outgoing_match hd p) _ HF) as [x Hx].
      congruence.
    + destruct (find_if_tr_back (outgoing_match hd p) (_outgoing_transfers h))
        as [[x Hx]|Hx]; congruence.
Qed.

(** [receive_callback] never throws to its caller: it returns, it ends
    the program, or it trips over a record that owns no transfer. *)
Lemma receive_callback_effect now p h :
  match receive_callback fragment_ok link_write now p h with
  | Returns (h', ev) => receive_effect link_write now h h' ev
  | Terminates => True
  | NullDereference => ~ Forall owns (_outgoing_transfers h)
  | _ => False
  end.
Proof.
  unfold receive_callback.
  destruct (fragment_ok p && _); [|constructor].
  destruct (headers.is_valid _) eqn:Hvalid; [|constructor].
  pose proof (handle_fragment_effect now _ (shrink_header p) h Hvalid) as H.
  destruct (handle_fragment _ _ _ _ _) as [[h' ev]| | | |]; auto.
Qed.

Lemma transmit_loop_spec h w ps st :
  match transmit_loop link_write h w ps st with
  | Returns (ev, _) | Throws _ (ev, _) =>
      Forall (fun e => is_emission headers.FRAGMENT e = true) ev
      /\ (length ev <= length ps)%nat
      /\ Forall (fun e => exists f pos,
                     e = transmit_event f
                     /\ serialize_fragment h headers.FRAGMENT pos w = Value f) ev
  | _ => False
  end.
Proof.
  revert st. induction ps as [|pos ps IH]; intros st; cbn [transmit_loop].
  - repeat split; [constructor | apply le_n | constructor].
  - destruct (can_transmit_status st).
    2:{ repeat split; [constructor | cbn; lia | constructor]. }
    destruct (serialize_fragment _ _ _ _) as [f|what] eqn:Hf.
    2:{ repeat split; [constructor | cbn; lia | constructor]. }
    specialize (IH (link_write st f)).
    pose proof (serialize_fragment_value _ _ _ _ _ Hf headers.FRAGMENT) as Hty.
    destruct (transmit_loop _ _ _ _ _) as [[ev st']|what [ev st']| | |];
      cbn [outcome_map fst snd length] in *; try contradiction;
      (destruct IH as (IH1 & IH2 & IH3);
       repeat split; [constructor; assumption | lia | constructor; eauto]).
Qed.

Lemma length_positions n : length (positions n) = N.to_nat n.
Proof. unfold positions. now rewrite length_map, length_seq. Qed.

(** [transmit] stores the transfer in a new record at the end of the
    outgoing table, whether it returns or throws, and emits one
    [FRAGMENT] for each fragment of the transfer at most. *)
Lemma transmit_spec now t h :
  match transmit link_write now t h with
  | Returns (h', ev) | Throws _ (h', ev) =>
      (exists tp st,
          h' = set_status st (set_outgoing (_outgoing_transfers h ++ [tp]) h)
          /\ tr tp = Some t /\ retransmitions tp = 0)
      /\ Forall (fun e => is_emission headers.FRAGMENT e = true) ev
      /\ N.of_nat (length ev) <= _fragments_count (max_fragment_size h) t
      /\ Forall (fun e => exists f pos,
                     e = transmit_event f
                     /\ serialize_fragment h headers.FRAGMENT pos t = Value f) ev
  | _ => False
  end.
Proof.
  unfold transmit.
  pose proof (transmit_loop_spec h t
                (positions (_fragments_count (max_fragment_size h) t))
                (_interface_status h)) as H.
  rewrite length_positions in H.
  destruct (transmit_loop _ _ _ _ _) as [[ev st]|what [ev st]| | |];
    try contradiction; destruct H as (H1 & H2 & H3);
    (split; [eexists _, st; repeat split
            | split; [assumption | split; [lia | assumption]]]).
Qed.

End receive_transmit_facts.

(** ** Invariants of runs *)

Section run_facts.

Variable fragment_ok : fragment -> bool.
Variable link_write : status -> fragment -> status.

Lemma run_invariant (I : fragmentation_handler -> Prop) :
  (forall c h, I h -> when_back (fun x => I (fst x)) (exec fragment_ok link_write c h)) ->
  forall cs h, I h -> I (fst (run fragment_ok link_write cs h)).
Proof.
  intros Hstep cs. induction cs as [|c cs IH]; intros h Hh; [exact Hh|].
  cbn [run]. specialize (Hstep c h Hh).
  destruct (exec fragment_ok link_write c h) as [[h' ev]|what [h' ev]| | |];
    cbn in *; try exact Hh;
    specialize (IH h' Hstep); destruct (run fragment_ok link_write cs h'); exact IH.
Qed.

Lemma thinned_same_tr_probed h l l' :
  thinned (probed h) l l' -> thinned same_tr l l'.
Proof.
  induction 1 as [| |r r' l l' [Htr _] _ IH];
    [apply thinned_nil | now apply thinned_erase | now apply thinned_keep].
Qed.

Lemma thinned_same_tr_refl l : thinned same_tr l l.
Proof. apply thinned_refl. reflexivity. Qed.

(** What a call does to the outgoing table: it erases records, leaves
    the others the transfer they own and may add a record that owns one. *)
Lemma exec_outgoing c h :
  match exec fragment_ok link_write c h with
  | Returns (h', _) | Throws _ (h', _) =>
      exists l new,
        _outgoing_transfers h' = l ++ new
        /\ thinned same_tr (_outgoing_transfers h) l
        /\ Forall owns new
  | Terminates => True
  | NullDereference => ~ Forall owns (_outgoing_transfers h)
  | FuelExhausted => False
  end.
Proof.
  destruct c as [now p|now t|now|st]; cbn [exec].
  - pose proof (receive_callback_effect fragment_ok link_write now p h) as H.
    destruct (receive_callback _ _ _ _ _) as [[h' ev]| | | |];
      try contradiction; auto.
    exists (_outgoing_transfers h'), []. rewrite app_nil_r.
    split; [reflexivity|]. split; [|constructor].
    destruct H; cbn; try apply thinned_same_tr_refl.
    + rewrite H. apply thinned_app; [apply thinned_same_tr_refl|].
      apply thinned_keep; [reflexivity | apply thinned_same_tr_refl].
    + rewrite H. apply thinned_app; [apply thinned_same_tr_refl|].
      apply thinned_erase, thinned_same_tr_refl.
  - pose proof (transmit_spec link_write now t h) as H.
    destruct (transmit _ _ _ _) as [[h' ev]|what [h' ev]| | |];
      try contradiction;
      destruct H as ((tp & st & -> & Htp & _) & _); cbn;
      (exists (_outgoing_transfers h), [tp]; split; [reflexivity|];
       split; [apply thinned_same_tr_refl|];
       constructor; [unfold owns; congruence | constructor]).
  - pose proof (main_task_spec link_write now h) as H.
    destruct (main_task _ _ _) as [[h' ev]| | | |]; try contradiction; auto.
    destruct H as (_ & _ & ev1 & ev2 & _ & _ & Hp).
    exists (_outgoing_transfers h'), []. rewrite app_nil_r.
    split; [reflexivity|]. split; [|constructor].
    eapply thinned_same_tr_probed, probes_thinned; eassumption.
  - cbn. exists (_outgoing_transfers h), []. rewrite app_nil_r.
    split; [reflexivity|]. split; [apply thinned_same_tr_refl | constructor].
Qed.

Lemma owns_thinned l l' :
  thinned same_tr l l' -> Forall owns l -> Forall owns l'.
Proof.
  apply thinned_Forall. intros r r' Htr. unfold owns. now rewrite Htr.
Qed.

Lemma exec_owns c h :
  Forall owns (_outgoing_transfers h) ->
  when_back (fun x => Forall owns (_outgoing_transfers (fst x)))
    (exec fragment_ok link_write c h)
  /\ exec fragment_ok link_write c h <> NullDereference.
Proof.
  intros Ho. pose proof (exec_outgoing c h) as H.
  destruct (exec fragment_ok link_write c h) as [[h' ev]|what [h' ev]| | |];
    cbn; try contradiction; (split; [|discriminate]); auto;
    destruct H as (l & new & -> & Ht & Hn);
    (apply Forall_app; split; [eapply owns_thinned; eassumption | assumption]).
Qed.

(** C9. In every state a run reaches from a handler with an empty
    outgoing table every outgoing record owns a transfer: a call only
    erases outgoing records, leaves them the transfer they own or adds a
    record that owns one.  So neither the lookup of the REQ/ACK branch
    nor any call dereferences an empty pointer. *)
Theorem outgoing_records_own_transfers :
  forall cs h,
    max_fragment_size h <> 0 ->
    _outgoing_transfers h = [] ->
    let h' := fst (run fragment_ok link_write cs h) in
    Forall owns (_outgoing_transfers h')
    /\ (forall hd p,
          find_if_tr (outgoing_match hd p) (_outgoing_transfers h') <> NullDereference)
    /\ (forall c,
          exec fragment_ok link_write c h' <> NullDereference
          /\ when_back
               (fun x => exists l new,
                    _outgoing_transfers (fst x) = l ++ new
                    /\ thinned same_tr (_outgoing_transfers h') l
                    /\ Forall owns new)
               (exec fragment_ok link_write c h')).
Proof.
  intros cs h _ Hempty h'.
  assert (Ho : Forall owns (_outgoing_transfers h')).
  { apply (run_invariant (fun h => Forall owns (_outgoing_transfers h))).
    - intros c h0 H0. now apply exec_owns.
    - rewrite Hempty. constructor. }
  split; [exact Ho|]. split.
  - intros hd p. destruct (find_if_tr_owned (outgoing_match hd p) _ Ho) as [x ->].
    discriminate.
  - intros c. split; [now apply exec_owns|].
    pose proof (exec_outgoing c h') as H.
    destruct (exec fragment_ok link_write c h') as [[h'' ev]|what [h'' ev]| | |];
      cbn; auto.
Qed.

End run_facts.

(** ** Acknowledgements *)

Lemma count_metadata_app m l1 l2 :
  count_metadata m (l1 ++ l2) = (count_metadata m l1 + count_metadata m l2)%nat.
Proof. apply count_occ_app. Qed.

Lemma metadata_of_app l1 l2 :
  metadata_of (l1 ++ l2) = metadata_of l1 ++ metadata_of l2.
Proof. apply flat_map_app. Qed.

Lemma metadata_of_cons_same r r' l :
  tr r' = tr r -> metadata_of (r' :: l) = metadata_of (r :: l).
Proof. intros H. unfold metadata_of. cbn [flat_map]. now rewrite H. Qed.

Lemma metadata_of_owner r w l :
  tr r = Some w -> metadata_of (r :: l) = get_metadata w :: metadata_of l.
Proof. intros H. unfold metadata_of. cbn [flat_map]. now rewrite H. Qed.

Lemma count_metadata_cons m x l :
  count_metadata m (x :: l)
  = ((if metadata_eq_dec x m then 1 else 0) + count_metadata m l)%nat.
Proof. unfold count_metadata. cbn [count_occ]. now destruct (metadata_eq_dec x m). Qed.

Lemma count_metadata_thinned m l l' :
  thinned same_tr l l' ->
  (count_metadata m (metadata_of l') <= count_metadata m (metadata_of l))%nat.
Proof.
  induction 1 as [|r l l' _ IH|r r' l l' Htr _ IH]; [apply le_n| |].
  - change (r :: l) with ([r] ++ l). rewrite metadata_of_app, count_metadata_app. lia.
  - rewrite (metadata_of_cons_same r r' l' Htr).
    change (r :: l') with ([r] ++ l'). change (r :: l) with ([r] ++ l).
    rewrite !metadata_of_app, !count_metadata_app. lia.
Qed.

Lemma acks_of_fragments ev :
  Forall (fun e => is_emission headers.FRAGMENT e = true) ev -> acks_of ev = [].
Proof.
  induction 1 as [|e ev He _ IH]; [reflexivity|].
  destruct e; cbn in He |- *; try discriminate. exact IH.
Qed.

Section acknowledgements.

Variable fragment_ok : fragment -> bool.
Variable link_write : status -> fragment -> status.

(** What a call may add to the acknowledged metadata it takes from the
    outgoing table; only [transmit] adds to the table. *)
Lemma exec_acks c h m :
  when_back
    (fun x =>
       (count_metadata m (acks_of (snd x))
        + count_metadata m (metadata_of (_outgoing_transfers (fst x)))
        <= count_metadata m (metadata_of (_outgoing_transfers h))
           + count_metadata m
               (match c with
                | call_transmit _ t => [get_metadata t]
                | _ => []
                end))%nat)
    (exec fragment_ok link_write c h).
Proof.
  destruct c as [now p|now t|now|st]; cbn [exec].
  - pose proof (receive_callback_effect fragment_ok link_write now p h) as H.
    destruct (receive_callback _ _ _ _ _) as [[h' ev]| | | |];
      try contradiction; cbn [when_back fst snd]; auto.
    destruct H; cbn [set_incoming set_outgoing set_status _outgoing_transfers
                       acks_of flat_map app count_metadata count_occ];
      fold (count_metadata m); try lia.
    + rewrite H, !metadata_of_app, !count_metadata_app.
      rewrite (metadata_of_cons_same it (retransmit_done now it) after eq_refl).
      lia.
    + rewrite H, !metadata_of_app, !count_metadata_app.
      rewrite (metadata_of_owner it w after H0), !count_metadata_cons.
      cbn. lia.
  - pose proof (transmit_spec link_write now t h) as H.
    destruct (transmit _ _ _ _) as [[h' ev]|what [h' ev]| | |];
      try contradiction; cbn [when_back fst snd];
      destruct H as ((tp & st & -> & Htp & _) & Hev & _);
      rewrite (acks_of_fragments ev Hev);
      cbn [set_status set_outgoing _outgoing_transfers];
      rewrite metadata_of_app, count_metadata_app;
      rewrite (metadata_of_owner tp t [] Htp); cbn; lia.
  - pose proof (main_task_spec link_write now h) as H.
    destruct (main_task _ _ _) as [[h' ev]| | | |]; try contradiction;
      cbn [when_back fst snd]; auto.
    destruct H as (_ & _ & ev1 & ev2 & -> & Hev1 & Hp).
    rewrite (main_task_no_acks ev1 ev2 _ _ _ _ Hev1 Hp).
    pose proof (count_metadata_thinned m _ _
                  (thinned_same_tr_probed _ _ _ (probes_thinned _ _ _ _ _ Hp))).
    cbn. lia.
  - unfold interface_status_callback.
    cbn [when_back fst snd set_status _outgoing_transfers].
    change (count_metadata m (acks_of [])) with 0%nat.
    change (count_metadata m []) with 0%nat. lia.
Qed.

Lemma run_acks cs h m :
  let '(h', log) := run fragment_ok link_write cs h in
  (count_metadata m (acked log)
   + count_metadata m (metadata_of (_outgoing_transfers h'))
   <= count_metadata m (metadata_of (_outgoing_transfers h))
      + count_metadata m (map get_metadata (transmitted log)))%nat.
Proof.
  revert h. induction cs as [|c cs IH]; intros h; cbn [run].
  { cbn. lia. }
  pose proof (exec_acks c h m) as Hc.
  destruct (exec fragment_ok link_write c h) as [[h1 ev]|what [h1 ev]| | |];
    cbn [when_back fst snd] in Hc; try (cbn; lia);
    specialize (IH h1); destruct (run fragment_ok link_write cs h1) as [h' log];
    unfold acked, transmitted in *; cbn [flat_map fst snd];
    rewrite map_app, !count_metadata_app;
    (destruct c; cbn [map app] in *; lia).
Qed.

End acknowledgements.

(** ** The retransmission budget *)

Lemma cap_le h w :
  cap h w <= _fragments_count (max_fragment_size h) w * _retransmit_multiplier h.
Proof. unfold cap, uint. apply N.Div0.mod_le. Qed.

Lemma cap_same_config h h' w : same_config h h' -> cap h' w = cap h w.
Proof.
  intros (_ & _ & _ & Hm & Hr). unfold cap, max_fragment_size. now rewrite Hm, Hr.
Qed.

Lemma budgets_of_cons h sel r l :
  budgets_of h sel (r :: l)
  = match tr r with
    | Some w => if sel (transfer_key w) then budget h r + budgets_of h sel l
                else budgets_of h sel l
    | None => budgets_of h sel l
    end.
Proof. reflexivity. Qed.

Lemma budgets_of_app h sel l1 l2 :
  budgets_of h sel (l1 ++ l2) = budgets_of h sel l1 + budgets_of h sel l2.
Proof.
  induction l1 as [|r l1 IH]; [reflexivity|].
  cbn [app]. rewrite !budgets_of_cons, IH.
  destruct (tr r) as [w|]; [destruct (sel (transfer_key w))|]; lia.
Qed.

Lemma budgets_of_same_config h h' sel l :
  same_config h h' -> budgets_of h' sel l = budgets_of h sel l.
Proof.
  intros Hc. induction l as [|r l IH]; [reflexivity|].
  rewrite !budgets_of_cons, IH. unfold budget.
  destruct (tr r) as [w|]; [|reflexivity].
  now rewrite (cap_same_config h h' _ Hc).
Qed.

Lemma allowance_same_config h h' sel ts :
  same_config h h' -> allowance h' sel ts = allowance h sel ts.
Proof.
  intros (_ & _ & _ & Hm & Hr). induction ts as [|t ts IH]; [reflexivity|].
  cbn [allowance fold_right]. fold (allowance h' sel ts). fold (allowance h sel ts).
  unfold max_fragment_size. now rewrite IH, Hm, Hr.
Qed.

Lemma allowance_app h sel ts1 ts2 :
  allowance h sel (ts1 ++ ts2) = allowance h sel ts1 + allowance h sel ts2.
Proof.
  induction ts1 as [|t ts1 IH]; [reflexivity|].
  cbn [app allowance fold_right]. fold (allowance h sel (ts1 ++ ts2)).
  fold (allowance h sel ts1). rewrite IH. lia.
Qed.

Lemma fragments_of_cons sel e ev :
  fragments_of sel (e :: ev)
  = (if is_fragment_of sel e then 1 else 0) + fragments_of sel ev.
Proof.
  unfold fragments_of. cbn [filter].
  destruct (is_fragment_of sel e); cbn [length]; lia.
Qed.

Lemma fragments_of_app sel ev1 ev2 :
  fragments_of sel (ev1 ++ ev2) = fragments_of sel ev1 + fragments_of sel ev2.
Proof.
  unfold fragments_of. rewrite filter_app, length_app. lia.
Qed.

Lemma is_fragment_of_emission sel e :
  is_fragment_of sel e = true -> is_emission headers.FRAGMENT e = true.
Proof.
  destruct e as [f| |]; cbn [is_fragment_of]; try discriminate.
  intros H. apply andb_prop in H. apply H.
Qed.

Lemma fragments_of_incoming_events sel ev :
  incoming_events ev -> fragments_of sel ev = 0.
Proof.
  intros [Hf _]. unfold fragments_of.
  induction ev as [|e ev IH]; [reflexivity|].
  cbn [filter] in Hf |- *.
  destruct (is_fragment_of sel e) eqn:He.
  - apply is_fragment_of_emission in He. rewrite He in Hf. discriminate.
  - apply IH. destruct (is_emission headers.FRAGMENT e); [discriminate | exact Hf].
Qed.

(** The fragments of one transfer: those of the selection, if the transfer
    is selected. *)
Lemma fragments_of_transfer h sel w ev :
  Forall (fun e => exists f pos,
              e = transmit_event f
              /\ serialize_fragment h headers.FRAGMENT pos w = Value f) ev ->
  fragments_of sel ev
  = if sel (transfer_key w) then N.of_nat (length ev) else 0.
Proof.
  induction 1 as [|e ev (f & pos & -> & Hf) _ IH].
  - now destruct (sel (transfer_key w)).
  - rewrite fragments_of_cons, IH. cbn [is_fragment_of length].
    rewrite (serialize_fragment_value _ _ _ _ _ Hf),
      (serialize_fragment_key _ _ _ _ _ Hf).
    change (headers.FRAGMENT mod 256 =? headers.FRAGMENT) with true. cbn [andb].
    destruct (sel (transfer_key w)); lia.
Qed.

(** What the second loop emits for the selected transfers is paid from
    their budgets. *)
Lemma probes_budgets_of now h sel l l' ev :
  probes now h l l' ev ->
  fragments_of sel ev + budgets_of h sel l' <= budgets_of h sel l.
Proof.
  induction 1 as [|r l l' ev _ IH|r l l' ev _ IH|r w f l l' ev Hw Hlt Hf _ IH].
  - cbn. lia.
  - rewrite budgets_of_cons.
    destruct (tr r) as [w|]; [destruct (sel (transfer_key w))|]; lia.
  - rewrite !budgets_of_cons.
    destruct (tr r) as [w|]; [destruct (sel (transfer_key w))|]; lia.
  - rewrite budgets_of_cons in *. cbn [tr retransmit_done] in IH.
    rewrite Hw in *. rewrite fragments_of_cons. cbn [is_fragment_of].
    rewrite (serialize_fragment_value _ _ _ _ _ Hf),
      (serialize_fragment_key _ _ _ _ _ Hf).
    change (headers.FRAGMENT mod 256 =? headers.FRAGMENT) with true. cbn [andb].
    destruct (retransmit_done_below_cap now h r w Hw Hlt) as [_ Hb].
    destruct (sel (transfer_key w)); lia.
Qed.

Section budget_facts.

Variable fragment_ok : fragment -> bool.
Variable link_write : status -> fragment -> status.

Lemma exec_same_config c h :
  when_back (fun x => same_config h (fst x)) (exec fragment_ok link_write c h).
Proof.
  destruct c as [now p|now t|now|st]; cbn [exec].
  - pose proof (receive_callback_effect fragment_ok link_write now p h) as H.
    destruct (receive_callback _ _ _ _ _) as [[h' ev]| | | |];
      try contradiction; cbn [when_back fst]; auto.
    destruct H; repeat split.
  - pose proof (transmit_spec link_write now t h) as H.
    destruct (transmit _ _ _ _) as [[h' ev]|what [h' ev]| | |];
      try contradiction; cbn [when_back fst];
      destruct H as ((tp & st & -> & _) & _); repeat split.
  - pose proof (main_task_spec link_write now h) as H.
    destruct (main_task _ _ _) as [[h' ev]| | | |]; try contradiction;
      cbn [when_back fst]; auto.
    apply H.
  - cbn. repeat split.
Qed.

Lemma within_same_config total h h' k :
  same_config h h' ->
  Forall (fits h total k) (_outgoing_transfers h') -> within total h' k.
Proof.
  intros Hc. unfold within. apply Forall_impl.
  intros r (w & Hw & Hr & Ht). exists w.
  rewrite (cap_same_config h h' w Hc).
  destruct Hc as (_ & _ & _ & Hm & Hmul). unfold max_fragment_size in *.
  rewrite Hm, Hmul. auto.
Qed.

Lemma fits_mono h total k r : fits h total k r -> fits h total (k + 1) r.
Proof. intros (w & Hw & Hr & Ht). exists w. repeat split; auto. lia. Qed.

Lemma fits_request now h total k r :
  fits h total k r -> k < total ->
  fits h total (k + 1) (retransmit_done now r)
  /\ budget h (retransmit_done now r) <= budget h r.
Proof.
  intros (w & Hw & Hr & Ht) Hk. pose proof (cap_le h w) as Hcap.
  assert (Hu : uint (retransmitions r + 1) = retransmitions r + 1).
  { unfold uint. apply N.mod_small. lia. }
  split.
  - exists w. cbn [retransmit_done tr retransmitions]. rewrite Hu.
    repeat split; auto. lia.
  - unfold budget. cbn [retransmit_done tr retransmitions]. rewrite Hw, Hu. lia.
Qed.

Lemma fits_probed h total k r r' :
  probed h r r' -> fits h total k r -> fits h total (k + 1) r'.
Proof.
  intros [Htr Hre] (w & Hw & Hr & Ht). exists w. rewrite Htr.
  repeat split; auto.
  destruct Hre as [->|(w' & Hw' & Hlt)]; [lia|].
  rewrite Hw in Hw'. injection Hw' as <-. lia.
Qed.

(** One call: the invariant moves on by one step, and the [FRAGMENT]s
    that [transmit] and [main_task] emit for the selected transfers are
    paid from the budgets of these transfers in the outgoing table, to
    which [transmit] adds the allowance of its transfer. *)
Lemma exec_budget sel c h total k :
  within total h k -> k < total ->
  (forall now t, c = call_transmit now t ->
     _fragments_count (max_fragment_size h) t * _retransmit_multiplier h + total
     < 2 ^ 32) ->
  when_back
    (fun x =>
       within total (fst x) (k + 1)
       /\ unasked_fragments sel [(c, snd x)]
          + budgets_of h sel (_outgoing_transfers (fst x))
          <= budgets_of h sel (_outgoing_transfers h)
             + allowance h sel (transmitted [(c, snd x)]))
    (exec fragment_ok link_write c h).
Proof.
  intros Hin Hk Hroom.
  pose proof (exec_same_config c h) as Hcfg.
  assert (Hmono : Forall (fits h total (k + 1)) (_outgoing_transfers h)).
  { revert Hin. unfold within. apply Forall_impl. intros r. apply fits_mono. }
  unfold within in Hin.
  destruct c as [now p|now t|now|st]; cbn [exec] in *.
  - pose proof (receive_callback_effect fragment_ok link_write now p h) as H.
    destruct (receive_callback _ _ _ _ _) as [[h' ev]| | | |];
      try contradiction; cbn [when_back fst snd] in *; auto.
    split.
    + apply (within_same_config total h h' (k + 1) Hcfg).
      destruct H; cbn [set_incoming set_outgoing set_status _outgoing_transfers];
        try exact Hmono.
      * rewrite H in Hmono, Hin. apply Forall_app in Hmono.
        destruct Hmono as [Hb Ha]. inversion Ha as [|? ? _ Hafter]; subst.
        apply Forall_app in Hin. destruct Hin as [_ Hin].
        inversion Hin as [|? ? Hit _]; subst.
        apply Forall_app. split; [assumption|]. constructor; [|assumption].
        now apply fits_request.
      * rewrite H in Hmono. apply Forall_app in Hmono.
        destruct Hmono as [Hb Ha]. inversion Ha; subst.
        apply Forall_app. split; assumption.
    + cbn [unasked_fragments transmitted fold_right flat_map fst snd app allowance].
      destruct H; cbn [set_incoming set_outgoing set_status _outgoing_transfers];
        try lia.
      * rewrite H, !budgets_of_app, !budgets_of_cons.
        cbn [tr retransmit_done]. rewrite H0.
        rewrite H in Hin. apply Forall_app in Hin. destruct Hin as [_ Hin].
        inversion Hin as [|? ? Hit _]; subst.
        destruct (fits_request now h total k it Hit Hk) as [_ Hle].
        destruct (sel (transfer_key w)); lia.
      * rewrite H, !budgets_of_app, !budgets_of_cons. rewrite H0.
        destruct (sel (transfer_key w)); lia.
  - pose proof (transmit_spec link_write now t h) as H.
    specialize (Hroom now t eq_refl). pose proof (cap_le h t) as Hcap.
    assert (Hgoal : forall h' ev,
      ((exists tp st,
           h' = set_status st (set_outgoing (_outgoing_transfers h ++ [tp]) h)
           /\ tr tp = Some t /\ retransmitions tp = 0)
       /\ Forall (fun e => is_emission headers.FRAGMENT e = true) ev
       /\ N.of_nat (length ev) <= _fragments_count (max_fragment_size h) t
       /\ Forall (fun e => exists f pos,
                      e = transmit_event f
                      /\ serialize_fragment h headers.FRAGMENT pos t = Value f) ev) ->
      same_config h h' ->
      within total h' (k + 1)
      /\ unasked_fragments sel [(call_transmit now t, ev)]
         + budgets_of h sel (_outgoing_transfers h')
         <= budgets_of h sel (_outgoing_transfers h)
            + allowance h sel (transmitted [(call_transmit now t, ev)])).
    { intros h' ev ((tp & st & -> & Htp & Hre) & Hev & Hlen & Hser) Hc. split.
      - apply (within_same_config total h _ (k + 1) Hc).
        cbn [set_status set_outgoing _outgoing_transfers].
        apply Forall_app. split; [exact Hmono|].
        constructor; [|constructor]. exists t. rewrite Hre.
        repeat split; auto. lia.
      - cbn [unasked_fragments transmitted fold_right flat_map fst snd app allowance
               set_status set_outgoing _outgoing_transfers].
        rewrite budgets_of_app, budgets_of_cons, Htp.
        rewrite (fragments_of_transfer h sel t ev Hser).
        unfold budget. rewrite Htp, Hre. cbn [budgets_of fold_right].
        destruct (sel (transfer_key t)); lia. }
    destruct (transmit _ _ _ _) as [[h' ev]|what [h' ev]| | |];
      try contradiction; cbn [when_back fst snd] in *; now apply Hgoal.
  - pose proof (main_task_spec link_write now h) as H.
    destruct (main_task _ _ _) as [[h' ev]| | | |]; try contradiction;
      cbn [when_back fst snd] in *; auto.
    destruct H as (_ & _ & ev1 & ev2 & -> & Hev1 & Hp). split.
    + apply (within_same_config total h h' (k + 1) Hcfg).
      pose proof (probes_thinned _ _ _ _ _ Hp) as Ht.
      revert Hin. clear - Ht.
      induction Ht as [|r l l' _ IH|r r' l l' Hpr _ IH]; intros HF.
      * constructor.
      * inversion HF; subst. auto.
      * inversion HF; subst. constructor; [|auto].
        eapply fits_probed; eassumption.
    + cbn [unasked_fragments transmitted fold_right flat_map fst snd app allowance].
      rewrite fragments_of_app, (fragments_of_incoming_events sel ev1 Hev1).
      pose proof (probes_budgets_of now h sel _ _ _ Hp). lia.
  - cbn [when_back fst snd]. unfold interface_status_callback in *. split.
    + apply (within_same_config total h _ (k + 1) Hcfg). exact Hmono.
    + cbn [unasked_fragments transmitted fold_right flat_map fst snd app allowance
             set_status _outgoing_transfers]. lia.
Qed.

Lemma unasked_fragments_cons sel x log :
  unasked_fragments sel (x :: log)
  = unasked_fragments sel [x] + unasked_fragments sel log.
Proof.
  cbn [unasked_fragments fold_right]. fold (unasked_fragments sel log).
  destruct (fst x); lia.
Qed.

Lemma transmitted_cons x log : transmitted (x :: log) = transmitted [x] ++ transmitted log.
Proof. unfold transmitted. cbn [flat_map]. now rewrite app_nil_r. Qed.

Lemma run_budget sel cs h total k :
  within total h k ->
  k + N.of_nat (length cs) <= total ->
  (forall now t, In (call_transmit now t) cs ->
     _fragments_count (max_fragment_size h) t * _retransmit_multiplier h + total
     < 2 ^ 32) ->
  let '(h', log) := run fragment_ok link_write cs h in
  unasked_fragments sel log + budgets_of h sel (_outgoing_transfers h')
  <= budgets_of h sel (_outgoing_transfers h) + allowance h sel (transmitted log).
Proof.
  revert h k. induction cs as [|c cs IH]; intros h k Hin Hk Hroom; cbn [run].
  { cbn. lia. }
  cbn [length] in Hk. rewrite Nat2N.inj_succ in Hk.
  pose proof (exec_budget sel c h total k Hin ltac:(lia)) as Hc.
  specialize (Hc ltac:(intros now t ->; apply (Hroom now t); left; reflexivity)).
  pose proof (exec_same_config c h) as Hcfg.
  assert (Hgoal : forall h1 ev,
    same_config h h1 ->
    within total h1 (k + 1)
    /\ unasked_fragments sel [(c, ev)] + budgets_of h sel (_outgoing_transfers h1)
       <= budgets_of h sel (_outgoing_transfers h)
          + allowance h sel (transmitted [(c, ev)]) ->
    let '(h', log) :=
      let '(h'', log) := run fragment_ok link_write cs h1 in (h'', (c, ev) :: log) in
    unasked_fragments sel log + budgets_of h sel (_outgoing_transfers h')
    <= budgets_of h sel (_outgoing_transfers h) + allowance h sel (transmitted log)).
  { intros h1 ev Hsame [Hin1 Hstep].
    specialize (IH h1 (k + 1) Hin1 ltac:(lia)).
    assert (Hroom1 : forall now t, In (call_transmit now t) cs ->
      _fragments_count (max_fragment_size h1) t * _retransmit_multiplier h1 + total
      < 2 ^ 32).
    { intros now t Ht. destruct Hsame as (_ & _ & _ & Hm & Hmul).
      unfold max_fragment_size. rewrite Hm, Hmul.
      apply (Hroom now t). right. exact Ht. }
    specialize (IH Hroom1).
    destruct (run fragment_ok link_write cs h1) as [h' log].
    rewrite !(budgets_of_same_config h h1 _ _ Hsame) in IH.
    rewrite (allowance_same_config h h1 _ _ Hsame) in IH.
    rewrite unasked_fragments_cons, transmitted_cons, allowance_app. lia. }
  destruct (exec fragment_ok link_write c h) as [[h1 ev]|what [h1 ev]| | |];
    cbn [when_back fst snd] in *;
    try (cbn [unasked_fragments transmitted fold_right flat_map allowance]; lia);
    now apply Hgoal.
Qed.

Lemma counters_fit_room h cs :
  counters_fit h cs = true ->
  forall now t, In (call_transmit now t) cs ->
    _fragments_count (max_fragment_size h) t * _retransmit_multiplier h
    + N.of_nat (length cs) < 2 ^ 32.
Proof.
  unfold counters_fit. rewrite forallb_forall. intros H now t Hin.
  specialize (H _ Hin). cbn in H. now apply N.ltb_lt.
Qed.

(** C2, amended.  As long as the 32-bit retransmission counters cannot
    wrap, the [FRAGMENT]s that a handler with a nonzero
    [max_fragment_size] emits of its own accord for any selection of
    transfers, in the bursts of [transmit] and in the retransmissions of
    [main_task], in a run that begins with an empty outgoing table, are at
    most [N + N * retransmit_multiplier] summed over the selected transfers
    handed to [transmit]; a transfer is selected by the id and the
    destination its fragments carry.  The [FRAGMENT]s sent in answer to a
    [FRAGMENT_REQ] are not part of the bound: a request that matches an
    outgoing record and asks for a fragment that begins within the data of
    its transfer is answered with that [FRAGMENT] whenever
    [can_transmit()] holds, whatever the counter of the record, which the
    answer moves up by one. *)
Theorem unasked_fragments_within_allowance :
  (forall sel cs h,
      max_fragment_size h <> 0 ->
      _outgoing_transfers h = [] ->
      counters_fit h cs = true ->
      let '(_, log) := run fragment_ok link_write cs h in
      unasked_fragments sel log <= allowance h sel (transmitted log))
  /\ (forall now p h before it w after,
        max_fragment_size h <> 0 ->
        fragment_ok p = true ->
        (headers.sizeof <= length (f_data p))%nat ->
        let hd := headers.byte_copy (f_data p) in
        headers.is_valid hd = true ->
        headers.type hd = headers.FRAGMENT_REQ ->
        can_transmit h = true ->
        find_if_tr (outgoing_match hd (shrink_header p)) (_outgoing_transfers h)
        = Returns (Some (before, (it, w), after)) ->
        (headers.fragment hd - 1) * max_fragment_size h <= data_size w ->
        exists f,
          serialize_fragment h headers.FRAGMENT (headers.fragment hd) w = Value f
          /\ is_fragment_of (same_key (transfer_key w)) (transmit_event f) = true
          /\ receive_callback fragment_ok link_write now p h
             = Returns
                 (set_status (link_write (_interface_status h) f)
                    (set_outgoing
                       (before
                        ++ mk_progress (Some w) now (uint (retransmitions it + 1)) (id it)
                        :: after) h),
                  [transmit_event f])).
Proof.
  split.
  - intros sel cs h _ Hempty Hfit.
    pose proof (run_budget sel cs h (N.of_nat (length cs)) 0) as H.
    unfold within in H. rewrite Hempty in H.
    specialize (H ltac:(constructor) ltac:(lia) (counters_fit_room h cs Hfit)).
    destruct (run fragment_ok link_write cs h) as [h' log].
    cbn [budgets_of fold_right] in H. lia.
  - intros now p h before it w after _ Hok Hsize hd Hvalid Hty Hcan Hfind Hle.
    assert (Hpos : headers.fragment hd <> 0).
    { intros E. unfold headers.is_valid in Hvalid. rewrite E in Hvalid.
      rewrite !andb_false_r in Hvalid. discriminate. }
    destruct (serialize_fragment h headers.FRAGMENT (headers.fragment hd) w)
      as [f|what] eqn:Hf.
    2:{ exfalso.
        assert (Hr : exists what', serialize_fragment h headers.FRAGMENT
                                     (headers.fragment hd) w = Raise what') by eauto.
        unfold serialize_fragment in Hr.
        destruct (_get_fragment (max_fragment_size h) w (headers.fragment hd))
          as [q|what'] eqn:Hg; [destruct Hr as [? [=]]|].
        assert (Hg' : exists x, _get_fragment (max_fragment_size h) w
                                  (headers.fragment hd) = Raise x) by eauto.
        apply _get_fragment_raises in Hg'. lia. }
    exists f. split; [reflexivity|]. split.
    + cbn [is_fragment_of].
      rewrite (serialize_fragment_value _ _ _ _ _ Hf),
        (serialize_fragment_key _ _ _ _ _ Hf).
      unfold same_key. now rewrite !N.eqb_refl.
    + unfold receive_callback. rewrite Hok.
      apply Nat.leb_le in Hsize. rewrite Hsize. cbn [andb].
      fold hd. rewrite Hvalid. unfold handle_fragment.
      rewrite Hty, Hfind, Hcan, Hf.
      apply find_if_tr_split in Hfind. destruct Hfind as (_ & Hw & _ & _).
      unfold retransmit_done. rewrite Hw. reflexivity.
Qed.

End budget_facts.

(** ** The number of fragments of a stored transfer *)

Lemma complete_data_size l :
  forallb (fun b => negb (is_empty b)) l = true ->
  (length l <= length (concat l))%nat.
Proof.
  induction l as [|b l IH]; cbn [forallb concat length]; [lia|].
  intros H. apply andb_prop in H. destruct H as [Hb Hl].
  rewrite length_app. specialize (IH Hl).
  destruct b; [discriminate|]. cbn [length]. lia.
Qed.

Lemma _fragments_count_complete m w :
  m <> 0 -> _is_complete w = true -> _fragments_count m w = ceil_div (data_size w) m.
Proof.
  intros Hm Hc. unfold _fragments_count, ceil_div. rewrite Hc. now apply ceil_count.
Qed.

Lemma _fragments_count_pos m w :
  m <> 0 -> _data w <> [] -> 1 <= _fragments_count m w.
Proof.
  intros Hm Hd. destruct (_is_complete w) eqn:Hc.
  - rewrite (_fragments_count_complete m w Hm Hc). unfold ceil_div.
    apply N.div_le_lower_bound; [assumption|].
    pose proof (complete_data_size (_data w) Hc) as Hlen.
    unfold data_size. destruct (_data w); [congruence|]. cbn [length] in Hlen. lia.
  - unfold _fragments_count. rewrite Hc. destruct (_data w); [congruence|].
    cbn [length]. lia.
Qed.

Lemma length_set_slot i x l : length (set_slot i x l) = length l.
Proof.
  revert i. induction l as [|y l IH]; intros [|i]; cbn [set_slot length];
    try reflexivity. now rewrite IH.
Qed.

Lemma _assign_slots now i p t : length (_data (_assign now i p t)) = length (_data t).
Proof.
  unfold _assign. cbn [_data]. destruct (_ && _); [apply length_set_slot | reflexivity].
Qed.

Lemma transfer_new_slots now iid hd :
  length (_data (transfer_new now iid hd)) = N.to_nat (headers.fragments_total hd).
Proof. unfold transfer_new. cbn [_data]. apply repeat_length. Qed.

Lemma is_valid_total hd : headers.is_valid hd = true -> 1 <= headers.fragments_total hd.
Proof.
  unfold headers.is_valid. intros H. apply andb_prop in H. destruct H as [_ H].
  now apply N.leb_le.
Qed.

Lemma has_slots_length w : (0 < length (_data w))%nat -> has_slots w.
Proof. unfold has_slots. destruct (_data w); cbn; [lia | discriminate]. Qed.

Lemma has_slots_assign now i p w : has_slots w -> has_slots (_assign now i p w).
Proof.
  intros H. apply has_slots_length. rewrite _assign_slots.
  unfold has_slots in H. destruct (_data w); [congruence | cbn; lia].
Qed.

Lemma transfers_of_app l1 l2 : transfers_of (l1 ++ l2) = transfers_of l1 ++ transfers_of l2.
Proof. apply flat_map_app. Qed.

Lemma transfers_of_thinned (P : transfer -> Prop) R l l' :
  (forall r r', R r r' -> same_or_released r r') ->
  thinned R l l' -> Forall P (transfers_of l) -> Forall P (transfers_of l').
Proof.
  intros HR Ht. induction Ht as [|r l l' _ IH|r r' l l' Hr _ IH]; intros HF.
  - constructor.
  - apply IH. change (r :: l) with ([r] ++ l) in HF.
    rewrite transfers_of_app in HF. now apply Forall_app in HF.
  - change (r :: l) with ([r] ++ l) in HF. change (r' :: l') with ([r'] ++ l').
    rewrite transfers_of_app in *. apply Forall_app in HF. destruct HF as [H1 H2].
    apply Forall_app. split; [|auto].
    unfold transfers_of in *. cbn [flat_map] in *.
    destruct (HR r r' Hr) as [-> | ->]; [assumption | constructor].
Qed.

Lemma transfers_of_owner r w l :
  tr r = Some w -> transfers_of (r :: l) = w :: transfers_of l.
Proof. intros H. unfold transfers_of. cbn [flat_map]. now rewrite H. Qed.

Lemma transfers_of_cons_same r r' l :
  tr r' = tr r -> transfers_of (r' :: l) = transfers_of (r :: l).
Proof. intros H. unfold transfers_of. cbn [flat_map]. now rewrite H. Qed.

Section count_facts.

Variable fragment_ok : fragment -> bool.
Variable link_write : status -> fragment -> status.

Lemma run_invariant_on (Q : call -> Prop) (I : fragmentation_handler -> Prop) :
  (forall c h, Q c -> I h ->
               when_back (fun x => I (fst x)) (exec fragment_ok link_write c h)) ->
  forall cs h, Forall Q cs -> I h -> I (fst (run fragment_ok link_write cs h)).
Proof.
  intros Hstep cs. induction cs as [|c cs IH]; intros h HQ Hh; [exact Hh|].
  inversion HQ as [|? ? Hc Hcs]; subst.
  cbn [run]. specialize (Hstep c h Hc Hh).
  destruct (exec fragment_ok link_write c h) as [[h' ev]|what [h' ev]| | |];
    cbn in *; try exact Hh;
    specialize (IH h' Hcs Hstep); destruct (run fragment_ok link_write cs h');
    exact IH.
Qed.

Lemma exec_has_slots c h :
  transmit_has_slots c ->
  Forall has_slots (stored h) ->
  when_back (fun x => Forall has_slots (stored (fst x)))
    (exec fragment_ok link_write c h).
Proof.
  intros Hc Hs. unfold stored in *. apply Forall_app in Hs. destruct Hs as [Hi Ho].
  destruct c as [now p|now t|now|st]; cbn [exec].
  - pose proof (receive_callback_effect fragment_ok link_write now p h) as H.
    destruct (receive_callback _ _ _ _ _) as [[h' ev]| | | |];
      try contradiction; cbn [when_back fst]; auto.
    destruct H;
      cbn [set_incoming set_outgoing set_status _incoming_transfers
             _outgoing_transfers];
      apply Forall_app; split; try assumption.
    + rewrite transfers_of_app. apply Forall_app. split; [assumption|].
      constructor; [|constructor]. apply has_slots_length.
      rewrite _assign_slots, transfer_new_slots.
      pose proof (is_valid_total hd H). lia.
    + rewrite H in Hi. rewrite transfers_of_app in *.
      apply Forall_app in Hi. destruct Hi as [Hb Ha].
      rewrite (transfers_of_owner it w after H0) in Ha.
      inversion Ha; subst.
      apply Forall_app. split; [assumption|].
      rewrite (transfers_of_owner (with_tr _ it) _ after eq_refl).
      constructor; [now apply has_slots_assign | assumption].
    + rewrite H in Ho. rewrite transfers_of_app in *.
      rewrite (transfers_of_cons_same it (retransmit_done now it) after eq_refl).
      assumption.
    + rewrite H in Ho. rewrite transfers_of_app in *.
      apply Forall_app in Ho. destruct Ho as [Hb Ha].
      rewrite (transfers_of_owner it w after H0) in Ha. inversion Ha; subst.
      apply Forall_app. split; assumption.
  - pose proof (transmit_spec link_write now t h) as H.
    destruct (transmit _ _ _ _) as [[h' ev]|what [h' ev]| | |];
      try contradiction; cbn [when_back fst];
      destruct H as ((tp & st & -> & Htp & _) & _);
      cbn [set_incoming set_outgoing set_status _incoming_transfers
             _outgoing_transfers];
      (apply Forall_app; split; [assumption|]);
      rewrite transfers_of_app; (apply Forall_app; split; [assumption|]);
      rewrite (transfers_of_owner tp t [] Htp); (constructor; [exact Hc | constructor]).
  - pose proof (main_task_spec link_write now h) as H.
    destruct (main_task _ _ _) as [[h' ev]| | | |]; try contradiction;
      cbn [when_back fst]; auto.
    destruct H as (_ & Hti & ev1 & ev2 & _ & _ & Hp). apply Forall_app. split.
    + eapply transfers_of_thinned; [|exact Hti|exact Hi]. auto.
    + eapply transfers_of_thinned; [|exact (probes_thinned _ _ _ _ _ Hp)|exact Ho].
      intros r r' [Htr _]. now left.
  - cbn. apply Forall_app. split; assumption.
Qed.

Lemma transmits_have_slots_Forall cs :
  transmits_have_slots cs = true -> Forall transmit_has_slots cs.
Proof.
  unfold transmits_have_slots. rewrite forallb_forall, Forall_forall.
  intros H c Hc. specialize (H c Hc). destruct c; cbn; auto.
  unfold has_slots. destruct (_data t); [discriminate | discriminate].
Qed.

(** C7, amended.  In a run from empty tables in which no transfer handed
    to [transmit] is without slots, and with a nonzero
    [max_fragment_size], every stored transfer has a fragment count of at
    least one, and the count of a transfer with no empty slot is the
    ceiling of its data size divided by [max_fragment_size]. *)
Theorem stored_transfers_have_fragments :
  forall cs h,
    _incoming_transfers h = [] ->
    _outgoing_transfers h = [] ->
    max_fragment_size h <> 0 ->
    transmits_have_slots cs = true ->
    let h' := fst (run fragment_ok link_write cs h) in
    Forall
      (fun w =>
         1 <= _fragments_count (max_fragment_size h') w
         /\ (_is_complete w = true ->
             _fragments_count (max_fragment_size h') w
             = ceil_div (data_size w) (max_fragment_size h')))
      (stored h').
Proof.
  intros cs h Hi Ho Hm Hcs h'.
  assert (Hinv : Forall has_slots (stored h') /\ same_config h h').
  { apply (run_invariant_on transmit_has_slots
             (fun h0 => Forall has_slots (stored h0) /\ same_config h h0)).
    - intros c h0 Hc [Hs Hcfg]. pose proof (exec_has_slots c h0 Hc Hs) as H1.
      pose proof (exec_same_config fragment_ok link_write c h0) as H2.
      destruct (exec fragment_ok link_write c h0) as [[h1 ev]|what [h1 ev]| | |];
        cbn [when_back fst] in *; auto;
        (split; [assumption|]);
        destruct Hcfg as (?&?&?&?&?); destruct H2 as (?&?&?&?&?);
        repeat split; congruence.
    - now apply transmits_have_slots_Forall.
    - split; [|apply same_config_refl]. unfold stored. rewrite Hi, Ho. constructor. }
  destruct Hinv as [Hs (_ & _ & _ & Hmfs & _)].
  assert (Hm' : max_fragment_size h' <> 0)
    by (unfold max_fragment_size in *; congruence).
  revert Hs. apply Forall_impl. intros w Hw. split.
  - now apply _fragments_count_pos.
  - intros Hc. now apply _fragments_count_complete.
Qed.

End count_facts.

(** ** What a pass examines *)

Lemma subsequence_tail {A : Type} (x : A) l e :
  subsequence (x :: l) e -> subsequence l e.
Proof.
  induction e as [|y e IH]; intros H; inversion H; subst.
  - apply subsequence_skip. auto.
  - now apply subsequence_skip.
Qed.

Lemma outcome_map_map {A B C : Type} (f : A -> B) (g : B -> C) (o : outcome A) :
  outcome_map g (outcome_map f o) = outcome_map (fun a => g (f a)) o.
Proof. now destruct o. Qed.

Lemma outcome_map_ext {A B : Type} (f g : A -> B) (o : outcome A) :
  (forall a, f a = g a) -> outcome_map f o = outcome_map g o.
Proof. intros H. destruct o; cbn; now rewrite ?H. Qed.

(** The list and the status a loop leaves do not depend on what its body
    yields as events. *)
Lemma outgoing_walk_relabel {E F : Type}
    (body : status -> transfer_progress -> outcome (step * list E * status))
    (g : transfer_progress -> list F) fuel st l :
  outcome_map (fun x => (fst (fst x), snd x))
    (outgoing_walk
       (fun st r => outcome_map (fun x => (fst (fst x), g r, snd x)) (body st r))
       fuel st l)
  = outcome_map (fun x => (fst (fst x), snd x)) (outgoing_walk body fuel st l).
Proof.
  revert st l. induction fuel as [|fuel IH]; intros st l; [reflexivity|].
  destruct l as [|r rest]; cbn [outgoing_walk]; [reflexivity|].
  destruct (body st r) as [[[[|r'|] ev] st']|what [[s ev] st']| | |];
    cbn [outcome_map fst snd]; try reflexivity.
  - specialize (IH st' rest).
    destruct (outgoing_walk _ fuel st' rest) as [[[l1 e1] s1]|w1 [[l1 e1] s1]| | |];
      destruct (outgoing_walk body fuel st' rest) as [[[l2 e2] s2]|w2 [[l2 e2] s2]| | |];
      cbn in *; congruence.
  - specialize (IH st' (r' :: rest)).
    destruct (outgoing_walk _ fuel st' (r' :: rest))
      as [[[l1 e1] s1]|w1 [[l1 e1] s1]| | |];
      destruct (outgoing_walk body fuel st' (r' :: rest))
        as [[[l2 e2] s2]|w2 [[l2 e2] s2]| | |];
      cbn in *; congruence.
  - specialize (IH st' rest).
    destruct (outgoing_walk _ fuel st' rest) as [[[l1 e1] s1]|w1 [[l1 e1] s1]| | |];
      destruct (outgoing_walk body fuel st' rest) as [[[l2 e2] s2]|w2 [[l2 e2] s2]| | |];
      cbn in *; congruence.
Qed.

Section examined_facts.

Variable link_write : status -> fragment -> status.

Lemma outgoing_examined_subsequence fuel now h st l e :
  outgoing_examined link_write fuel now h st l = Returns e -> subsequence l e.
Proof.
  unfold outgoing_examined. revert st l e.
  induction fuel as [|fuel IH]; intros st l e; [discriminate|].
  destruct l as [|r rest]; cbn [outgoing_walk]; [intros _; constructor|].
  destruct (outgoing_body link_write now h st r)
    as [[[[|r'|] ev] st']|what [[s ev] st']| | |];
    cbn [outcome_map fst snd]; try discriminate.
  - specialize (IH st' rest).
    destruct (outgoing_walk _ fuel st' rest) as [[[l1 e1] s1]| | | |];
      try discriminate.
    cbn. intros [= <-]. apply subsequence_take. now apply IH.
  - specialize (IH st' (r' :: rest)).
    destruct (outgoing_walk _ fuel st' (r' :: rest)) as [[[l1 e1] s1]| | | |];
      try discriminate.
    cbn. intros [= <-]. apply subsequence_take.
    apply subsequence_tail with (x := r'). now apply IH.
  - specialize (IH st' rest).
    destruct (outgoing_walk _ fuel st' rest) as [[[l1 e1] s1]| | | |];
      try discriminate.
    cbn. intros [= <-]. apply subsequence_take. now apply IH.
Qed.

Lemma outgoing_examined_returns now h st l :
  Forall owns l ->
  exists e, outgoing_examined link_write (outgoing_fuel h l) now h st l = Returns e.
Proof.
  intros Ho. unfold outgoing_examined.
  pose proof (outgoing_loop_spec link_write (outgoing_fuel h l) now h st l) as Hs.
  specialize (Hs ltac:(unfold outgoing_fuel; lia)).
  pose proof (outgoing_walk_relabel (outgoing_body link_write now h)
                (fun r => [r]) (outgoing_fuel h l) st l) as Hr.
  unfold outgoing_loop in Hs.
  destruct (outgoing_walk (outgoing_body link_write now h) _ st l)
    as [[[l2 e2] s2]| | | |]; try contradiction.
  destruct (outgoing_walk _ (outgoing_fuel h l) st l)
    as [[[l1 e1] s1]| | | |]; try discriminate.
  cbn. eauto.
Qed.

End examined_facts.

(** ** The fragments of a transfer *)

(** C5, amended.  [_get_fragment(i)] throws if and only if [i = 0] or
    [(i - 1) * max_fragment_size > data_size()]; for every other [i] it
    returns the fragment of the at most [max_fragment_size] bytes from the
    offset [(i - 1) * max_fragment_size] on, addressed to the destination
    of the transfer; the fragment is without data when the offset is the
    size of the data. *)
Theorem get_fragment_range :
  forall m t i,
    ((exists what, _get_fragment m t i = Raise what)
     <-> i = 0 \/ data_size t < (i - 1) * m)
    /\ (i <> 0 -> (i - 1) * m <= data_size t ->
        exists f,
          _get_fragment m t i = Value f
          /\ f_destination f = _destination t
          /\ f_data f = firstn (N.to_nat m)
                          (skipn (N.to_nat ((i - 1) * m)) (data_bytes t))
          /\ N.of_nat (length (f_data f)) <= m
          /\ ((i - 1) * m = data_size t -> f_data f = [])).
Proof.
  intros m t i. split; [apply _get_fragment_raises|].
  intros Hi Hle. unfold _get_fragment.
  destruct (N.eqb_spec i 0) as [?|_]; [contradiction|].
  destruct (N.ltb_spec (data_size t) ((i - 1) * m)) as [?|_]; [lia|].
  eexists. split; [reflexivity|]. cbn [fragment_to f_destination f_data].
  repeat split.
  - rewrite length_firstn. lia.
  - intros ->. unfold data_size, data_bytes. rewrite Nat2N.id, skipn_all.
    apply firstn_nil.
Qed.

(** ** Single calls *)

Section single_calls.

Variable fragment_ok : fragment -> bool.
Variable link_write : status -> fragment -> status.

(** C8, amended.  When the first record of the incoming table that the
    lookup matches is in grace, a [FRAGMENT] is answered, if
    [can_transmit()] holds, by a [FRAGMENT_ACK] that carries the fragment
    index, the total, the id and the previous id of the received header;
    the handler is left with the tables it had. *)
Theorem duplicate_fragment_reacknowledged :
  forall now p h before it after,
    fragment_ok p = true ->
    (headers.sizeof <= length (f_data p))%nat ->
    let hd := headers.byte_copy (f_data p) in
    headers.is_valid hd = true ->
    headers.type hd = headers.FRAGMENT ->
    find_if (incoming_match hd (shrink_header p)) (_incoming_transfers h)
    = Some (before, it, after) ->
    tr it = None ->
    can_transmit h = true ->
    let ack :=
      fragment_to (f_source p)
        (headers.to_bytes
           (headers.construct headers.FRAGMENT_ACK (headers.fragment hd)
              (headers.fragments_total hd) (headers.get_id hd)
              (headers.get_prev_id hd))) in
    id it = headers.get_id hd
    /\ headers.byte_copy (f_data ack)
       = headers.mk_header headers.FRAGMENT_ACK (headers.fragment hd)
           (headers.fragments_total hd) (headers.get_id hd) (headers.get_prev_id hd)
    /\ receive_callback fragment_ok link_write now p h
       = Returns (set_status (link_write (_interface_status h) ack) h,
                  [transmit_event ack]).
Proof.
  intros now p h before it after Hok Hsize hd Hvalid Hty Hfind Hgrace Hcan ack.
  pose proof (byte_copy_bounds (f_data p)) as (Hb1 & Hb2 & Hb3 & Hb4 & Hb5).
  fold hd in Hb1, Hb2, Hb3, Hb4, Hb5.
  repeat split.
  - apply find_if_split in Hfind. destruct Hfind as (_ & Hm & _).
    unfold incoming_match in Hm. rewrite Hgrace in Hm. now apply N.eqb_eq.
  - unfold ack, fragment_to. cbn [f_data].
    unfold headers.construct.
    rewrite (N.mod_small (headers.fragment hd)),
      (N.mod_small (headers.fragments_total hd)),
      (N.mod_small (headers.get_id hd)),
      (N.mod_small (headers.get_prev_id hd)) by assumption.
    change (headers.FRAGMENT_ACK mod 256) with headers.FRAGMENT_ACK.
    rewrite <- (app_nil_r (headers.to_bytes _)).
    apply byte_copy_to_bytes; cbn; try assumption. reflexivity.
  - unfold receive_callback. rewrite Hok.
    apply Nat.leb_le in Hsize. rewrite Hsize. cbn [andb].
    fold hd. rewrite Hvalid. unfold handle_fragment.
    rewrite Hty, N.eqb_refl, Hfind, Hgrace, Hcan. reflexivity.
Qed.

(** C6.  A [FRAGMENT_ACK] that matches an outgoing record makes
    [receive_callback] emit [transfer_ack_event] with the metadata of the
    first such record and erase that record in the same call; so, in any
    run, the events with a given metadata are at most as many as the
    records with that metadata that leave the outgoing table: those the
    run began with and those [transmit] added, less those that are still
    there. *)
Theorem transfer_acked_at_most_once :
  (forall now p h before it w after,
      fragment_ok p = true ->
      (headers.sizeof <= length (f_data p))%nat ->
      let hd := headers.byte_copy (f_data p) in
      headers.is_valid hd = true ->
      headers.type hd = headers.FRAGMENT_ACK ->
      find_if_tr (outgoing_match hd (shrink_header p)) (_outgoing_transfers h)
      = Returns (Some (before, (it, w), after)) ->
      receive_callback fragment_ok link_write now p h
      = Returns (set_outgoing (before ++ after) h,
                 [transfer_ack_event (get_metadata w)]))
  /\ (forall cs h m,
         max_fragment_size h <> 0 ->
         let '(h', log) := run fragment_ok link_write cs h in
         (count_metadata m (acked log)
          + count_metadata m (metadata_of (_outgoing_transfers h'))
          <= count_metadata m (metadata_of (_outgoing_transfers h))
             + count_metadata m (map get_metadata (transmitted log)))%nat).
Proof.
  split.
  - intros now p h before it w after Hok Hsize hd Hvalid Hty Hfind.
    unfold receive_callback. rewrite Hok.
    apply Nat.leb_le in Hsize. rewrite Hsize. cbn [andb].
    fold hd. rewrite Hvalid. unfold handle_fragment.
    rewrite Hty, Hfind. reflexivity.
  - intros cs h m _. apply run_acks.
Qed.

End single_calls.

(** ** How [receive_callback] ends *)

Section receive_ends.

Variable fragment_ok : fragment -> bool.
Variable link_write : status -> fragment -> status.

(** A fragment that is not usable, too short for a header or whose header
    is not valid is dropped. *)
Lemma receive_callback_drops now p h :
  fragment_ok p = false
  \/ (length (f_data p) < headers.sizeof)%nat
  \/ headers.is_valid (headers.byte_copy (f_data p)) = false ->
  receive_callback fragment_ok link_write now p h = Returns (h, []).
Proof.
  unfold receive_callback. intros [H|[H|H]].
  - now rewrite H.
  - apply Nat.leb_gt in H. rewrite H, andb_false_r. reflexivity.
  - rewrite H. now destruct (fragment_ok p && _).
Qed.

(** A request or an acknowledgement that matches no outgoing record is
    dropped. *)
Lemma receive_callback_unmatched now p h :
  headers.type (headers.byte_copy (f_data p)) <> headers.FRAGMENT ->
  find_if_tr (outgoing_match (headers.byte_copy (f_data p)) (shrink_header p))
    (_outgoing_transfers h) = Returns None ->
  receive_callback fragment_ok link_write now p h = Returns (h, []).
Proof.
  intros Hty Hfind. unfold receive_callback.
  destruct (fragment_ok p && _); [|reflexivity].
  destruct (headers.is_valid _); [|reflexivity].
  unfold handle_fragment. apply N.eqb_neq in Hty. now rewrite Hty, Hfind.
Qed.

Lemma serialize_fragment_raises h ty pos w :
  (exists what, serialize_fragment h ty pos w = Raise what)
  <-> pos = 0 \/ data_size w < (pos - 1) * max_fragment_size h.
Proof.
  rewrite <- _get_fragment_raises. unfold serialize_fragment.
  destruct (_get_fragment (max_fragment_size h) w pos) as [f|what].
  - split; intros [what' [=]].
  - split; eauto.
Qed.

(** [receive_callback] ends the program exactly on a valid
    [FRAGMENT_REQ] that matches an outgoing record, with a transmit slot
    free, for a fragment that begins beyond the data of the transfer. *)
Lemma receive_callback_terminates now p h :
  let hd := headers.byte_copy (f_data p) in
  receive_callback fragment_ok link_write now p h = Terminates
  <-> fragment_ok p = true
      /\ (headers.sizeof <= length (f_data p))%nat
      /\ headers.is_valid hd = true
      /\ headers.type hd = headers.FRAGMENT_REQ
      /\ can_transmit h = true
      /\ exists before it w after,
           find_if_tr (outgoing_match hd (shrink_header p)) (_outgoing_transfers h)
           = Returns (Some (before, (it, w), after))
           /\ data_size w < (headers.fragment hd - 1) * max_fragment_size h.
Proof.
  intros hd. unfold receive_callback. fold hd. split.
  - destruct (fragment_ok p) eqn:Hok; [|discriminate].
    destruct (Nat.leb_spec headers.sizeof (length (f_data p))) as [Hsize|Hsize];
      [|discriminate].
    cbn [andb]. destruct (headers.is_valid hd) eqn:Hvalid; [|discriminate].
    unfold handle_fragment.
    destruct (headers.type hd =? headers.FRAGMENT) eqn:Hfr.
    { destruct (find_if _ _) as [[[before it] after]|]; [|discriminate].
      destruct (tr it); [discriminate|]. destruct (can_transmit h); discriminate. }
    destruct (find_if_tr_back (outgoing_match hd (shrink_header p))
                (_outgoing_transfers h)) as [[x Hx]|Hx]; rewrite Hx; [|discriminate].
    destruct x as [[[before [it w]] after]|]; [|discriminate].
    destruct (N.eqb_spec (headers.type hd) headers.FRAGMENT_REQ) as [Hty|Hty].
    2:{ cbn [andb]. destruct (headers.type hd =? headers.FRAGMENT_ACK); discriminate. }
    destruct (can_transmit h) eqn:Hcan.
    2:{ cbn [andb]. destruct (headers.type hd =? headers.FRAGMENT_ACK); discriminate. }
    cbn [andb].
    destruct (serialize_fragment h headers.FRAGMENT (headers.fragment hd) w)
      as [f|what] eqn:Hf; [discriminate|].
    intros _. repeat split; auto. exists before, it, w, after. split; [reflexivity|].
    assert (Hr : exists what, serialize_fragment h headers.FRAGMENT
                                (headers.fragment hd) w = Raise what) by eauto.
    apply serialize_fragment_raises in Hr. destruct Hr as [Hr|Hr]; [|exact Hr].
    unfold headers.is_valid in Hvalid. rewrite Hr in Hvalid.
    rewrite !andb_false_r in Hvalid. discriminate.
  - intros (Hok & Hsize & Hvalid & Hty & Hcan & before & it & w & after & Hfind & Hlt).
    rewrite Hok. apply Nat.leb_le in Hsize. rewrite Hsize. cbn [andb].
    rewrite Hvalid. unfold handle_fragment. rewrite Hty, Hfind, Hcan.
    cbn [N.eqb Pos.eqb headers.FRAGMENT_REQ headers.FRAGMENT andb].
    assert (Hr : exists what, serialize_fragment h headers.FRAGMENT
                                (headers.fragment hd) w = Raise what).
    { apply serialize_fragment_raises. now right. }
    destruct Hr as [what ->]. reflexivity.
Qed.

End receive_ends.

(** ** Concrete inputs *)

(** C1.  [receive_callback] does not always come back: a valid
    [FRAGMENT_REQ] for a fragment index beyond the data of the matching
    outgoing transfer makes [_get_fragment] throw, and the exception ends
    the program at the [noexcept] boundary of [receive_callback]. *)
Theorem request_beyond_data_terminates :
  let h := idle_handler 5 4 1 in
  let t := outbound [payload [1; 2; 3]] in
  let req := wire 1 9 (headers.construct headers.FRAGMENT_REQ 3 3 7 6) [] in
  headers.is_valid (headers.byte_copy (f_data req)) = true
  /\ _fragments_count (max_fragment_size h) t = 1
  /\ exists h1 ev,
       transmit write_keeps_status 0%Z t h = Returns (h1, ev)
       /\ receive_callback any_fragment write_keeps_status 1%Z req h1 = Terminates.
Proof.
  cbv zeta. split; [reflexivity|]. split; [reflexivity|].
  eexists _, _. split; reflexivity.
Qed.

(** C5 as stated fails: at a payload of four bytes and a
    [max_fragment_size] of four, [(2 - 1) * 4 >= 4], and [_get_fragment(2)]
    throws nothing: it returns a fragment without data. *)
Lemma get_fragment_at_end_of_payload :
  let t := outbound [payload [1; 2; 3; 4]] in
  data_size t = 4
  /\ data_size t <= (2 - 1) * 4
  /\ _fragments_count 4 t = 1
  /\ _get_fragment 4 t 2 = Value (fragment_to (_destination t) []).
Proof. cbv zeta. repeat split; first [reflexivity | vm_compute; discriminate]. Qed.

(** C2 as stated fails: a transfer of one fragment with a multiplier of one
    is sent three times when the peer asks for it twice. *)
Lemma requested_fragments_exceed_allowance :
  let h := idle_handler 5 4 1 in
  let t := outbound [payload [1; 2; 3]] in
  let req := wire 1 9 (headers.construct headers.FRAGMENT_REQ 1 1 7 6) [] in
  let '(_, log) :=
    run any_fragment write_keeps_status
      [call_transmit 0%Z t; call_receive 1%Z req; call_receive 2%Z req] h in
  transmitted log = [t]
  /\ transfer_key t = (7, 1)
  /\ _fragments_count (max_fragment_size h) t = 1
  /\ _retransmit_multiplier h = 1
  /\ all_fragments (same_key (7, 1)) log = 3
  /\ ~ all_fragments (same_key (7, 1)) log <= 1 + 1 * 1.
Proof. vm_compute. repeat split; try reflexivity. intros H. apply H. reflexivity. Qed.

(** C3 as stated fails: the pass that erases an expired record in grace
    steps over the record behind it, a complete transfer that it neither
    examines nor erases; examined on its own the record is acknowledged. *)
Lemma record_after_erased_not_examined :
  let first := wire 1 9 (headers.construct headers.FRAGMENT 1 1 5 4) (payload [7]) in
  let second := wire 2 9 (headers.construct headers.FRAGMENT 1 1 6 5) (payload [1]) in
  let h :=
    fst (run any_fragment write_keeps_status
           [call_receive 0%Z first; call_main_task 1%Z; call_receive 600%Z second]
           (idle_handler 5 4 1)) in
  let r1 := mk_progress None 0%Z 0 5 in
  let r2 := mk_progress (Some (mk_transfer [payload [1]] 0 600%Z 600%Z 6 5 2 9)) 600%Z 0 6 in
  _incoming_transfers h = [r1; r2]
  /\ incoming_examined write_keeps_status 601%Z h (_interface_status h) [r1; r2] = [r1]
  /\ main_task write_keeps_status 601%Z h = Returns (set_incoming [r2] h, [])
  /\ events_of (main_task write_keeps_status 601%Z (set_incoming [r2] h)) <> [].
Proof. vm_compute. repeat split; try reflexivity. discriminate. Qed.

(** C7 as stated fails: [transmit] stores a transfer without data, whose
    fragment count is zero. *)
Lemma empty_transfer_stored_without_fragments :
  let h := idle_handler 5 4 1 in
  let t := outbound [] in
  exists h1,
    transmit write_keeps_status 0%Z t h = Returns (h1, [])
    /\ stored h1 = [t]
    /\ _fragments_count (max_fragment_size h1) t = 0.
Proof. cbv zeta. eexists. repeat split; reflexivity. Qed.

(** C8 as stated fails: with a record in grace for id 5 in the table, a
    [FRAGMENT] with id 5 that also matches a live transfer earlier in the
    table is assigned to that transfer and no [FRAGMENT_ACK] goes out. *)
Lemma fragment_beside_grace_record_is_assigned :
  let first := wire 1 9 (headers.construct headers.FRAGMENT 1 2 5 4) (payload [1; 2; 3; 4]) in
  let other := wire 2 9 (headers.construct headers.FRAGMENT 1 1 5 4) (payload [7]) in
  let second := wire 1 9 (headers.construct headers.FRAGMENT 2 2 5 4) (payload [5; 6]) in
  let h :=
    fst (run any_fragment write_keeps_status
           [call_receive 0%Z first; call_receive 0%Z other; call_main_task 1%Z]
           (idle_handler 5 4 1)) in
  In (mk_progress None 0%Z 0 (headers.get_id (headers.byte_copy (f_data second))))
     (_incoming_transfers h)
  /\ can_transmit h = true
  /\ exists h',
       receive_callback any_fragment write_keeps_status 2%Z second h = Returns (h', [])
       /\ transfers_of (_incoming_transfers h') <> transfers_of (_incoming_transfers h).
Proof.
  cbv zeta. split; [vm_compute; auto|]. split; [reflexivity|].
  eexists. split; [vm_compute; reflexivity|]. vm_compute. discriminate.
Qed.

(** ** The theorems at work on scenarios *)

(** With a multiplier of two a transfer of three fragments that is never
    acknowledged is sent nine times, beside another transfer; the last two
    passes find the budget spent.  And a request for the second fragment
    of a transfer whose record has spent its budget is answered. *)
Lemma unasked_fragments_within_allowance_witness :
  let h := idle_handler 5 4 2 in
  let t := outbound [payload [1; 2; 3; 4; 5; 6; 7; 8; 9; 10]] in
  let t' := mk_transfer [payload [1; 2]] 0 0%Z 0%Z 8 7 9 1 in
  let cs := [call_transmit 0%Z t; call_transmit 0%Z t'; call_main_task 11%Z;
             call_main_task 22%Z; call_main_task 33%Z; call_main_task 44%Z;
             call_main_task 55%Z; call_main_task 66%Z; call_main_task 77%Z;
             call_main_task 88%Z] in
  let it := mk_progress (Some t) 66%Z 6 7 in
  let h1 := set_outgoing [it] h in
  let p := wire 1 9 (headers.construct headers.FRAGMENT_REQ 2 3 7 6) [] in
  (max_fragment_size h <> 0
   /\ _outgoing_transfers h = []
   /\ counters_fit h cs = true
   /\ (let '(_, log) := run any_fragment write_keeps_status cs h in
       unasked_fragments (same_key (7, 1)) log
       <= allowance h (same_key (7, 1)) (transmitted log)))
  /\ (retransmitions it = cap h1 t
      /\ exists f,
           serialize_fragment h1 headers.FRAGMENT 2 t = Value f
           /\ is_fragment_of (same_key (transfer_key t)) (transmit_event f) = true
           /\ receive_callback any_fragment write_keeps_status 70%Z p h1
              = Returns
                  (set_status (write_keeps_status (_interface_status h1) f)
                     (set_outgoing ([] ++ mk_progress (Some t) 70%Z (uint (6 + 1)) 7 :: []) h1),
                   [transmit_event f])).
Proof.
  cbv zeta. split.
  - split; [discriminate|]. split; [reflexivity|].
    split; [vm_compute; reflexivity|].
    apply (proj1 (unasked_fragments_within_allowance any_fragment write_keeps_status));
      first [discriminate | vm_compute; reflexivity].
  - split; [reflexivity|].
    apply (proj2 (unasked_fragments_within_allowance any_fragment write_keeps_status)
             70%Z (wire 1 9 (headers.construct headers.FRAGMENT_REQ 2 3 7 6) [])
             (set_outgoing
                [mk_progress (Some (outbound [payload [1; 2; 3; 4; 5; 6; 7; 8; 9; 10]]))
                   66%Z 6 7] (idle_handler 5 4 2))
             [] (mk_progress (Some (outbound [payload [1; 2; 3; 4; 5; 6; 7; 8; 9; 10]]))
                   66%Z 6 7)
             (outbound [payload [1; 2; 3; 4; 5; 6; 7; 8; 9; 10]]) []);
      first [discriminate | reflexivity | vm_compute; reflexivity
            | vm_compute; discriminate].
Defined.

Example retransmit_budget_scenario :
  let h := idle_handler 5 4 2 in
  let t := outbound [payload [1; 2; 3; 4; 5; 6; 7; 8; 9; 10]] in
  let t' := mk_transfer [payload [1; 2]] 0 0%Z 0%Z 8 7 9 1 in
  let cs := [call_transmit 0%Z t; call_transmit 0%Z t'; call_main_task 11%Z;
             call_main_task 22%Z; call_main_task 33%Z; call_main_task 44%Z;
             call_main_task 55%Z; call_main_task 66%Z; call_main_task 77%Z;
             call_main_task 88%Z] in
  let '(_, log) := run any_fragment write_keeps_status cs h in
  unasked_fragments (same_key (7, 1)) log = 9
  /\ allowance h (same_key (7, 1)) (transmitted log) = 9
  /\ unasked_fragments (same_key (8, 1)) log = 3
  /\ allowance h (same_key (8, 1)) (transmitted log) = 3.
Proof. vm_compute. repeat split; reflexivity. Qed.

Lemma transfer_acked_at_most_once_witness :
  let t := outbound [payload [1; 2; 3]] in
  let it := mk_progress (Some t) 0%Z 0 7 in
  let h := set_outgoing [it] (idle_handler 5 4 1) in
  let ack := wire 1 9 (headers.construct headers.FRAGMENT_ACK 1 1 7 6) [] in
  receive_callback any_fragment write_keeps_status 1%Z ack h
  = Returns (set_outgoing ([] ++ []) h, [transfer_ack_event (get_metadata t)]).
Proof.
  cbv zeta.
  apply (proj1 (transfer_acked_at_most_once any_fragment write_keeps_status)
           1%Z _ _ [] (mk_progress (Some (outbound [payload [1; 2; 3]])) 0%Z 0 7)
           (outbound [payload [1; 2; 3]]) []);
    first [reflexivity | vm_compute; lia].
Defined.

Lemma stored_transfers_have_fragments_witness :
  let h := idle_handler 5 4 1 in
  let cs := [call_transmit 0%Z (outbound [payload [1; 2; 3; 4; 5]]);
             call_receive 1%Z
               (wire 1 9 (headers.construct headers.FRAGMENT 1 2 5 4) (payload [8]))] in
  _incoming_transfers h = [] /\ _outgoing_transfers h = []
  /\ max_fragment_size h <> 0
  /\ transmits_have_slots cs = true
  /\ Forall
       (fun w =>
          1 <= _fragments_count (max_fragment_size (fst (run any_fragment write_keeps_status cs h))) w
          /\ (_is_complete w = true ->
              _fragments_count (max_fragment_size (fst (run any_fragment write_keeps_status cs h))) w
              = ceil_div (data_size w)
                  (max_fragment_size (fst (run any_fragment write_keeps_status cs h)))))
       (stored (fst (run any_fragment write_keeps_status cs h))).
Proof.
  cbv zeta. split; [reflexivity|]. split; [reflexivity|].
  split; [discriminate|]. split; [reflexivity|].
  apply (stored_transfers_have_fragments any_fragment write_keeps_status);
    first [reflexivity | discriminate].
Defined.

Lemma duplicate_fragment_reacknowledged_witness :
  let it := mk_progress None 0%Z 0 5 in
  let h := set_incoming [it] (idle_handler 5 4 1) in
  let p := wire 1 9 (headers.construct headers.FRAGMENT 2 3 5 4) (payload [9]) in
  let ack := fragment_to 1 (headers.to_bytes (headers.construct headers.FRAGMENT_ACK 2 3 5 4)) in
  receive_callback any_fragment write_keeps_status 7%Z p h
  = Returns (set_status (write_keeps_status (_interface_status h) ack) h,
             [transmit_event ack]).
Proof.
  cbv zeta.
  apply (duplicate_fragment_reacknowledged any_fragment write_keeps_status 7%Z
           (wire 1 9 (headers.construct headers.FRAGMENT 2 3 5 4) (payload [9]))
           (set_incoming [mk_progress None 0%Z 0 5] (idle_handler 5 4 1))
           [] (mk_progress None 0%Z 0 5) []);
    first [reflexivity | vm_compute; lia].
Defined.

Lemma outgoing_records_own_transfers_witness :
  let h := idle_handler 5 4 1 in
  let t := outbound [payload [1; 2; 3; 4; 5]] in
  let cs := [call_transmit 0%Z t; call_main_task 11%Z;
             call_receive 12%Z (wire 1 9 (headers.construct headers.FRAGMENT_REQ 2 2 7 6) [])] in
  max_fragment_size h <> 0
  /\ _outgoing_transfers h = []
  /\ Forall owns (_outgoing_transfers (fst (run any_fragment write_keeps_status cs h))).
Proof.
  cbv zeta. split; [discriminate|]. split; [reflexivity|].
  apply (outgoing_records_own_transfers any_fragment write_keeps_status);
    first [discriminate | reflexivity].
Defined.

(** The sender's headers say three fragments, the acknowledgement says
    one. *)
Example acknowledgement_of_short_fragments :
  let h := idle_handler 5 4 1 in
  let cs := [call_receive 0%Z (wire 1 9 (headers.construct headers.FRAGMENT 1 3 5 4) (payload [1]));
             call_receive 0%Z (wire 1 9 (headers.construct headers.FRAGMENT 2 3 5 4) (payload [2]));
             call_receive 0%Z (wire 1 9 (headers.construct headers.FRAGMENT 3 3 5 4) (payload [3]));
             call_main_task 1%Z] in
  let ack := fragment_to 1 (headers.to_bytes (headers.construct headers.FRAGMENT_ACK 1 1 5 4)) in
  exists w,
    nth_error (snd (run any_fragment write_keeps_status cs h)) 3
    = Some (call_main_task 1%Z, [transmit_event ack; transfer_receive_event w])
    /\ concat (_data w) = payload [1; 2; 3].
Proof. cbv zeta. eexists. split; vm_compute; reflexivity. Qed.

(** The happy path of the specification: a payload of ten bytes goes out in
    three fragments of at most four bytes, the peer reassembles it,
    acknowledges it and hands it over, and the acknowledgement empties the
    outgoing table of the sender. *)
Example scenario_happy_path :
  let t := outbound [payload [1; 2; 3; 4; 5; 6; 7; 8; 9; 10]] in
  let sender := transmit write_keeps_status 0%Z t (idle_handler 5 4 2) in
  let fragments := on_link 9 (events_of sender) in
  let receiver := fst (feed 1%Z fragments (idle_handler 5 4 2)) in
  let pass := main_task write_keeps_status 2%Z receiver in
  map (fun f => skipn headers.sizeof (f_data f)) fragments
  = [payload [1; 2; 3; 4]; payload [5; 6; 7; 8]; payload [9; 10]]
  /\ map (fun f => headers.fragment (headers.byte_copy (f_data f))) fragments = [1; 2; 3]
  /\ (exists ack w,
         events_of pass = [transmit_event ack; transfer_receive_event w]
         /\ concat (_data w) = payload [1; 2; 3; 4; 5; 6; 7; 8; 9; 10]
         /\ headers.type (headers.byte_copy (f_data ack)) = headers.FRAGMENT_ACK)
  /\ (exists h',
         match sender with
         | Returns (h, _) => feed 3%Z (on_link 1 (events_of pass)) h
         | _ => (idle_handler 5 4 2, [])
         end
         = (h', [(call_receive 3%Z (wire 1 9 (headers.construct headers.FRAGMENT_ACK 3 3 7 6) []),
                  [transfer_ack_event (get_metadata t)])])
         /\ _outgoing_transfers h' = []).
Proof.
  cbv zeta. split; [vm_compute; reflexivity|]. split; [vm_compute; reflexivity|].
  split.
  - eexists _, _. split; [vm_compute; reflexivity|]. split; vm_compute; reflexivity.
  - eexists. split; vm_compute; reflexivity.
Qed.

(** A lost middle fragment: after the retransmit time the receiver asks for
    fragment 2 and the sender sends it again. *)
Example scenario_lost_fragment :
  let t := outbound [payload [1; 2; 3; 4; 5; 6; 7; 8; 9; 10]] in
  let sender := transmit write_keeps_status 0%Z t (idle_handler 5 4 2) in
  let arrived := match on_link 9 (events_of sender) with
                 | [f1; _; f3] => [f1; f3]
                 | _ => []
                 end in
  let receiver := fst (feed 1%Z arrived (idle_handler 5 4 2)) in
  let early := main_task write_keeps_status 5%Z receiver in
  let late := main_task write_keeps_status 12%Z receiver in
  events_of early = []
  /\ map (fun f => headers.byte_copy (f_data f)) (on_link 1 (events_of late))
     = [headers.mk_header headers.FRAGMENT_REQ 2 3 7 6]
  /\ match sender with
     | Returns (h, _) =>
         map (fun x => map (fun f => skipn headers.sizeof (f_data f)) (on_link 9 (snd x)))
           (snd (feed 13%Z (on_link 1 (events_of late)) h))
         = [[payload [5; 6; 7; 8]]]
     | _ => False
     end.
Proof. cbv zeta. repeat split; vm_compute; reflexivity. Qed.

Lemma get_fragment_range_witness :
  let t := outbound [payload [1; 2; 3; 4; 5; 6; 7; 8; 9; 10]] in
  3 <> 0
  /\ (3 - 1) * 4 <= data_size t
  /\ exists f,
       _get_fragment 4 t 3 = Value f
       /\ f_destination f = _destination t
       /\ f_data f = firstn (N.to_nat 4) (skipn (N.to_nat ((3 - 1) * 4)) (data_bytes t))
       /\ N.of_nat (length (f_data f)) <= 4
       /\ ((3 - 1) * 4 = data_size t -> f_data f = []).
Proof.
  cbv zeta.
  assert (H1 : 3 <> 0) by discriminate.
  assert (H2 : (3 - 1) * 4
               <= data_size (outbound [payload [1; 2; 3; 4; 5; 6; 7; 8; 9; 10]]))
    by (vm_compute; discriminate).
  split; [exact H1|]. split; [exact H2|].
  exact (proj2 (get_fragment_range 4 _ 3) H1 H2).
Defined.

(** * Further properties of the handler *)

(** ** The slots of a transfer *)

Lemma is_empty_true (b : bytes) : is_empty b = true <-> b = [].
Proof. destruct b; simpl; split; congruence. Qed.

Lemma first_empty_none i l :
  first_empty i l = 0 <-> forallb (fun b => negb (is_empty b)) l = true.
Proof.
  revert i. induction l as [|b l IH]; intros i; simpl.
  - split; reflexivity.
  - destruct (is_empty b); simpl.
    + split; [lia | discriminate].
    + apply IH.
Qed.

Lemma first_empty_found i l :
  first_empty i l <> 0 ->
  let k := N.to_nat (first_empty i l - i) in
  i < first_empty i l
  /\ (1 <= k <= length l)%nat
  /\ nth_error l (k - 1) = Some []
  /\ forall j b, (j < k - 1)%nat -> nth_error l j = Some b -> b <> [].
Proof.
  revert i. induction l as [|b l IH]; intros i; simpl; [congruence|].
  destruct (is_empty b) eqn:Hb.
  - intros _. replace (N.to_nat (i + 1 - i)) with 1%nat by lia.
    apply is_empty_true in Hb. subst b. simpl.
    repeat split; lia.
  - intros Hne. specialize (IH (i + 1) Hne). cbv zeta in IH.
    destruct IH as (Hlt & Hk & Hnth & Hbefore).
    set (j := first_empty (i + 1) l) in *.
    replace (N.to_nat (j - i)) with (S (N.to_nat (j - (i + 1)))) by lia.
    set (k := N.to_nat (j - (i + 1))) in *.
    repeat split; try lia.
    + replace (S k - 1)%nat with (S (k - 1)) by lia. exact Hnth.
    + intros [|j'] b' Hj Hjb; simpl in Hjb.
      * injection Hjb as <-. intros ->. discriminate.
      * apply (Hbefore j' b'); [lia | exact Hjb].
Qed.

(** X1.  [_missing_fragment()] is zero exactly when [_is_complete()] holds;
    otherwise it is the one-based index of the first empty slot: the slot
    exists, it is empty, and no slot before it is. *)
Theorem missing_fragment_is_first_empty_slot :
  forall t,
    (_missing_fragment t = 0 <-> _is_complete t = true)
    /\ (_is_complete t = false ->
        let i := N.to_nat (_missing_fragment t) in
        (1 <= i <= length (_data t))%nat
        /\ nth_error (_data t) (i - 1) = Some []
        /\ forall j b, (j < i - 1)%nat -> nth_error (_data t) j = Some b -> b <> []).
Proof.
  intros t. unfold _missing_fragment, _is_complete.
  split; [apply first_empty_none|].
  intros Hc.
  assert (Hne : first_empty 0 (_data t) <> 0).
  { intros E. apply first_empty_none in E. congruence. }
  pose proof (first_empty_found 0 (_data t) Hne) as H. cbv zeta in H.
  rewrite N.sub_0_r in H. destruct H as (_ & H1 & H2 & H3). auto.
Qed.

(** ** The fragments of a transfer *)

Lemma length_to_bytes hd : length (headers.to_bytes hd) = headers.sizeof.
Proof. reflexivity. Qed.

(** What [serialize_fragment] returns, byte by byte. *)
Lemma serialize_fragment_wire h ty pos w f :
  serialize_fragment h ty pos w = Value f ->
  f = fragment_to (_destination w)
        (headers.to_bytes (make_header h ty pos w)
         ++ chunk (max_fragment_size h) (data_bytes w) pos).
Proof.
  unfold serialize_fragment, _get_fragment.
  destruct (pos =? 0); [discriminate|].
  destruct (data_size w <? _); [discriminate|].
  intros [= <-]. reflexivity.
Qed.

Lemma length_chunk m d pos : (length (chunk m d pos) <= N.to_nat m)%nat.
Proof. unfold chunk. rewrite length_firstn. lia. Qed.

Lemma serialize_fragment_sized h ty pos w f :
  serialize_fragment h ty pos w = Value f -> sized (max_fragment_size h) f.
Proof.
  intros Hf. apply serialize_fragment_wire in Hf. subst f.
  unfold sized, fragment_to. cbn [f_data].
  rewrite length_app, length_to_bytes.
  pose proof (length_chunk (max_fragment_size h) (data_bytes w) pos). lia.
Qed.

(** The count of mode 2 is the least number of pieces of [m] bytes that
    hold [d] bytes. *)
Lemma count_covers (d m : N) :
  m <> 0 ->
  let n := d / m + (if d mod m =? 0 then 0 else 1) in
  d <= n * m /\ (d <> 0 -> 1 <= n /\ (n - 1) * m < d).
Proof.
  intros Hm.
  pose proof (N.div_mod d m Hm) as Hd.
  pose proof (N.mod_upper_bound d m Hm) as Hr.
  generalize dependent (d mod m). generalize dependent (d / m).
  intros q r Hd Hr. cbv zeta.
  destruct (N.eqb_spec r 0) as [E|E].
  - subst r. rewrite N.add_0_r in *. split; [nia|].
    intros Hd0. assert (1 <= q) by nia. split; [assumption|]. nia.
  - split; [nia|]. intros _. split; [lia|].
    replace (q + 1 - 1) with q by lia. nia.
Qed.

Lemma concat_pieces (m : nat) :
  m <> 0%nat ->
  forall n (d : bytes),
    (length d <= n * m)%nat ->
    concat (map (fun i => firstn m (skipn (i * m) d)) (seq 0 n)) = d.
Proof.
  intros Hm. induction n as [|n IH]; intros d Hd.
  - destruct d; [reflexivity | simpl in Hd; lia].
  - cbn [seq map concat]. rewrite <- seq_shift, map_map. cbn [Nat.mul skipn].
    transitivity (firstn m d ++ skipn m d); [|apply firstn_skipn]. f_equal.
    rewrite <- (IH (skipn m d)) by (rewrite length_skipn; lia).
    f_equal. apply map_ext. intros i.
    rewrite skipn_skipn. f_equal. f_equal. lia.
Qed.

Lemma positions_seq n :
  positions n = map (fun i => N.of_nat (S i)) (seq 0 (N.to_nat n)).
Proof. unfold positions. now rewrite <- seq_shift, map_map. Qed.

Lemma In_positions pos n : In pos (positions n) <-> 1 <= pos <= n.
Proof.
  unfold positions. rewrite in_map_iff. split.
  - intros (i & <- & Hi). apply in_seq in Hi. lia.
  - intros H. exists (N.to_nat pos). split; [lia|]. apply in_seq. lia.
Qed.

Lemma chunk_piece m d i :
  chunk m d (N.of_nat (S i)) = firstn (N.to_nat m) (skipn (i * N.to_nat m) d).
Proof.
  unfold chunk. f_equal. f_equal. lia.
Qed.

Lemma concat_chunks m d n :
  m <> 0 -> N.of_nat (length d) <= n * m ->
  concat (map (chunk m d) (positions n)) = d.
Proof.
  intros Hm Hd. rewrite positions_seq, map_map.
  rewrite (map_ext _ (fun i => firstn (N.to_nat m) (skipn (i * N.to_nat m) d)))
    by (intros i; apply chunk_piece).
  apply concat_pieces; lia.
Qed.

Lemma chunk_not_empty m d pos :
  m <> 0 -> 1 <= pos -> (pos - 1) * m < N.of_nat (length d) ->
  chunk m d pos <> [].
Proof.
  intros Hm Hpos Hlt E.
  apply (f_equal (@length byte)) in E. unfold chunk in E.
  rewrite length_firstn, length_skipn in E. simpl in E. lia.
Qed.

Lemma _get_fragment_value m t pos :
  pos <> 0 -> (pos - 1) * m <= data_size t ->
  _get_fragment m t pos = Value (fragment_to (_destination t) (chunk m (data_bytes t) pos)).
Proof.
  intros Hpos Hle. unfold _get_fragment.
  destruct (N.eqb_spec pos 0); [contradiction|].
  destruct (N.ltb_spec (data_size t) ((pos - 1) * m)); [lia|]. reflexivity.
Qed.

(** Every position of the loop of [transmit] starts within the data. *)
Lemma positions_within m t pos :
  m <> 0 -> _is_complete t = true ->
  In pos (positions (_fragments_count m t)) ->
  pos <> 0 /\ (pos - 1) * m < data_size t.
Proof.
  intros Hm Hc Hin. apply In_positions in Hin.
  unfold _fragments_count in Hin. rewrite Hc in Hin.
  pose proof (count_covers (data_size t) m Hm) as Hcov. cbv zeta in Hcov.
  set (n := data_size t / m + _) in *.
  destruct Hcov as [_ Hcov].
  destruct (N.eq_dec (data_size t) 0) as [E|E].
  - exfalso. unfold n in Hin. rewrite E in Hin.
    rewrite N.Div0.div_0_l, N.Div0.mod_0_l in Hin. simpl in Hin. lia.
  - destruct (Hcov E) as [_ Hlast]. split; [lia|]. nia.
Qed.

(** X2.  The fragments that [_get_fragment] makes for the positions
    [1 .. _fragments_count()] of a transfer whose slots are all filled:
    none of the calls throws, the fragments go to the destination of the
    transfer, each carries between one and [max_fragment_size] bytes, and
    their bytes in order are the data of the transfer. *)
Theorem fragments_partition_the_data :
  forall m t,
    m <> 0 ->
    _is_complete t = true ->
    exists fs,
      map (_get_fragment m t) (positions (_fragments_count m t)) = map Value fs
      /\ concat (map f_data fs) = data_bytes t
      /\ Forall (fun f => f_destination f = _destination t
                          /\ f_data f <> []
                          /\ N.of_nat (length (f_data f)) <= m) fs.
Proof.
  intros m t Hm Hc.
  exists (map (fun pos => fragment_to (_destination t) (chunk m (data_bytes t) pos))
            (positions (_fragments_count m t))).
  split; [|split].
  - rewrite map_map. apply map_ext_in. intros pos Hin.
    destruct (positions_within m t pos Hm Hc Hin) as [Hpos Hlt].
    apply _get_fragment_value; [assumption | lia].
  - rewrite map_map. cbn [fragment_to f_data].
    apply concat_chunks; [assumption|].
    unfold _fragments_count. rewrite Hc.
    apply (count_covers (data_size t) m Hm).
  - apply Forall_forall. intros f Hf. apply in_map_iff in Hf.
    destruct Hf as (pos & <- & Hin). cbn [fragment_to f_destination f_data].
    destruct (positions_within m t pos Hm Hc Hin) as [Hpos Hlt].
    split; [reflexivity|]. split.
    + apply chunk_not_empty; [assumption | lia | exact Hlt].
    + pose proof (length_chunk m (data_bytes t) pos). lia.
Qed.

(** With a payload of ten bytes and a fragment size of four the pieces
    hold four, four and two bytes. *)
Lemma fragments_partition_the_data_witness :
  let t := outbound [payload [1; 2; 3; 4; 5; 6; 7; 8; 9; 10]] in
  exists fs,
    map (_get_fragment 4 t) (positions (_fragments_count 4 t)) = map Value fs
    /\ concat (map f_data fs) = data_bytes t
    /\ Forall (fun f => f_destination f = _destination t
                        /\ f_data f <> []
                        /\ N.of_nat (length (f_data f)) <= 4) fs.
Proof.
  apply (fragments_partition_the_data 4
           (outbound [payload [1; 2; 3; 4; 5; 6; 7; 8; 9; 10]]));
    [discriminate | reflexivity].
Defined.

(** ** The burst of [transmit] *)

Lemma serialize_fragment_returns h ty pos w :
  pos <> 0 -> (pos - 1) * max_fragment_size h <= data_size w ->
  serialize_fragment h ty pos w
  = Value (fragment_to (_destination w)
             (headers.to_bytes (make_header h ty pos w)
              ++ chunk (max_fragment_size h) (data_bytes w) pos)).
Proof.
  intros Hpos Hle. unfold serialize_fragment.
  rewrite _get_fragment_value by assumption. reflexivity.
Qed.

Lemma flat_map_values {A : Type} (g : A -> exn fragment) (v : A -> fragment) l :
  (forall x, In x l -> g x = Value (v x)) ->
  flat_map (fun x => match g x with Value f => [f] | Raise _ => [] end) l = map v l.
Proof.
  induction l as [|x l IH]; intros H; [reflexivity|].
  cbn [flat_map map]. rewrite (H x (or_introl eq_refl)).
  cbn [app]. f_equal. apply IH. intros y Hy. apply H. now right.
Qed.

(** The burst of a transfer whose slots are all filled has a fragment for
    every position. *)
Lemma burst_complete h t :
  max_fragment_size h <> 0 -> _is_complete t = true ->
  burst h t
  = map (fun pos =>
           fragment_to (_destination t)
             (headers.to_bytes (make_header h headers.FRAGMENT pos t)
              ++ chunk (max_fragment_size h) (data_bytes t) pos))
      (positions (_fragments_count (max_fragment_size h) t)).
Proof.
  intros Hm Hc. unfold burst. apply flat_map_values. intros pos Hin.
  destruct (positions_within _ t pos Hm Hc Hin) as [Hpos Hlt].
  apply serialize_fragment_returns; [assumption | lia].
Qed.

Section burst_facts.

Variable link_write : status -> fragment -> status.

Lemma transmit_loop_sends_prefix h w ps st :
  (forall pos, In pos ps -> exists f, serialize_fragment h headers.FRAGMENT pos w = Value f) ->
  let fs := flat_map (fun pos => match serialize_fragment h headers.FRAGMENT pos w with
                                 | Value f => [f]
                                 | Raise _ => []
                                 end) ps in
  exists k st',
    transmit_loop link_write h w ps st = Returns (map transmit_event (firstn k fs), st')
    /\ ((forall st0 f, can_transmit_status st0 = true ->
                       can_transmit_status (link_write st0 f) = true) ->
        can_transmit_status st = true -> firstn k fs = fs).
Proof.
  revert st. induction ps as [|pos ps IH]; intros st Hall; cbv zeta.
  - exists 0%nat, st. split; [reflexivity|]. reflexivity.
  - cbn [transmit_loop flat_map].
    destruct (Hall pos (or_introl eq_refl)) as [f Hf]. rewrite Hf.
    destruct (can_transmit_status st) eqn:Hst.
    + destruct (IH (link_write st f) (fun q Hq => Hall q (or_intror Hq)))
        as (k & st' & Hloop & Hfull).
      rewrite Hloop. exists (S k), st'. cbn [outcome_map fst snd app firstn map].
      split; [reflexivity|]. intros Hlink _. f_equal.
      apply Hfull; [exact Hlink | now apply Hlink].
    + exists 0%nat, st. split; [reflexivity|]. discriminate.
Qed.

(** X3.  [transmit] of a transfer whose slots are all filled throws
    nothing.  It appends to the outgoing table a record that owns the
    transfer, with the time of the call and no retransmission, and emits
    the fragments of the transfer in the order of their positions for as
    long as [can_transmit()] holds: a prefix of the burst, and all of it
    when the interface keeps a slot free.  The fragment at position [pos]
    is the header [{FRAGMENT, pos, _fragments_count(), id, prev_id}]
    followed by the at most [max_fragment_size] bytes of the data from the
    offset [(pos - 1) * max_fragment_size] on. *)
Theorem transmit_sends_the_fragments_in_order :
  forall now t h,
    max_fragment_size h <> 0 ->
    _is_complete t = true ->
    let count := _fragments_count (max_fragment_size h) t in
    burst h t
    = map (fun pos =>
             fragment_to (_destination t)
               (headers.to_bytes
                  (headers.construct headers.FRAGMENT pos count (_id t) (_prev_id t))
                ++ chunk (max_fragment_size h) (data_bytes t) pos))
        (positions count)
    /\ exists k st,
         transmit link_write now t h
         = Returns (set_status st
                      (set_outgoing
                         (_outgoing_transfers h ++ [mk_progress (Some t) now 0 (_id t)]) h),
                    map transmit_event (firstn k (burst h t)))
         /\ ((forall st0 f, can_transmit_status st0 = true ->
                            can_transmit_status (link_write st0 f) = true) ->
             can_transmit h = true -> firstn k (burst h t) = burst h t).
Proof.
  intros now t h Hm Hc count. split; [now apply burst_complete|].
  assert (Hall : forall pos, In pos (positions count) ->
                   exists f, serialize_fragment h headers.FRAGMENT pos t = Value f).
  { intros pos Hin. destruct (positions_within _ t pos Hm Hc Hin) as [Hpos Hlt].
    eexists. apply serialize_fragment_returns; [assumption | lia]. }
  destruct (transmit_loop_sends_prefix h t (positions count) (_interface_status h) Hall)
    as (k & st & Hloop & Hfull).
  exists k, st. unfold transmit. fold count. rewrite Hloop.
  split; [reflexivity|]. exact Hfull.
Qed.

End burst_facts.

(** A payload of ten bytes goes out in three fragments of four, four and
    two bytes. *)
Lemma transmit_sends_the_fragments_in_order_witness :
  let h := idle_handler 5 4 1 in
  let t := outbound [payload [1; 2; 3; 4; 5; 6; 7; 8; 9; 10]] in
  let count := _fragments_count (max_fragment_size h) t in
  burst h t
  = map (fun pos =>
           fragment_to (_destination t)
             (headers.to_bytes
                (headers.construct headers.FRAGMENT pos count (_id t) (_prev_id t))
              ++ chunk (max_fragment_size h) (data_bytes t) pos))
      (positions count)
  /\ exists k st,
       transmit write_keeps_status 0%Z t h
       = Returns (set_status st
                    (set_outgoing
                       (_outgoing_transfers h ++ [mk_progress (Some t) 0%Z 0 (_id t)]) h),
                  map transmit_event (firstn k (burst h t)))
       /\ ((forall st0 f, can_transmit_status st0 = true ->
                          can_transmit_status (write_keeps_status st0 f) = true) ->
           can_transmit h = true -> firstn k (burst h t) = burst h t).
Proof.
  apply (transmit_sends_the_fragments_in_order write_keeps_status 0%Z
           (outbound [payload [1; 2; 3; 4; 5; 6; 7; 8; 9; 10]]) (idle_handler 5 4 1));
    [discriminate | reflexivity].
Defined.

(** ** Requests *)

Lemma nth_error_positions n i :
  (1 <= i <= N.to_nat n)%nat -> nth_error (positions n) (i - 1) = Some (N.of_nat i).
Proof.
  intros Hi. unfold positions.
  rewrite nth_error_map, nth_error_seq.
  destruct (Nat.ltb_spec (i - 1) (N.to_nat n)) as [_|?]; [|lia].
  cbn [option_map]. f_equal. f_equal. lia.
Qed.

Section requests.

Variable fragment_ok : fragment -> bool.
Variable link_write : status -> fragment -> status.

(** X4.  In a handler with a nonzero [max_fragment_size], a valid
    [FRAGMENT_REQ] that matches an outgoing record, with a transmit slot
    free, for a fragment that begins within the data of the transfer:
    [receive_callback] emits that fragment, made anew from the
    transfer of the first matching record, and counts it as a
    retransmission of the record, whose timestamp becomes the time of the
    call.  When the slots of the transfer are all filled and the index is
    one of its positions the fragment is the one the burst of [transmit]
    has at that position. *)
Theorem request_is_answered_with_the_fragment :
  forall now p h before it w after,
    max_fragment_size h <> 0 ->
    fragment_ok p = true ->
    (headers.sizeof <= length (f_data p))%nat ->
    let hd := headers.byte_copy (f_data p) in
    headers.is_valid hd = true ->
    headers.type hd = headers.FRAGMENT_REQ ->
    find_if_tr (outgoing_match hd (shrink_header p)) (_outgoing_transfers h)
    = Returns (Some (before, (it, w), after)) ->
    can_transmit h = true ->
    (headers.fragment hd - 1) * max_fragment_size h <= data_size w ->
    let f :=
      fragment_to (_destination w)
        (headers.to_bytes (make_header h headers.FRAGMENT (headers.fragment hd) w)
         ++ chunk (max_fragment_size h) (data_bytes w) (headers.fragment hd)) in
    receive_callback fragment_ok link_write now p h
    = Returns (set_status (link_write (_interface_status h) f)
                 (set_outgoing
                    (before
                     ++ mk_progress (Some w) now (uint (retransmitions it + 1)) (id it)
                     :: after) h),
               [transmit_event f])
    /\ (_is_complete w = true ->
        headers.fragment hd <= _fragments_count (max_fragment_size h) w ->
        nth_error (burst h w) (N.to_nat (headers.fragment hd) - 1) = Some f).
Proof.
  intros now p h before it w after Hm Hok Hsize hd Hvalid Hty Hfind Hcan Hle f.
  assert (Hpos : headers.fragment hd <> 0).
  { intros E. unfold headers.is_valid in Hvalid. rewrite E in Hvalid.
    rewrite !andb_false_r in Hvalid. discriminate. }
  split.
  - unfold receive_callback. rewrite Hok.
    apply Nat.leb_le in Hsize. rewrite Hsize. cbn [andb].
    fold hd. rewrite Hvalid. unfold handle_fragment.
    rewrite Hty, Hfind, Hcan.
    cbn [N.eqb Pos.eqb headers.FRAGMENT_REQ headers.FRAGMENT andb].
    rewrite serialize_fragment_returns by assumption. fold f.
    apply find_if_tr_split in Hfind. destruct Hfind as (_ & Hw & _ & _).
    unfold retransmit_done. rewrite Hw. reflexivity.
  - intros Hc Hcount. rewrite burst_complete by assumption.
    rewrite nth_error_map, nth_error_positions by lia.
    cbn [option_map]. rewrite N2Nat.id. reflexivity.
Qed.

End requests.

(** The peer asks for the second fragment of a transfer of ten bytes. *)
Lemma request_is_answered_with_the_fragment_witness :
  let t := outbound [payload [1; 2; 3; 4; 5; 6; 7; 8; 9; 10]] in
  let it := mk_progress (Some t) 0%Z 0 7 in
  let h := set_outgoing [it] (idle_handler 5 4 1) in
  let p := wire 1 9 (headers.construct headers.FRAGMENT_REQ 2 3 7 6) [] in
  let hd := headers.byte_copy (f_data p) in
  let f :=
    fragment_to (_destination t)
      (headers.to_bytes (make_header h headers.FRAGMENT (headers.fragment hd) t)
       ++ chunk (max_fragment_size h) (data_bytes t) (headers.fragment hd)) in
  receive_callback any_fragment write_keeps_status 3%Z p h
  = Returns (set_status (write_keeps_status (_interface_status h) f)
               (set_outgoing
                  ([] ++ mk_progress (Some t) 3%Z (uint (retransmitions it + 1)) (id it)
                   :: []) h),
             [transmit_event f])
  /\ (_is_complete t = true ->
      headers.fragment hd <= _fragments_count (max_fragment_size h) t ->
      nth_error (burst h t) (N.to_nat (headers.fragment hd) - 1) = Some f).
Proof.
  apply (request_is_answered_with_the_fragment any_fragment write_keeps_status 3%Z
           (wire 1 9 (headers.construct headers.FRAGMENT_REQ 2 3 7 6) [])
           (set_outgoing [mk_progress (Some (outbound [payload [1; 2; 3; 4; 5; 6; 7; 8; 9; 10]]))
                            0%Z 0 7] (idle_handler 5 4 1))
           [] (mk_progress (Some (outbound [payload [1; 2; 3; 4; 5; 6; 7; 8; 9; 10]])) 0%Z 0 7)
           (outbound [payload [1; 2; 3; 4; 5; 6; 7; 8; 9; 10]]) []);
    first [discriminate | reflexivity | vm_compute; lia | vm_compute; discriminate].
Defined.

(** ** The requests of [main_task] *)

Section request_facts.

Variable link_write : status -> fragment -> status.


End request_facts.


(** ** The passes of [main_task], record by record *)

Lemma transmits_app ev1 ev2 : transmits (ev1 ++ ev2) = transmits ev1 ++ transmits ev2.
Proof. apply flat_map_app. Qed.

Lemma delivered_app ev1 ev2 : delivered (ev1 ++ ev2) = delivered ev1 ++ delivered ev2.
Proof. apply flat_map_app. Qed.

Lemma acknowledged_app h ev1 ev2 :
  acknowledged h ev1 -> acknowledged h ev2 -> acknowledged h (ev1 ++ ev2).
Proof.
  induction 1; intros H2; cbn [app];
    [assumption | apply acknowledged_delivery; auto | apply acknowledged_other; auto].
Qed.

Lemma sized_header m dst hd : sized m (fragment_to dst (headers.to_bytes hd)).
Proof. unfold sized, fragment_to. cbn [f_data]. rewrite length_to_bytes. lia. Qed.

Lemma expired_Forall P R (Q : transfer_progress -> Prop) l l' :
  (forall r r', R r r' -> Q r -> Q r') ->
  expired P R l l' -> Forall Q l -> Forall Q l'.
Proof.
  intros HR He. induction He; intros HF; inversion_clear HF; eauto.
Qed.

Lemma same_record_refl r : same_record r r.
Proof. split; auto. Qed.

Lemma live_cons r l :
  live (r :: l) = ((match tr r with Some _ => 1 | None => 0 end) + live l)%nat.
Proof. unfold live, transfers_of. cbn [flat_map]. rewrite length_app. now destruct (tr r). Qed.

Section first_loop.

Variable link_write : status -> fragment -> status.

(** The four things the body of the first loop does. *)
Lemma incoming_body_cases now h st r v e st' :
  incoming_body link_write now h st r = (v, e, st') ->
  (v = Erased /\ e = [] /\ due_for_erase now h r = true)
  \/ (v = Kept r /\ e = [])
  \/ (exists w, tr r = Some w /\ _is_complete w = true
                /\ v = Kept (reset r)
                /\ e = [transmit_event (completion_ack h w); transfer_receive_event w])
  \/ (exists w, tr r = Some w /\ _is_complete w = false
                /\ v = Kept (retransmit_done now r)
                /\ e = [transmit_event (retransmit_request h w)]).
Proof.
  unfold incoming_body, due_for_erase. destruct (tr r) as [w|] eqn:Hw.
  - destruct (_is_complete w) eqn:Hc; destruct (can_transmit_status st) eqn:Hst;
      cbn [andb].
    + intros [= <- <- <-]. right. right. left. exists w. auto.
    + destruct (older_than now (_timestamp_modified w) (_drop_time h));
        intros [= <- <- <-]; auto.
    + destruct (older_than now (_timestamp_modified w) (_drop_time h));
        [intros [= <- <- <-]; auto|].
      destruct (older_than now (_timestamp_modified w) (_retransmit_time h) && _);
        intros [= <- <- <-]; auto.
      right. right. right. exists w. auto.
    + destruct (older_than now (_timestamp_modified w) (_drop_time h));
        intros [= <- <- <-]; auto.
  - destruct (older_than _ _ _); intros [= <- <- <-]; auto.
Qed.

Lemma incoming_walk_pass {E : Type}
    (body : status -> transfer_progress -> visit * list E * status) st l :
  forall B : transfer_progress -> visit -> list E -> Prop,
    (forall st r, B r (fst (fst (body st r))) (snd (fst (body st r)))) ->
    forall P : list transfer_progress -> list transfer_progress -> list E -> Prop,
      P [] [] [] ->
      (forall r r' e l l' ev, B r (Kept r') e -> P l l' ev -> P (r :: l) (r' :: l') (e ++ ev)) ->
      (forall r e, B r Erased e -> P [r] [] e) ->
      (forall r r2 e l l' ev, B r Erased e -> P l l' ev -> P (r :: r2 :: l) (r2 :: l') (e ++ ev)) ->
      P l (fst (fst (incoming_walk body st l))) (snd (fst (incoming_walk body st l))).
Proof.
  intros B HB P Hnil Hkept Hlast Herased. revert st.
  induction l as [|r rest IH1 IH2] using list_ind_skip; intros st.
  - exact Hnil.
  - cbn [incoming_walk]. specialize (HB st r).
    destruct (body st r) as [[v e] st1]. cbn [fst snd] in HB.
    destruct v as [|r'].
    + destruct rest as [|r2 rest']; [now apply Hlast|].
      specialize (IH2 r2 rest' eq_refl st1).
      destruct (incoming_walk body st1 rest') as [[l' ev] st2].
      cbn [keep after_events fst snd] in *. now apply Herased.
    + specialize (IH1 st1).
      destruct (incoming_walk body st1 rest) as [[l' ev] st2].
      cbn [keep after_events fst snd] in *. now apply Hkept.
Qed.

Lemma incoming_loop_pass now h st l :
  incoming_pass (incoming_does link_write now h) l
    (fst (fst (incoming_loop link_write now h st l)))
    (snd (fst (incoming_loop link_write now h st l))).
Proof.
  unfold incoming_loop.
  apply (incoming_walk_pass (incoming_body link_write now h) st l
           (incoming_does link_write now h)).
  - intros st0 r. exists st0, (snd (incoming_body link_write now h st0 r)).
    now destruct (incoming_body link_write now h st0 r) as [[v e] st1].
  - constructor.
  - intros. now apply incoming_pass_kept.
  - intros. now apply incoming_pass_erased_last.
  - intros. now apply incoming_pass_erased.
Qed.

(** What a pass over the incoming table leaves and emits. *)
Lemma incoming_pass_facts now h l l' ev :
  incoming_pass (incoming_does link_write now h) l l' ev ->
  expired (fun r => due_for_erase now h r = true) same_record l l'
  /\ acknowledged h ev
  /\ Forall (sized (max_fragment_size h)) (transmits ev)
  /\ (length (transmits ev) <= length l)%nat
  /\ (length (delivered ev) + live l' <= live l)%nat
  /\ acks_of ev = []
  /\ Forall (fun f => headers.type (headers.byte_copy (f_data f)) <> headers.FRAGMENT)
       (transmits ev).
Proof.
  assert (Hty : forall ty pos w dst,
             ty <> headers.FRAGMENT -> ty < 256 ->
             headers.type (headers.byte_copy
                             (f_data (fragment_to dst
                                        (headers.to_bytes (make_header h ty pos w)))))
             <> headers.FRAGMENT).
  { intros ty pos w dst Hne Hlt. unfold fragment_to. cbn [f_data].
    rewrite <- (app_nil_r (headers.to_bytes _)), byte_copy_to_bytes_type.
    unfold make_header, headers.construct. cbn [headers.type].
    rewrite N.Div0.mod_mod, N.mod_small by assumption. exact Hne. }
  assert (Hbody : forall r v e,
             incoming_does link_write now h r v e ->
             acknowledged h e
             /\ Forall (sized (max_fragment_size h)) (transmits e)
             /\ (length (transmits e) <= 1)%nat
             /\ acks_of e = []
             /\ Forall (fun f => headers.type (headers.byte_copy (f_data f))
                                 <> headers.FRAGMENT) (transmits e)
             /\ match v with
                | Erased => due_for_erase now h r = true /\ delivered e = []
                | Kept r' =>
                    same_record r r'
                    /\ (length (delivered e) + live [r'] <= live [r])%nat
                end).
  { intros r v e (st & st' & Hb). apply incoming_body_cases in Hb.
    destruct Hb as [(-> & -> & Hdue)|[(-> & ->)|[(w & Hw & Hc & -> & ->)|(w & Hw & Hc & -> & ->)]]].
    - repeat split; try constructor; auto.
    - repeat split; try constructor; auto using same_record_refl.
    - split.
      { apply acknowledged_delivery; [assumption | constructor]. }
      cbn [transmits delivered flat_map app length acks_of].
      rewrite !live_cons. cbn [reset tr]. rewrite Hw.
      repeat split; auto.
      + constructor; [apply sized_header | constructor].
      + constructor; [|constructor]. unfold completion_ack.
        apply Hty; [discriminate | reflexivity].
    - split.
      { apply acknowledged_other; [reflexivity | constructor]. }
      cbn [transmits delivered flat_map app length acks_of].
      rewrite !live_cons. cbn [retransmit_done tr]. rewrite Hw.
      repeat split; auto.
      + constructor; [apply sized_header | constructor].
      + constructor; [|constructor]. unfold retransmit_request.
        apply Hty; [discriminate | reflexivity]. }
  induction 1 as [|r r' e l l' ev HB _ IH|r e HB|r r2 e l l' ev HB _ IH].
  - repeat split; try constructor.
  - destruct (Hbody _ _ _ HB) as (Ha & Hs & Hn & Hk & Ht & Hr & Hd).
    destruct IH as (IH1 & IH2 & IH3 & IH4 & IH5 & IH6 & IH7).
    rewrite transmits_app, delivered_app, !length_app.
    rewrite (live_cons r), (live_cons r'). rewrite !live_cons in Hd.
    unfold live in Hd. cbn [transfers_of flat_map length] in Hd.
    repeat split.
    + now apply expired_keep.
    + now apply acknowledged_app.
    + now apply Forall_app.
    + cbn [length]. lia.
    + lia.
    + unfold acks_of in *. now rewrite flat_map_app, Hk, IH6.
    + now apply Forall_app.
  - destruct (Hbody _ _ _ HB) as (Ha & Hs & Hn & Hk & Ht & Hdue & Hd).
    rewrite Hd. repeat split; auto.
    + apply expired_erase; [assumption | constructor].
    + apply Nat.le_0_l.
  - destruct (Hbody _ _ _ HB) as (Ha & Hs & Hn & Hk & Ht & Hdue & Hd).
    destruct IH as (IH1 & IH2 & IH3 & IH4 & IH5 & IH6 & IH7).
    rewrite transmits_app, delivered_app, !length_app, Hd.
    rewrite (live_cons r), !(live_cons r2).
    repeat split.
    + apply expired_erase; [assumption|].
      apply expired_keep; [apply same_record_refl | assumption].
    + now apply acknowledged_app.
    + now apply Forall_app.
    + cbn [length]. lia.
    + cbn [length]. lia.
    + unfold acks_of in *. now rewrite flat_map_app, Hk, IH6.
    + now apply Forall_app.
Qed.

End first_loop.

Lemma budgets_of_all h l : budgets_of h (fun _ => true) l = budgets h l.
Proof.
  induction l as [|r l IH]; [reflexivity|].
  rewrite budgets_of_cons. unfold budgets in *. cbn [fold_right].
  rewrite <- IH. unfold budget. now destruct (tr r).
Qed.

Section second_loop.

Variable link_write : status -> fragment -> status.

(** The five things the body of the second loop does. *)
Lemma outgoing_body_cases now h st r :
  (older_than now (timestamp_accessed r) (_drop_time h) = true
   /\ outgoing_body link_write now h st r = Returns (Erase, [], st))
  \/ (older_than now (timestamp_accessed r) (_drop_time h) = false
      /\ can_transmit_status st = false
      /\ outgoing_body link_write now h st r = Returns (Advance, [], st))
  \/ (older_than now (timestamp_accessed r) (_drop_time h) = false
      /\ can_transmit_status st = true /\ tr r = None
      /\ outgoing_body link_write now h st r = NullDereference)
  \/ (older_than now (timestamp_accessed r) (_drop_time h) = false
      /\ can_transmit_status st = true /\ settled now h r
      /\ outgoing_body link_write now h st r = Returns (Advance, [], st))
  \/ (exists w f,
        older_than now (timestamp_accessed r) (_drop_time h) = false
        /\ can_transmit_status st = true /\ tr r = Some w
        /\ retransmitions r < cap h w
        /\ older_than now (timestamp_accessed r) (_retransmit_time h) = true
        /\ serialize_fragment h headers.FRAGMENT 1 w = Value f
        /\ outgoing_body link_write now h st r
           = Returns (Stay (retransmit_done now r), [transmit_event f], link_write st f)).
Proof.
  unfold outgoing_body, settled.
  destruct (older_than now (timestamp_accessed r) (_drop_time h)); [left; auto|].
  destruct (can_transmit_status st); [|right; left; auto].
  destruct (tr r) as [w|] eqn:Hw; [|right; right; left; auto].
  fold (cap h w).
  destruct ((retransmitions r <? cap h w)
            && older_than now (timestamp_accessed r) (_retransmit_time h)) eqn:Hdue.
  - apply andb_true_iff in Hdue. destruct Hdue as [Hlt Hold]. apply N.ltb_lt in Hlt.
    destruct (serialize_first_fragment h headers.FRAGMENT w) as [f Hf].
    rewrite Hf. right. right. right. right. exists w, f. repeat split; auto.
  - right. right. right. left. repeat split; auto. exists w. auto.
Qed.

Lemma older_than_now now d : (0 <= d)%Z -> older_than now now d = false.
Proof. intros Hd. unfold older_than. apply Z.ltb_ge. lia. Qed.

(** What a pass over the outgoing table leaves and emits. *)
Lemma outgoing_loop_facts now h fuel st l l' ev st' :
  outgoing_loop link_write fuel now h st l = Returns (l', ev, st') ->
  Forall (fun r => older_than now (timestamp_accessed r) (_drop_time h) = false) l'
  /\ (can_transmit_status st' = true ->
      can_transmit_status st = true /\ Forall (settled now h) l')
  /\ ((0 <= _drop_time h)%Z ->
      expired (fun r => older_than now (timestamp_accessed r) (_drop_time h) = true)
        same_record l l').
Proof.
  unfold outgoing_loop. revert st l l' ev st'.
  induction fuel as [|fuel IH]; intros st l l' ev st'; cbn [outgoing_walk];
    [discriminate|].
  destruct l as [|r rest].
  { intros [= <- <- <-]. repeat split; auto; constructor. }
  destruct (outgoing_body_cases now h st r)
    as [(Hold & ->)|[(Hold & Hst & ->)|[(Hold & Hst & Hw & ->)
       |[(Hold & Hst & Hset & ->)|(w & f & Hold & Hst & Hw & Hlt & Hrt & Hf & ->)]]]];
    try discriminate.
  - destruct (outgoing_walk _ fuel st rest) as [[[l1 ev1] st1]| | | |] eqn:Hwalk;
      cbn [outcome_map after_events app]; try discriminate.
    intros [= <- <- <-]. destruct (IH _ _ _ _ _ Hwalk) as (H1 & H2 & H4).
    repeat split; auto.
    + now apply H2.
    + now apply H2.
    + intros Hd. apply expired_erase; auto.
  - destruct (outgoing_walk _ fuel st rest) as [[[l1 ev1] st1]| | | |] eqn:Hwalk;
      cbn [outcome_map after_events keep app]; try discriminate.
    intros [= <- <- <-]. destruct (IH _ _ _ _ _ Hwalk) as (H1 & H2 & H4).
    pose proof (outgoing_loop_blocked link_write fuel now h st rest Hst) as Hb.
    unfold outgoing_loop in Hb. rewrite Hwalk in Hb. cbn in Hb. destruct Hb as [_ ->].
    repeat split; auto; try congruence.
    intros Hd. apply expired_keep; [apply same_record_refl | auto].
  - destruct (outgoing_walk _ fuel st rest) as [[[l1 ev1] st1]| | | |] eqn:Hwalk;
      cbn [outcome_map after_events keep app]; try discriminate.
    intros [= <- <- <-]. destruct (IH _ _ _ _ _ Hwalk) as (H1 & H2 & H4).
    repeat split; auto.
    + constructor; [assumption | now apply H2].
    + intros Hd. apply expired_keep; [apply same_record_refl | auto].
  - destruct (outgoing_walk _ fuel (link_write st f) (retransmit_done now r :: rest))
      as [[[l1 ev1] st1]| | | |] eqn:Hwalk;
      cbn [outcome_map after_events app]; try discriminate.
    intros [= <- <- <-]. destruct (IH _ _ _ _ _ Hwalk) as (H1 & H2 & H4).
    repeat split; auto.
    + now apply H2.
    + intros Hd. specialize (H4 Hd).
      inversion H4 as [|? ? ? Hgone Hrest|? r'' ? l'' [Hid Htr] Hrest]; subst.
      * cbn [retransmit_done timestamp_accessed] in Hgone.
        rewrite older_than_now in Hgone by assumption. discriminate.
      * apply expired_keep; [|assumption].
        cbn [retransmit_done id tr] in Hid, Htr. split; assumption.
Qed.

Lemma outgoing_loop_returns now h st l :
  Forall owns l ->
  exists l' ev st',
    outgoing_loop link_write (outgoing_fuel h l) now h st l = Returns (l', ev, st')
    /\ probes now h l l' ev.
Proof.
  intros Ho.
  pose proof (outgoing_loop_spec link_write (outgoing_fuel h l) now h st l) as H.
  specialize (H ltac:(unfold outgoing_fuel; lia)).
  destruct (outgoing_loop _ _ _ _ _ _) as [[[l' ev] st']| | | |]; try contradiction.
  eauto.
Qed.

(** [main_task] as its two loops. *)
Lemma main_task_loops now h :
  Forall owns (_outgoing_transfers h) ->
  exists inc ev1 st1 out ev2 st2,
    incoming_loop link_write now h (_interface_status h) (_incoming_transfers h)
    = (inc, ev1, st1)
    /\ outgoing_loop link_write (outgoing_fuel h (_outgoing_transfers h)) now h st1
         (_outgoing_transfers h) = Returns (out, ev2, st2)
    /\ probes now h (_outgoing_transfers h) out ev2
    /\ main_task link_write now h
       = Returns (set_status st2 (set_outgoing out (set_status st1 (set_incoming inc h))),
                  ev1 ++ ev2).
Proof.
  intros Ho. unfold main_task.
  destruct (incoming_loop _ _ _ _ _) as [[inc ev1] st1].
  destruct (outgoing_loop_returns now h st1 (_outgoing_transfers h) Ho)
    as (out & ev2 & st2 & Hloop & Hp).
  rewrite Hloop. exists inc, ev1, st1, out, ev2, st2. auto.
Qed.

Lemma probes_events now h l l' ev :
  probes now h l l' ev ->
  Forall (fun e => exists f w, e = transmit_event f
                               /\ serialize_fragment h headers.FRAGMENT 1 w = Value f) ev.
Proof.
  induction 1 as [|r l l' ev _ IH|r l l' ev _ IH|r w f l l' ev Hw Hlt Hf _ IH];
    try assumption; [constructor|].
  constructor; eauto.
Qed.

Lemma probes_transmits now h l l' ev :
  probes now h l l' ev ->
  length (transmits ev) = length ev
  /\ delivered ev = []
  /\ Forall (sized (max_fragment_size h)) (transmits ev)
  /\ Forall (fun f => headers.fragment (headers.byte_copy (f_data f)) = 1) (transmits ev).
Proof.
  intros Hp. apply probes_events in Hp.
  induction Hp as [|e ev (f & w & -> & Hf) _ (IH1 & IH2 & IH3 & IH4)].
  - repeat split; constructor.
  - cbn [transmits delivered flat_map app length]. repeat split.
    + fold (transmits ev). congruence.
    + exact IH2.
    + constructor; [|exact IH3]. eapply serialize_fragment_sized; eassumption.
    + constructor; [|exact IH4].
      apply serialize_fragment_wire in Hf. subst f.
      unfold fragment_to, make_header. cbn [f_data].
      rewrite byte_copy_construct. reflexivity.
Qed.

(** X6.  [main_task] comes to its end in a handler with a nonzero
    [max_fragment_size] whose outgoing records own their transfers,
    although its second loop stays at a record it has just retransmitted:
    every retransmission is paid from the budget that the cap leaves to
    the record, [fragments_count * retransmit_multiplier] less its
    [retransmitions].  The pass emits at most as many [FRAGMENT]s as the
    budgets of the outgoing records add up to, the budgets it leaves are
    less by the number of [FRAGMENT]s it has sent, and beside these it
    emits one [transmit_event] for a record of the incoming table at
    most. *)
Theorem main_task_sends_within_budgets :
  forall now h,
    max_fragment_size h <> 0 ->
    Forall owns (_outgoing_transfers h) ->
    exists h' ev,
      main_task link_write now h = Returns (h', ev)
      /\ N.of_nat (length (filter (is_emission headers.FRAGMENT) ev))
         + budgets h (_outgoing_transfers h')
         <= budgets h (_outgoing_transfers h)
      /\ (length (transmits ev)
          <= length (_incoming_transfers h)
             + length (filter (is_emission headers.FRAGMENT) ev))%nat.
Proof.
  intros now h _ Ho.
  destruct (main_task_loops now h Ho)
    as (inc & ev1 & st1 & out & ev2 & st2 & Hinc & Hout & Hp & ->).
  eexists _, _. split; [reflexivity|].
  pose proof (incoming_loop_pass link_write now h (_interface_status h)
                (_incoming_transfers h)) as Hpass.
  rewrite Hinc in Hpass. cbn [fst snd] in Hpass.
  apply incoming_pass_facts in Hpass.
  destruct Hpass as (_ & _ & _ & Hn1 & _ & _ & Hnf).
  destruct (probes_transmits _ _ _ _ _ Hp) as (Hlen & _ & _ & _).
  assert (Hz : filter (is_emission headers.FRAGMENT) ev1 = []).
  { clear - Hnf. induction ev1 as [|e ev1 IH]; [reflexivity|].
    destruct e as [f|t|m]; cbn [filter is_emission transmits flat_map app] in *.
    - inversion_clear Hnf as [|? ? Hf Hrest].
      apply N.eqb_neq in Hf. rewrite Hf. now apply IH.
    - now apply IH.
    - now apply IH. }
  assert (Hall : filter (is_emission headers.FRAGMENT) ev2 = ev2).
  { pose proof (probes_fragments _ _ _ _ _ Hp) as Hf. clear - Hf.
    induction Hf as [|e ev He _ IH]; [reflexivity|].
    cbn [filter]. rewrite He. now f_equal. }
  rewrite filter_app, Hz, Hall. cbn [app set_status set_outgoing _outgoing_transfers].
  split.
  - pose proof (probes_budgets_of now h (fun _ => true) _ _ _ Hp) as Hb.
    rewrite !budgets_of_all in Hb.
    unfold fragments_of in Hb.
    replace (filter (is_fragment_of (fun _ => true)) ev2) with ev2 in Hb; [exact Hb|].
    pose proof (probes_events _ _ _ _ _ Hp) as He. clear - He.
    induction He as [|e ev (f & w & -> & Hf) _ IH]; [reflexivity|].
    cbn [filter is_fragment_of].
    rewrite (serialize_fragment_value _ _ _ _ _ Hf).
    change (headers.FRAGMENT mod 256 =? headers.FRAGMENT) with true.
    cbn [andb]. now f_equal.
  - rewrite transmits_app, length_app. lia.
Qed.

(** X7.  In a handler with a nonzero [max_fragment_size] whose outgoing
    records own their transfers: after a pass of [main_task] at the time
    [now] no record of the outgoing table has been idle for longer than
    the drop time, and when the pass ends with a transmit slot free every
    record is settled at that time: out of retransmissions, or accessed
    within the retransmit time. *)
Theorem main_task_leaves_outgoing_settled :
  forall now h,
    max_fragment_size h <> 0 ->
    Forall owns (_outgoing_transfers h) ->
    exists h' ev,
      main_task link_write now h = Returns (h', ev)
      /\ Forall (fun r => older_than now (timestamp_accessed r) (_drop_time h) = false)
           (_outgoing_transfers h')
      /\ (can_transmit h' = true -> Forall (settled now h) (_outgoing_transfers h')).
Proof.
  intros now h _ Ho.
  destruct (main_task_loops now h Ho)
    as (inc & ev1 & st1 & out & ev2 & st2 & Hinc & Hout & Hp & ->).
  eexists _, _. split; [reflexivity|].
  destruct (outgoing_loop_facts _ _ _ _ _ _ _ _ Hout) as (H1 & H2 & _).
  cbn. split; [exact H1|]. intros Hc. now apply H2.
Qed.


(** X9.  In a handler with a nonzero [max_fragment_size] whose outgoing
    records own their transfers, what [main_task] retransmits of its own
    accord is the first fragment of an outgoing transfer and nothing
    else: every [FRAGMENT] among its events carries the fragment index
    1. *)
Theorem main_task_retransmits_first_fragments :
  forall now h,
    max_fragment_size h <> 0 ->
    Forall owns (_outgoing_transfers h) ->
    exists h' ev,
      main_task link_write now h = Returns (h', ev)
      /\ Forall (fun f =>
                   headers.type (headers.byte_copy (f_data f)) = headers.FRAGMENT ->
                   headers.fragment (headers.byte_copy (f_data f)) = 1)
           (transmits ev).
Proof.
  intros now h _ Ho.
  destruct (main_task_loops now h Ho)
    as (inc & ev1 & st1 & out & ev2 & st2 & Hinc & Hout & Hp & ->).
  eexists _, _. split; [reflexivity|].
  pose proof (incoming_loop_pass link_write now h (_interface_status h)
                (_incoming_transfers h)) as Hpass.
  rewrite Hinc in Hpass. cbn [fst snd] in Hpass.
  apply incoming_pass_facts in Hpass.
  destruct Hpass as (_ & _ & _ & _ & _ & _ & Hnf).
  destruct (probes_transmits _ _ _ _ _ Hp) as (_ & _ & _ & Hone).
  rewrite transmits_app. apply Forall_app. split.
  - eapply Forall_impl; [|exact Hnf]. intros f Hf Hty. contradiction.
  - eapply Forall_impl; [|exact Hone]. auto.
Qed.

End second_loop.

(** ** What a pass of [main_task] examines *)

Section pass_examines.

Variable link_write : status -> fragment -> status.

(** The first loop and the loop that records what it examines go the same
    way. *)
Lemma incoming_trace_passes now h st l :
  passes_over l (incoming_trace link_write now h st l)
    (fst (fst (incoming_loop link_write now h st l)))
  /\ map fst (incoming_trace link_write now h st l)
     = incoming_examined link_write now h st l
  /\ Forall (fun x => snd x = Erased -> due_for_erase now h (fst x) = true)
       (incoming_trace link_write now h st l).
Proof.
  unfold incoming_trace, incoming_examined, incoming_loop. revert st.
  induction l as [|r rest IH1 IH2] using list_ind_skip; intros st;
    cbn [incoming_walk].
  - repeat split; constructor.
  - destruct (incoming_body link_write now h st r) as [[v ev] st'] eqn:Hb.
    destruct v as [|r'].
    + assert (Hdue : due_for_erase now h r = true).
      { apply incoming_body_cases in Hb.
        destruct Hb as [(_ & _ & Hd)|[(E & _)|[(w & _ & _ & E & _)|(w & _ & _ & E & _)]]];
          [exact Hd | discriminate | discriminate | discriminate]. }
      destruct rest as [|r2 rest']; cbn [fst snd map].
      * repeat split; [constructor | constructor; [auto | constructor]].
      * destruct (IH2 r2 rest' eq_refl st') as (IHa & IHb & IHc).
        destruct (incoming_walk (incoming_body link_write now h) st' rest')
          as [[l1 e1] s1].
        destruct (incoming_walk _ st' rest') as [[l2 e2] s2] in IHa, IHb, IHc |- *.
        destruct (incoming_walk _ st' rest') as [[l3 e3] s3] in IHb |- *.
        cbn [keep after_events fst snd app map] in *.
        repeat split.
        -- now apply passes_over_erased.
        -- now f_equal.
        -- constructor; [auto | assumption].
    + destruct (IH1 st') as (IHa & IHb & IHc).
      destruct (incoming_walk (incoming_body link_write now h) st' rest)
        as [[l1 e1] s1].
      destruct (incoming_walk _ st' rest) as [[l2 e2] s2] in IHa, IHb, IHc |- *.
      destruct (incoming_walk _ st' rest) as [[l3 e3] s3] in IHb |- *.
      cbn [keep after_events fst snd app map] in *.
      repeat split.
      * now apply passes_over_kept.
      * now f_equal.
      * constructor; [discriminate | assumption].
Qed.

Lemma incoming_trace_all now h st l :
  Forall (fun r => due_for_erase now h r = false) l ->
  map fst (incoming_trace link_write now h st l) = l.
Proof.
  intros HF. revert st. unfold incoming_trace.
  induction HF as [|r rest Hr _ IH]; intros st; cbn [incoming_walk]; [reflexivity|].
  destruct (incoming_body link_write now h st r) as [[v ev] st'] eqn:Hb.
  destruct v as [|r'].
  - apply incoming_body_cases in Hb.
    destruct Hb as [(_ & _ & Hd)|[(E & _)|[(w & _ & _ & E & _)|(w & _ & _ & E & _)]]];
      congruence.
  - specialize (IH st').
    destruct (incoming_walk _ st' rest) as [[l2 e2] s2].
    cbn [keep after_events fst snd app map] in *. now f_equal.
Qed.

(** C3, amended.  A pass of [main_task], in a handler with a nonzero
    [max_fragment_size] whose outgoing records own their transfers.  Its
    second loop examines every record of the outgoing table.  Its first
    loop goes through the incoming table examining record after record,
    but for the record that directly follows a record it erases: that one
    it steps over, unexamined, and leaves in the table as it is.  It erases
    only records that are due for erasure, and when no record of the
    incoming table is due it examines them all. *)
Theorem main_task_examines :
  forall now h,
    max_fragment_size h <> 0 ->
    Forall owns (_outgoing_transfers h) ->
    let st := _interface_status h in
    let l := _incoming_transfers h in
    let o := _outgoing_transfers h in
    let trace := incoming_trace link_write now h st l in
    let st1 := snd (incoming_loop link_write now h st l) in
    exists h' ev e,
      main_task link_write now h = Returns (h', ev)
      /\ passes_over l trace (_incoming_transfers h')
      /\ map fst trace = incoming_examined link_write now h st l
      /\ Forall (fun x => snd x = Erased -> due_for_erase now h (fst x) = true) trace
      /\ (Forall (fun r => due_for_erase now h r = false) l -> map fst trace = l)
      /\ outgoing_examined link_write (outgoing_fuel h o) now h st1 o = Returns e
      /\ subsequence o e.
Proof.
  intros now h _ Ho st l o trace st1.
  destruct (main_task_loops link_write now h Ho)
    as (inc & ev1 & st1' & out & ev2 & st2 & Hinc & Hout & Hp & Hmain).
  destruct (incoming_trace_passes now h st l) as (Hpass & Hmap & Hdue).
  destruct (outgoing_examined_returns link_write now h st1 o Ho) as [e He].
  exists (set_status st2 (set_outgoing out (set_status st1' (set_incoming inc h)))),
    (ev1 ++ ev2), e.
  split; [exact Hmain|]. split.
  { fold st l in Hinc. rewrite Hinc in Hpass. exact Hpass. }
  split; [exact Hmap|]. split; [exact Hdue|]. split.
  { apply incoming_trace_all. }
  split; [exact He|].
  eapply outgoing_examined_subsequence; exact He.
Qed.

End pass_examines.

(** At the time 601 the record in grace at the head of the incoming table
    is erased; the complete transfer behind it is stepped over and stays;
    the third record and the outgoing record are examined. *)
Lemma main_task_examines_witness :
  let r1 := mk_progress None 0%Z 0 5 in
  let r2 := mk_progress (Some (mk_transfer [payload [1]] 0 600%Z 600%Z 6 5 2 9)) 600%Z 0 6 in
  let r3 := mk_progress (Some (mk_transfer [payload [1]; []] 0 600%Z 600%Z 8 7 3 9)) 600%Z 0 8 in
  let o := mk_progress (Some (outbound [payload [1; 2; 3]])) 600%Z 0 7 in
  let h := set_outgoing [o] (set_incoming [r1; r2; r3] (idle_handler 5 4 1)) in
  let st := _interface_status h in
  let trace := incoming_trace write_keeps_status 601%Z h st [r1; r2; r3] in
  let st1 := snd (incoming_loop write_keeps_status 601%Z h st [r1; r2; r3]) in
  trace = [(r1, Erased); (r3, Kept r3)]
  /\ exists h' ev e,
       main_task write_keeps_status 601%Z h = Returns (h', ev)
       /\ passes_over [r1; r2; r3] trace (_incoming_transfers h')
       /\ map fst trace = incoming_examined write_keeps_status 601%Z h st [r1; r2; r3]
       /\ Forall (fun x => snd x = Erased -> due_for_erase 601%Z h (fst x) = true) trace
       /\ (Forall (fun r => due_for_erase 601%Z h r = false) [r1; r2; r3] ->
           map fst trace = [r1; r2; r3])
       /\ outgoing_examined write_keeps_status (outgoing_fuel h [o]) 601%Z h st1 [o]
          = Returns e
       /\ subsequence [o] e.
Proof.
  cbv zeta. split; [reflexivity|].
  apply (main_task_examines write_keeps_status 601%Z
           (set_outgoing [mk_progress (Some (outbound [payload [1; 2; 3]])) 600%Z 0 7]
              (set_incoming
                 [mk_progress None 0%Z 0 5;
                  mk_progress (Some (mk_transfer [payload [1]] 0 600%Z 600%Z 6 5 2 9))
                    600%Z 0 6;
                  mk_progress (Some (mk_transfer [payload [1]; []] 0 600%Z 600%Z 8 7 3 9))
                    600%Z 0 8] (idle_handler 5 4 1)))).
  - discriminate.
  - constructor; [discriminate | constructor].
Defined.

(** ** What every call leaves *)

Lemma completion_ack_config h h' w :
  max_fragment_size h' = max_fragment_size h -> completion_ack h' w = completion_ack h w.
Proof. intros E. unfold completion_ack, make_header. now rewrite E. Qed.

Lemma acknowledged_config h h' ev :
  max_fragment_size h' = max_fragment_size h -> acknowledged h' ev -> acknowledged h ev.
Proof.
  intros E. induction 1 as [|w ev Hc _ IH|e ev He _ IH].
  - constructor.
  - rewrite (completion_ack_config h h' w E). now apply acknowledged_delivery.
  - now apply acknowledged_other.
Qed.

Lemma live_app l1 l2 : live (l1 ++ l2) = (live l1 + live l2)%nat.
Proof. unfold live. now rewrite transfers_of_app, length_app. Qed.

Lemma id_matches_with_tr now pos p w it :
  tr it = Some w -> id_matches it -> id_matches (with_tr (_assign now pos p w) it).
Proof.
  intros Hw Hid v. cbn [with_tr tr id]. intros [= <-]. cbn [_assign _id]. now apply Hid.
Qed.

Lemma effects_intro extra h h' ev :
  same_config h h' ->
  Forall (sized (max_fragment_size h)) (transmits ev) ->
  acknowledged h ev ->
  (length (delivered ev) + live (_incoming_transfers h')
   <= live (_incoming_transfers h) + extra)%nat ->
  (Forall id_matches (_incoming_transfers h) -> Forall id_matches (_incoming_transfers h')) ->
  (Forall id_matches (_outgoing_transfers h) -> Forall id_matches (_outgoing_transfers h')) ->
  effects extra h (h', ev).
Proof. unfold effects. cbn [fst snd]. auto 10. Qed.

Lemma effects_none extra h : effects extra h (h, []).
Proof.
  apply effects_intro;
    [apply same_config_refl | constructor | constructor | cbn; lia | auto | auto].
Qed.

Lemma Forall_replace {A : Type} (P : A -> Prop) before x y after :
  (P x -> P y) -> Forall P (before ++ x :: after) -> Forall P (before ++ y :: after).
Proof.
  intros Hxy HF. apply Forall_app in HF. destruct HF as [HF1 HF2].
  inversion_clear HF2 as [|? ? Hx HF3].
  apply Forall_app. split; [assumption|]. constructor; auto.
Qed.

Lemma Forall_remove {A : Type} (P : A -> Prop) before x after :
  Forall P (before ++ x :: after) -> Forall P (before ++ after).
Proof.
  intros HF. apply Forall_app in HF. destruct HF as [HF1 HF2].
  inversion_clear HF2 as [|? ? Hx HF3].
  apply Forall_app. split; assumption.
Qed.

Lemma acknowledged_transmit h f : acknowledged h [transmit_event f].
Proof. apply acknowledged_other; [reflexivity | constructor]. Qed.

Section effects_of_calls.

Variable fragment_ok : fragment -> bool.
Variable link_write : status -> fragment -> status.

Lemma handle_fragment_effects now hd p h :
  when_back (fun x => effects 1 h x /\ delivered (snd x) = [])
    (handle_fragment link_write now hd p h).
Proof.
  unfold handle_fragment.
  destruct (headers.type hd =? headers.FRAGMENT).
  - destruct (find_if _ _) as [[[before it] after]|] eqn:Hfind.
    + apply find_if_split in Hfind. destruct Hfind as (Hl & _ & _).
      destruct (tr it) as [w|] eqn:Hw.
      * cbn [when_back snd]. split; [|reflexivity].
        apply effects_intro; cbn [set_incoming _incoming_transfers _outgoing_transfers].
        -- repeat split.
        -- constructor.
        -- constructor.
        -- rewrite Hl, !live_app, !live_cons. cbn [with_tr tr]. rewrite Hw.
           cbn [delivered flat_map length]. lia.
        -- rewrite Hl. apply Forall_replace. now apply id_matches_with_tr.
        -- auto.
      * destruct (can_transmit h); [|split; [apply effects_none | reflexivity]].
        cbn [when_back snd]. split; [|reflexivity].
        apply effects_intro; cbn [set_status _incoming_transfers _outgoing_transfers].
        -- repeat split.
        -- cbn [transmits flat_map app]. constructor; [apply sized_header | constructor].
        -- apply acknowledged_transmit.
        -- cbn [delivered flat_map length app]. lia.
        -- auto.
        -- auto.
    + cbn [when_back snd new_progress tr]. split; [|reflexivity].
      apply effects_intro; cbn [set_incoming _incoming_transfers _outgoing_transfers].
      * repeat split.
      * constructor.
      * constructor.
      * rewrite live_app, live_cons. cbn [with_tr tr live transfers_of flat_map length].
        cbn [delivered flat_map length]. lia.
      * intros HF. apply Forall_app. split; [assumption|].
        constructor; [|constructor]. intros v. cbn [with_tr tr id]. intros [= <-].
        reflexivity.
      * auto.
  - destruct (find_if_tr _ _) as [[[[before [it w]] after]|]| | | |] eqn:Hfind;
      cbn [when_back]; auto; try (split; [apply effects_none | reflexivity]).
    apply find_if_tr_split in Hfind. destruct Hfind as (Hl & Hw & _ & _).
    destruct (_ && can_transmit h).
    + destruct (serialize_fragment _ _ _ _) as [f|what] eqn:Hf;
        [|split; [apply effects_none | reflexivity]].
      cbn [when_back snd]. split; [|reflexivity].
      apply effects_intro;
        cbn [set_status set_outgoing _incoming_transfers _outgoing_transfers].
      * repeat split.
      * cbn [transmits flat_map app]. constructor; [|constructor].
        eapply serialize_fragment_sized; eassumption.
      * apply acknowledged_transmit.
      * cbn [delivered flat_map length app]. lia.
      * auto.
      * rewrite Hl. apply Forall_replace. intros Hit v Hv. apply Hit. exact Hv.
    + destruct (headers.type hd =? headers.FRAGMENT_ACK);
        [|split; [apply effects_none | reflexivity]].
      cbn [when_back snd]. split; [|reflexivity].
      apply effects_intro; cbn [set_outgoing _incoming_transfers _outgoing_transfers].
      * repeat split.
      * constructor.
      * apply acknowledged_other; [reflexivity | constructor].
      * cbn [delivered flat_map length app]. lia.
      * auto.
      * rewrite Hl. apply Forall_remove.
Qed.

Lemma receive_callback_effects now p h :
  when_back (fun x => effects 1 h x /\ delivered (snd x) = [])
    (receive_callback fragment_ok link_write now p h).
Proof.
  unfold receive_callback.
  destruct (fragment_ok p && _); [|split; [apply effects_none | reflexivity]].
  destruct (headers.is_valid _); [|split; [apply effects_none | reflexivity]].
  pose proof (handle_fragment_effects now (headers.byte_copy (f_data p))
                (shrink_header p) h) as H.
  destruct (handle_fragment _ _ _ _ _) as [[h' ev]|what [h' ev]| | |];
    cbn [when_back] in *; auto.
Qed.

Lemma transmits_burst_events h t ev :
  Forall (fun e => exists f pos,
              e = transmit_event f
              /\ serialize_fragment h headers.FRAGMENT pos t = Value f) ev ->
  Forall (sized (max_fragment_size h)) (transmits ev)
  /\ delivered ev = []
  /\ acknowledged h ev.
Proof.
  induction 1 as [|e ev (f & pos & -> & Hf) _ (IH1 & IH2 & IH3)].
  - repeat split; constructor.
  - cbn [transmits delivered flat_map app]. repeat split.
    + constructor; [|exact IH1]. eapply serialize_fragment_sized; eassumption.
    + exact IH2.
    + apply acknowledged_other; [reflexivity | exact IH3].
Qed.

Lemma transmit_effects now t h :
  when_back (fun x => effects 0 h x /\ delivered (snd x) = [])
    (transmit link_write now t h).
Proof.
  unfold transmit.
  pose proof (transmit_loop_spec link_write h t
                (positions (_fragments_count (max_fragment_size h) t))
                (_interface_status h)) as H.
  destruct (transmit_loop _ _ _ _ _) as [[ev st]|what [ev st]| | |];
    try contradiction; destruct H as (_ & _ & H);
    destruct (transmits_burst_events h t ev H) as (H1 & H2 & H3);
    cbn [when_back snd]; (split; [|exact H2]);
    (apply effects_intro;
     cbn [set_outgoing set_status _incoming_transfers _outgoing_transfers];
     [ repeat split
     | exact H1
     | exact H3
     | rewrite H2; cbn [length]; lia
     | auto
     | intros HF; apply Forall_app; split; [assumption|];
       constructor; [|constructor]; intros v;
       cbn [transmit_done new_progress tr id]; intros [= <-]; reflexivity ]).
Qed.

Lemma probes_expired now h l l' ev :
  probes now h l l' ev -> expired (fun _ => True) same_record l l'.
Proof.
  induction 1 as [|r l l' ev _ IH|r l l' ev _ IH|r w f l l' ev Hw Hlt Hf _ IH].
  - constructor.
  - now apply expired_erase.
  - apply expired_keep; [apply same_record_refl | assumption].
  - inversion IH as [|? ? ? _ Hrest|? r'' ? l'' [Hid Htr] Hrest]; subst.
    + now apply expired_erase.
    + apply expired_keep; [|assumption]. split; assumption.
Qed.

Lemma id_matches_same_record r r' : same_record r r' -> id_matches r -> id_matches r'.
Proof.
  intros [Hid [Htr|Htr]] Hr v; rewrite Htr, Hid; [apply Hr | discriminate].
Qed.

Lemma main_task_effects now h :
  when_back (fun x => effects 0 h x) (main_task link_write now h).
Proof.
  unfold main_task.
  pose proof (incoming_loop_pass link_write now h (_interface_status h)
                (_incoming_transfers h)) as Hpass.
  destruct (incoming_loop _ _ _ _ _) as [[inc ev1] st1]. cbn [fst snd] in Hpass.
  apply incoming_pass_facts in Hpass.
  destruct Hpass as (He & Ha & Hs & _ & Hd & _ & _).
  pose proof (outgoing_loop_spec link_write
                (outgoing_fuel h (_outgoing_transfers h)) now h st1
                (_outgoing_transfers h)) as Hout.
  specialize (Hout ltac:(unfold outgoing_fuel; lia)).
  destruct (outgoing_loop _ _ _ _ _ _) as [[[out ev2] st2]| | | |];
    try contradiction; cbn [when_back]; auto.
  destruct (probes_transmits _ _ _ _ _ Hout) as (_ & Hd2 & Hs2 & _).
  apply effects_intro;
    cbn [set_status set_outgoing set_incoming _incoming_transfers _outgoing_transfers].
  - repeat split.
  - rewrite transmits_app. now apply Forall_app.
  - apply acknowledged_app; [assumption|].
    clear - Hout. apply probes_events in Hout.
    induction Hout as [|e ev (f & w & -> & _) _ IH]; [constructor|].
    apply acknowledged_other; [reflexivity | assumption].
  - rewrite delivered_app, length_app, Hd2. cbn [length]. lia.
  - eapply expired_Forall; [exact id_matches_same_record | exact He].
  - eapply expired_Forall; [exact id_matches_same_record|].
    eapply probes_expired; eassumption.
Qed.

Lemma exec_effects c h :
  when_back
    (fun x => effects (match c with call_receive _ _ => 1 | _ => 0 end) h x
              /\ (delivered (snd x) <> [] -> exists now, c = call_main_task now))
    (exec fragment_ok link_write c h).
Proof.
  destruct c as [now p|now t|now|st]; cbn [exec].
  - eapply when_back_impl; [|apply receive_callback_effects].
    intros x [H1 H2]. split; [exact H1 | congruence].
  - eapply when_back_impl; [|apply transmit_effects].
    intros x [H1 H2]. split; [exact H1 | congruence].
  - eapply when_back_impl; [|apply main_task_effects].
    intros x H1. split; [exact H1 | eauto].
  - cbn [when_back snd]. split; [|intros H; now contradiction H].
    apply effects_intro;
      cbn [interface_status_callback set_status _incoming_transfers _outgoing_transfers];
      [repeat split | constructor | constructor | cbn; lia | auto | auto].
Qed.

Lemma events_in_cons c ev log : events_in ((c, ev) :: log) = ev ++ events_in log.
Proof. reflexivity. Qed.

Lemma receptions_cons c ev log :
  receptions ((c, ev) :: log)
  = ((match c with call_receive _ _ => 1 | _ => 0 end) + receptions log)%nat.
Proof. unfold receptions. cbn [filter fst]. now destruct c. Qed.

Lemma same_config_trans h1 h2 h3 :
  same_config h1 h2 -> same_config h2 h3 -> same_config h1 h3.
Proof.
  intros (? & ? & ? & ? & ?) (? & ? & ? & ? & ?). repeat split; congruence.
Qed.

(** What a run leaves, from the effects of its calls. *)
Lemma run_effects cs h :
  let '(h', log) := run fragment_ok link_write cs h in
  same_config h h'
  /\ Forall (fun x => Forall (sized (max_fragment_size h)) (transmits (snd x))
                      /\ acknowledged h (snd x)
                      /\ (delivered (snd x) <> [] -> exists now, fst x = call_main_task now))
       log
  /\ (length (delivered (events_in log)) + live (_incoming_transfers h')
      <= live (_incoming_transfers h) + receptions log)%nat
  /\ (Forall id_matches (_incoming_transfers h) ->
      Forall id_matches (_incoming_transfers h'))
  /\ (Forall id_matches (_outgoing_transfers h) ->
      Forall id_matches (_outgoing_transfers h')).
Proof.
  revert h. induction cs as [|c cs IH]; intros h; cbn [run].
  { split; [apply same_config_refl|]. split; [constructor|].
    split; [cbn; lia|]. auto. }
  assert (Hstop : same_config h h
                  /\ Forall (fun x => Forall (sized (max_fragment_size h)) (transmits (snd x))
                                      /\ acknowledged h (snd x)
                                      /\ (delivered (snd x) <> [] ->
                                          exists now, fst x = call_main_task now))
                       (@nil (call * list event))
                  /\ (length (delivered (events_in [])) + live (_incoming_transfers h)
                      <= live (_incoming_transfers h) + receptions [])%nat
                  /\ (Forall id_matches (_incoming_transfers h) ->
                      Forall id_matches (_incoming_transfers h))
                  /\ (Forall id_matches (_outgoing_transfers h) ->
                      Forall id_matches (_outgoing_transfers h))).
  { split; [apply same_config_refl|]. split; [constructor|].
    split; [cbn; lia|]. auto. }
  assert (Hstep : forall h1 ev,
             effects (match c with call_receive _ _ => 1 | _ => 0 end) h (h1, ev)
             /\ (delivered ev <> [] -> exists now, c = call_main_task now) ->
             let '(h', log0) := run fragment_ok link_write cs h1 in
             let log := (c, ev) :: log0 in
             same_config h h'
             /\ Forall (fun x => Forall (sized (max_fragment_size h)) (transmits (snd x))
                                 /\ acknowledged h (snd x)
                                 /\ (delivered (snd x) <> [] ->
                                     exists now, fst x = call_main_task now))
                  log
             /\ (length (delivered (events_in log)) + live (_incoming_transfers h')
                 <= live (_incoming_transfers h) + receptions log)%nat
             /\ (Forall id_matches (_incoming_transfers h) ->
                 Forall id_matches (_incoming_transfers h'))
             /\ (Forall id_matches (_outgoing_transfers h) ->
                 Forall id_matches (_outgoing_transfers h'))).
  { intros h1 ev [(Hcfg & Hs & Ha & Hd & Hi & Ho) Hm]. cbn [fst snd] in *.
    specialize (IH h1). destruct (run fragment_ok link_write cs h1) as [h' log].
    destruct IH as (Hcfg' & Hlog & Hd' & Hi' & Ho'). cbv zeta.
    assert (Hsize : max_fragment_size h1 = max_fragment_size h) by apply Hcfg.
    split; [eapply same_config_trans; eassumption|]. split; [|split; [|split]].
    - constructor; [cbn [fst snd]; auto|].
      eapply Forall_impl; [|exact Hlog].
      intros x (Hx1 & Hx2 & Hx3). rewrite Hsize in Hx1.
      split; [exact Hx1|]. split; [|exact Hx3].
      eapply acknowledged_config; [|exact Hx2]. exact Hsize.
    - rewrite events_in_cons, delivered_app, length_app, receptions_cons. lia.
    - auto.
    - auto. }
  clear IH.
  pose proof (exec_effects c h) as Hc.
  destruct (exec fragment_ok link_write c h) as [[h1 ev]|what [h1 ev]| | |];
    cbn [when_back] in Hc; try exact Hstop.
  - specialize (Hstep h1 ev Hc).
    destruct (run fragment_ok link_write cs h1) as [h' log]. exact Hstep.
  - specialize (Hstep h1 ev Hc).
    destruct (run fragment_ok link_write cs h1) as [h' log]. exact Hstep.
Qed.

(** X10.  No fragment of a run is longer than the handler was told: a
    handler constructed for fragments of [max_fragment_size] bytes, more
    than a header, keeps the bytes the header leaves for the pieces of the
    data, and every fragment that [receive_callback], [transmit] and
    [main_task] hand to [transmit_event] has [max_fragment_size] bytes at
    most, its header included.  In any handler the bound is the size of the
    header and [max_fragment_size()]. *)
Theorem emitted_fragments_fit_the_link :
  forall size_bits st iid size retransmit_time drop_time multiplier cs,
    N.of_nat headers.sizeof < size < 2 ^ size_bits ->
    let h := new_handler size_bits st iid size retransmit_time drop_time multiplier in
    max_fragment_size h = size - N.of_nat headers.sizeof
    /\ max_fragment_size h <> 0
    /\ Forall (fun f => N.of_nat (length (f_data f)) <= size)
         (transmits (events_in (snd (run fragment_ok link_write cs h))))
    /\ (forall h0,
          max_fragment_size h0 <> 0 ->
          Forall (sized (max_fragment_size h0))
            (transmits (events_in (snd (run fragment_ok link_write cs h0))))).
Proof.
  intros size_bits st iid size rt dt mult cs Hsize h.
  assert (Hall : forall h0,
             Forall (sized (max_fragment_size h0))
               (transmits (events_in (snd (run fragment_ok link_write cs h0))))).
  { intros h0. pose proof (run_effects cs h0) as H.
    destruct (run fragment_ok link_write cs h0) as [h' log]. cbn [snd].
    destruct H as (_ & Hlog & _). clear - Hlog.
    induction Hlog as [|[c ev] log (Hx & _) _ IH]; [constructor|].
    rewrite events_in_cons, transmits_app. apply Forall_app. auto. }
  assert (Hm : max_fragment_size h = size - N.of_nat headers.sizeof).
  { unfold h, new_handler, max_fragment_size, size_type. cbn [_max_fragment_size].
    assert (Hp : (Z.of_N size < 2 ^ Z.of_N size_bits)%Z).
    { change 2%Z with (Z.of_N 2). rewrite <- N2Z.inj_pow. lia. }
    rewrite Z.mod_small by lia. lia. }
  split; [exact Hm|]. split; [lia|]. split; [|intros h0 _; apply Hall].
  eapply Forall_impl; [|apply (Hall h)].
  intros f Hf. unfold sized in Hf. rewrite Hm in Hf. lia.
Qed.

(** X11.  A transfer reaches [transfer_receive_event] only from
    [main_task], only with all its slots filled, and only right after the
    [FRAGMENT_ACK] for it has been handed to [transmit_event]. *)
Theorem delivered_transfers_are_complete_and_acknowledged :
  forall cs h,
    max_fragment_size h <> 0 ->
    Forall (fun x => acknowledged h (snd x)
                     /\ (delivered (snd x) <> [] -> exists now, fst x = call_main_task now))
      (snd (run fragment_ok link_write cs h)).
Proof.
  intros cs h _. pose proof (run_effects cs h) as H.
  destruct (run fragment_ok link_write cs h) as [h' log]. cbn [snd].
  destruct H as (_ & Hlog & _).
  eapply Forall_impl; [|exact Hlog]. intros x (_ & H2 & H3). auto.
Qed.

(** X12.  No incoming transfer is delivered twice: a
    [transfer_receive_event] takes the transfer from its record, so in any
    run the transfers delivered and the transfers still in the incoming
    table are together at most those the table began with and one for each
    call of [receive_callback]. *)
Theorem incoming_transfers_delivered_at_most_once :
  forall cs h,
    max_fragment_size h <> 0 ->
    let '(h', log) := run fragment_ok link_write cs h in
    (length (delivered (events_in log)) + live (_incoming_transfers h')
     <= live (_incoming_transfers h) + receptions log)%nat.
Proof.
  intros cs h _. pose proof (run_effects cs h) as H.
  destruct (run fragment_ok link_write cs h) as [h' log]. apply H.
Qed.

(** X13.  The id of a record is the id of the transfer it owns: what the
    comment at [transfer_progress::id] asks for holds in every state a run
    reaches from tables in which it holds, so a record in grace is looked
    up by the id its transfer had. *)
Theorem record_id_matches_transfer_id :
  forall cs h,
    max_fragment_size h <> 0 ->
    Forall id_matches (_incoming_transfers h) ->
    Forall id_matches (_outgoing_transfers h) ->
    let h' := fst (run fragment_ok link_write cs h) in
    Forall id_matches (_incoming_transfers h')
    /\ Forall id_matches (_outgoing_transfers h').
Proof.
  intros cs h _ Hi Ho. pose proof (run_effects cs h) as H.
  destruct (run fragment_ok link_write cs h) as [h' log]. cbn [fst].
  destruct H as (_ & _ & _ & Hi' & Ho'). auto.
Qed.

End effects_of_calls.

(** ** The acknowledgement of a complete transfer *)

Lemma ceil_div_below d m n : m <> 0 -> (ceil_div d m < n <-> d + m <= n * m).
Proof.
  intros Hm. unfold ceil_div. split.
  - intros H.
    pose proof (N.div_mod (d + m - 1) m Hm) as Hd.
    pose proof (N.mod_upper_bound (d + m - 1) m Hm) as Hr.
    nia.
  - intros H. apply N.Div0.div_lt_upper_bound; lia.
Qed.

Lemma completion_ack_count h w :
  max_fragment_size h <> 0 -> _is_complete w = true ->
  completion_ack h w
  = fragment_to (_source w)
      (headers.to_bytes
         (headers.construct headers.FRAGMENT_ACK
            (ceil_div (data_size w) (max_fragment_size h))
            (ceil_div (data_size w) (max_fragment_size h)) (_id w) (_prev_id w))).
Proof.
  intros Hm Hc. unfold completion_ack, make_header.
  now rewrite _fragments_count_complete.
Qed.

Lemma acknowledged_In h ev w :
  acknowledged h ev -> In (transfer_receive_event w) ev ->
  _is_complete w = true /\ In (transmit_event (completion_ack h w)) ev.
Proof.
  induction 1 as [|w0 ev Hc _ IH|e ev He _ IH]; intros Hin.
  - contradiction.
  - destruct Hin as [Hin|[Hin|Hin]]; [discriminate | |].
    + injection Hin as <-. split; [exact Hc | now left].
    + destruct (IH Hin) as [H1 H2]. split; [exact H1 | right; now right].
  - destruct Hin as [Hin|Hin].
    + subst e. discriminate.
    + destruct (IH Hin) as [H1 H2]. split; [exact H1 | now right].
Qed.

Section completion.

Variable link_write : status -> fragment -> status.

(** C10.  For a transfer whose slots are all filled [_fragments_count()]
    is the ceiling of the data size divided by [max_fragment_size], not
    the number of slots the transfer was created with: it is less than the
    number of slots exactly when the data would fit in one slot less.
    [main_task], in a handler with a nonzero [max_fragment_size] whose
    outgoing records own their transfers and with a transmit slot free,
    emits for a complete transfer at the head of the incoming table the
    [FRAGMENT_ACK] that carries this count, as its fragment index and as
    its total, and then hands the transfer to [transfer_receive_event];
    every other transfer that the pass delivers is acknowledged with its
    recomputed count as well.  The number of slots of a transfer that the
    receive path creates is the [fragments_total] of the header that
    created it. *)
Theorem completion_ack_recomputes_count :
  forall now h r rest w,
    max_fragment_size h <> 0 ->
    Forall owns (_outgoing_transfers h) ->
    _incoming_transfers h = r :: rest ->
    tr r = Some w ->
    _is_complete w = true ->
    can_transmit h = true ->
    let m := max_fragment_size h in
    let slots := N.of_nat (length (_data w)) in
    let count := ceil_div (data_size w) m in
    let ack_for (w' : transfer) :=
      fragment_to (_source w')
        (headers.to_bytes
           (headers.construct headers.FRAGMENT_ACK
              (ceil_div (data_size w') m) (ceil_div (data_size w') m)
              (_id w') (_prev_id w'))) in
    _fragments_count m w = count
    /\ (count < slots <-> data_size w + m <= slots * m)
    /\ (forall t0 iid hd i p,
          N.of_nat (length (_data (_assign t0 i p (transfer_new t0 iid hd))))
          = headers.fragments_total hd)
    /\ headers.byte_copy (f_data (ack_for w))
       = headers.mk_header headers.FRAGMENT_ACK (count mod 256) (count mod 256)
           (_id w mod 65536) (_prev_id w mod 65536)
    /\ exists h' ev rest',
         main_task link_write now h
         = Returns (h', transmit_event (ack_for w) :: transfer_receive_event w :: ev)
         /\ _incoming_transfers h' = reset r :: rest'
         /\ forall w', In (transfer_receive_event w') ev ->
                       _is_complete w' = true
                       /\ In (transmit_event (ack_for w')) ev.
Proof.
  intros now h r rest w Hm Ho Hinc Hw Hc Hcan m slots count ack_for.
  assert (Hcount : _fragments_count m w = count)
    by now apply _fragments_count_complete.
  split; [exact Hcount|]. split; [now apply ceil_div_below|]. split.
  { intros t0 iid hd i p. rewrite _assign_slots, transfer_new_slots. apply N2Nat.id. }
  split.
  { unfold ack_for, fragment_to. cbn [f_data].
    rewrite <- (app_nil_r (headers.to_bytes _)), byte_copy_construct.
    reflexivity. }
  pose proof (main_task_effects link_write now h) as Heff.
  destruct (main_task_loops link_write now h Ho)
    as (inc & ev1 & st1 & out & ev2 & st2 & Hloop & Hout & Hp & Hmain).
  rewrite Hmain in Heff |- *. cbn [when_back] in Heff.
  destruct Heff as (_ & _ & Hack & _). cbn [snd] in Hack.
  revert Hloop. rewrite Hinc. unfold incoming_loop. cbn [incoming_walk].
  unfold incoming_body at 1. rewrite Hw, Hc. unfold can_transmit in Hcan.
  rewrite Hcan. cbn [andb].
  fold (completion_ack h w). rewrite (completion_ack_count h w Hm Hc).
  fold m. fold (ack_for w).
  destruct (incoming_walk (incoming_body link_write now h) _ rest)
    as [[l' ev'] st'] eqn:Hwalk.
  cbn [keep after_events app]. intros [= <- <- <-].
  exists (set_status st2 (set_outgoing out (set_status st' (set_incoming (reset r :: l') h)))),
    (ev' ++ ev2), l'.
  split; [reflexivity|]. split; [reflexivity|].
  intros w' Hin. cbn [app] in Hack.
  assert (Hack' : acknowledged h (ev' ++ ev2)).
  { inversion Hack as [|w0 ev0 Hc0 Hrest E|e ev0 He Hrest E]; subst.
    - exact Hrest.
    - inversion Hrest as [| |e' ev1' He' Hrest' E']; subst. discriminate. }
  destruct (acknowledged_In h _ w' Hack' Hin) as [Hc' Hin'].
  split; [exact Hc'|]. unfold ack_for, m.
  rewrite <- (completion_ack_count h w' Hm Hc'). exact Hin'.
Qed.

End completion.

(** Three fragments of one byte each arrive for a transfer of three
    slots; with room for four bytes in a fragment the acknowledgement
    says one fragment, not three. *)
Lemma completion_ack_recomputes_count_witness :
  let w := mk_transfer [payload [1]; payload [2]; payload [3]] 0 0%Z 0%Z 5 4 1 9 in
  let r := mk_progress (Some w) 0%Z 0 5 in
  let h := set_incoming [r; mk_progress None 0%Z 0 3] (idle_handler 5 4 1) in
  let ack_for (w' : transfer) :=
    fragment_to (_source w')
      (headers.to_bytes
         (headers.construct headers.FRAGMENT_ACK
            (ceil_div (data_size w') 4) (ceil_div (data_size w') 4)
            (_id w') (_prev_id w'))) in
  _fragments_count 4 w = ceil_div (data_size w) 4
  /\ (ceil_div (data_size w) 4 < N.of_nat (length (_data w))
      <-> data_size w + 4 <= N.of_nat (length (_data w)) * 4)
  /\ (forall t0 iid hd i p,
        N.of_nat (length (_data (_assign t0 i p (transfer_new t0 iid hd))))
        = headers.fragments_total hd)
  /\ headers.byte_copy (f_data (ack_for w))
     = headers.mk_header headers.FRAGMENT_ACK (ceil_div (data_size w) 4 mod 256)
         (ceil_div (data_size w) 4 mod 256) (_id w mod 65536) (_prev_id w mod 65536)
  /\ exists h' ev rest',
       main_task write_keeps_status 1%Z h
       = Returns (h', transmit_event (ack_for w) :: transfer_receive_event w :: ev)
       /\ _incoming_transfers h' = reset r :: rest'
       /\ forall w', In (transfer_receive_event w') ev ->
                     _is_complete w' = true
                     /\ In (transmit_event (ack_for w')) ev.
Proof.
  apply (completion_ack_recomputes_count write_keeps_status 1%Z
           (set_incoming
              [mk_progress (Some (mk_transfer [payload [1]; payload [2]; payload [3]]
                                    0 0%Z 0%Z 5 4 1 9)) 0%Z 0 5;
               mk_progress None 0%Z 0 3] (idle_handler 5 4 1))
           (mk_progress (Some (mk_transfer [payload [1]; payload [2]; payload [3]]
                                 0 0%Z 0%Z 5 4 1 9)) 0%Z 0 5)
           [mk_progress None 0%Z 0 3]
           (mk_transfer [payload [1]; payload [2]; payload [3]] 0 0%Z 0%Z 5 4 1 9));
    first [discriminate | reflexivity | constructor].
Defined.

(** ** Flow control *)






Section guards.

Variable fragment_ok : fragment -> bool.
Variable link_write : status -> fragment -> status.









(** *** What later passes send *)



(** *** While no transmit slot is free *)







End guards.



(** ** From [transmit] at one handler to [transfer_ack_event] *)

Lemma set_slot_app (A B : list bytes) x y :
  set_slot (length A) x (A ++ y :: B) = A ++ x :: B.
Proof. induction A as [|a A IH]; simpl; [reflexivity | now rewrite IH]. Qed.

Lemma length_slots_after m d n k : (k <= n)%nat -> length (slots_after m d n k) = n.
Proof.
  intros Hk. unfold slots_after.
  rewrite length_app, !length_map, length_seq, repeat_length. lia.
Qed.

Lemma slots_after_next m d n k :
  (k < n)%nat ->
  let A := map (chunk m d) (map N.of_nat (seq 1 k)) in
  length A = k
  /\ slots_after m d n k = A ++ [] :: repeat [] (n - S k)
  /\ slots_after m d n (S k) = A ++ chunk m d (N.of_nat (S k)) :: repeat [] (n - S k).
Proof.
  intros Hk A. unfold slots_after. fold A. split; [|split].
  - unfold A. now rewrite !length_map, length_seq.
  - replace (n - k)%nat with (S (n - S k)) by lia. reflexivity.
  - rewrite seq_S, !map_app. fold A. cbn [map]. rewrite <- app_assoc. reflexivity.
Qed.

Lemma slots_after_all m d n :
  slots_after m d n n = map (chunk m d) (positions (N.of_nat n)).
Proof.
  unfold slots_after, positions. rewrite Nat.sub_diag, Nat2N.id. apply app_nil_r.
Qed.

Lemma assign_next now m d iid tc i p src dst n k f :
  (k < n)%nat ->
  f_data f = chunk m d (N.of_nat (S k)) ->
  _assign now (N.of_nat (S k)) f
    (mk_transfer (slots_after m d n k) iid tc now i p src dst)
  = mk_transfer (slots_after m d n (S k)) iid tc now i p (f_source f) (f_destination f).
Proof.
  intros Hk Hf. destruct (slots_after_next m d n k Hk) as (HA & Hk0 & Hk1).
  unfold _assign. cbn [_data _interface_id _timestamp_creation _timestamp_modified
                          _id _prev_id].
  rewrite length_slots_after by lia.
  replace (N.to_nat (N.of_nat (S k) - 1)) with k by lia.
  assert (Hin : (1 <=? N.of_nat (S k)) && (N.of_nat (S k) <=? N.of_nat n) = true).
  { apply andb_true_iff. split; apply N.leb_le; lia. }
  rewrite Hin. cbn [andb]. f_equal.
  - rewrite Hk0, Hk1, Hf. rewrite <- HA at 1. apply set_slot_app.
  - now destruct (is_empty _).
Qed.

Section round_trip.

Variable fragment_ok : fragment -> bool.
Variable link_write : status -> fragment -> status.

Variables (hA hB : fragmentation_handler) (t : transfer).

Hypothesis usable : forall f, fragment_ok f = true.
Hypothesis size_not_zero : max_fragment_size hA <> 0.
Hypothesis complete : _is_complete t = true.
Hypothesis count_fits : _fragments_count (max_fragment_size hA) t < 256.
Hypothesis id_fits : _id t < 65536.
Hypothesis prev_id_fits : _prev_id t < 65536.

(** The header of a fragment of [t] as the peer reads it. *)
Lemma fragment_header ty pos (c : bytes) :
  ty < 256 -> pos < 256 ->
  headers.byte_copy (headers.to_bytes (make_header hA ty pos t) ++ c)
  = headers.mk_header ty pos (_fragments_count (max_fragment_size hA) t)
      (_id t) (_prev_id t).
Proof.
  intros Hty Hpos. unfold make_header. rewrite byte_copy_construct.
  unfold headers.construct. now rewrite !N.mod_small by assumption.
Qed.

(** The fragment of [t] at the position [pos], as the interface of the
    source hands it to the peer. *)
Lemma received_fragment pos :
  1 <= pos <= _fragments_count (max_fragment_size hA) t ->
  let f := sent_from (_source t)
             (fragment_to (_destination t)
                (headers.to_bytes (make_header hA headers.FRAGMENT pos t)
                 ++ chunk (max_fragment_size hA) (data_bytes t) pos)) in
  let hd := headers.mk_header headers.FRAGMENT pos
              (_fragments_count (max_fragment_size hA) t) (_id t) (_prev_id t) in
  forall now h,
    receive_callback fragment_ok link_write now f h
    = handle_fragment link_write now hd
        (mk_fragment (_source t) (_destination t)
           (chunk (max_fragment_size hA) (data_bytes t) pos)) h.
Proof.
  intros Hpos f hd now h. unfold receive_callback. rewrite usable.
  assert (Hlen : (headers.sizeof <=? length (f_data f))%nat = true).
  { apply Nat.leb_le. unfold f, sent_from, fragment_to. cbn [f_data].
    rewrite length_app, length_to_bytes. lia. }
  rewrite Hlen. cbn [andb].
  assert (Hhd : headers.byte_copy (f_data f) = hd).
  { unfold f, sent_from, fragment_to. cbn [f_data].
    apply fragment_header; [reflexivity | lia]. }
  rewrite Hhd.
  assert (Hvalid : headers.is_valid hd = true).
  { unfold headers.is_valid, hd.
    cbn [headers.type headers.fragment headers.fragments_total].
    cbn [N.eqb Pos.eqb headers.FRAGMENT orb andb].
    rewrite !andb_true_iff, !N.leb_le. lia. }
  rewrite Hvalid.
  assert (Hshrink : shrink_header f
                    = mk_fragment (_source t) (_destination t)
                        (chunk (max_fragment_size hA) (data_bytes t) pos)).
  { unfold shrink_header, f, sent_from, fragment_to.
    cbn [f_source f_destination f_data]. reflexivity. }
  rewrite Hshrink.
  destruct (handle_fragment link_write now hd _ h) as [x|what x| | |] eqn:E;
    try reflexivity.
  exfalso. revert E. unfold handle_fragment. cbn [headers.type hd].
  cbn [N.eqb Pos.eqb headers.FRAGMENT].
  destruct (find_if _ _) as [[[before it] after]|]; [|discriminate].
  destruct (tr it); [discriminate|]. destruct (can_transmit h); discriminate.
Qed.

(** The handler of the peer while the fragments arrive. *)
Lemma first_fragment_opens now n :
  _incoming_transfers hB = [] ->
  N.of_nat n = _fragments_count (max_fragment_size hA) t ->
  (1 <= n)%nat ->
  let hd := headers.mk_header headers.FRAGMENT 1
              (_fragments_count (max_fragment_size hA) t) (_id t) (_prev_id t) in
  handle_fragment link_write now hd
    (mk_fragment (_source t) (_destination t)
       (chunk (max_fragment_size hA) (data_bytes t) 1)) hB
  = Returns (set_incoming
               [mk_progress (Some (arriving now hB (max_fragment_size hA) t n 1))
                  now 0 (_id t)] hB, []).
Proof.
  intros Hinc Hn Hn1 hd. unfold handle_fragment. cbn [headers.type hd].
  cbn [N.eqb Pos.eqb headers.FRAGMENT]. rewrite Hinc. cbn [find_if app].
  unfold with_tr, new_progress, transfer_new, hd.
  cbn [tr timestamp_accessed retransmitions id _id
         headers.fragments_total headers.get_id headers.get_prev_id headers.fragment].
  rewrite <- Hn, Nat2N.id.
  change 1 with (N.of_nat 1).
  replace (repeat [] n) with (slots_after (max_fragment_size hA) (data_bytes t) n 0)
    by (unfold slots_after; cbn [seq map app]; now rewrite Nat.sub_0_r).
  rewrite (assign_next now (max_fragment_size hA) (data_bytes t)) by (try reflexivity; lia).
  reflexivity.
Qed.

Lemma next_fragment_fills now n k :
  N.of_nat n = _fragments_count (max_fragment_size hA) t ->
  (1 <= k < n)%nat ->
  let hd := headers.mk_header headers.FRAGMENT (N.of_nat (S k))
              (_fragments_count (max_fragment_size hA) t) (_id t) (_prev_id t) in
  handle_fragment link_write now hd
    (mk_fragment (_source t) (_destination t)
       (chunk (max_fragment_size hA) (data_bytes t) (N.of_nat (S k))))
    (set_incoming
       [mk_progress (Some (arriving now hB (max_fragment_size hA) t n k)) now 0 (_id t)] hB)
  = Returns (set_incoming
               [mk_progress (Some (arriving now hB (max_fragment_size hA) t n (S k)))
                  now 0 (_id t)] hB, []).
Proof.
  intros Hn Hk hd. unfold handle_fragment. cbn [headers.type hd].
  cbn [N.eqb Pos.eqb headers.FRAGMENT].
  unfold hd, set_incoming at 1, arriving at 1.
  cbn [_incoming_transfers find_if]. unfold incoming_match, transfer_match.
  cbn [tr _id headers.get_id f_source f_destination _source _destination].
  rewrite !N.eqb_refl. cbn [andb tr app]. unfold with_tr.
  cbn [tr timestamp_accessed retransmitions id headers.fragment].
  rewrite (assign_next now (max_fragment_size hA) (data_bytes t)) by (try reflexivity; lia).
  reflexivity.
Qed.

(** The peer after the fragments of the positions [k + 1 .. k + r]. *)
Lemma rest_arrives now n r :
  N.of_nat n = _fragments_count (max_fragment_size hA) t ->
  forall k,
    (1 <= k)%nat -> (k + r <= n)%nat ->
    let fs := map (fun pos =>
                     sent_from (_source t)
                       (fragment_to (_destination t)
                          (headers.to_bytes (make_header hA headers.FRAGMENT pos t)
                           ++ chunk (max_fragment_size hA) (data_bytes t) pos)))
                (map N.of_nat (seq (S k) r)) in
    run fragment_ok link_write (map (call_receive now) fs)
      (set_incoming
         [mk_progress (Some (arriving now hB (max_fragment_size hA) t n k)) now 0 (_id t)] hB)
    = (set_incoming
         [mk_progress (Some (arriving now hB (max_fragment_size hA) t n (k + r)))
            now 0 (_id t)] hB,
       map (fun f => (call_receive now f, [])) fs).
Proof.
  intros Hn. induction r as [|r IH]; intros k Hk Hkr; cbv zeta.
  - cbn [seq map run]. now rewrite Nat.add_0_r.
  - cbn [seq map run exec].
    rewrite received_fragment by lia.
    rewrite next_fragment_fills by (try assumption; lia).
    specialize (IH (S k) ltac:(lia) ltac:(lia)). cbv zeta in IH.
    rewrite IH. replace (S k + r)%nat with (k + S r)%nat by lia. reflexivity.
Qed.

(** The peer after all the fragments of the burst. *)
Lemma burst_arrives now :
  _incoming_transfers hB = [] ->
  data_size t <> 0 ->
  let n := N.to_nat (_fragments_count (max_fragment_size hA) t) in
  let fs := map (sent_from (_source t)) (burst hA t) in
  run fragment_ok link_write (map (call_receive now) fs) hB
  = (set_incoming
       [mk_progress (Some (arriving now hB (max_fragment_size hA) t n n)) now 0 (_id t)] hB,
     map (fun f => (call_receive now f, [])) fs).
Proof.
  intros Hinc Hd n fs.
  assert (Hn : N.of_nat n = _fragments_count (max_fragment_size hA) t)
    by (unfold n; apply N2Nat.id).
  assert (Hn1 : (1 <= n)%nat).
  { pose proof (count_covers (data_size t) (max_fragment_size hA) size_not_zero) as Hc.
    cbv zeta in Hc. destruct Hc as [_ Hc]. destruct (Hc Hd) as [Hc1 _].
    unfold _fragments_count in Hn. rewrite complete in Hn. lia. }
  unfold fs. rewrite burst_complete by assumption. rewrite map_map.
  unfold positions. fold n.
  destruct n as [|n']; [lia|]. cbn [seq map run exec].
  rewrite (received_fragment (N.of_nat 1)) by lia.
  change (N.of_nat 1) with 1.
  rewrite (first_fragment_opens now (S n')) by (try assumption; lia).
  pose proof (rest_arrives now (S n') n' Hn 1%nat ltac:(lia) ltac:(lia)) as Hrest.
  cbv zeta in Hrest. rewrite !map_map in Hrest. rewrite !map_map.
  cbv beta in Hrest |- *. rewrite Hrest. reflexivity.
Qed.

(** What has arrived when all the fragments have. *)
Lemma arrived_complete now :
  data_size t <> 0 ->
  let n := N.to_nat (_fragments_count (max_fragment_size hA) t) in
  let w := arriving now hB (max_fragment_size hA) t n n in
  _is_complete w = true
  /\ data_bytes w = data_bytes t
  /\ _fragments_count (max_fragment_size hA) w = _fragments_count (max_fragment_size hA) t.
Proof.
  intros Hd n w.
  assert (Hslots : _data w = map (chunk (max_fragment_size hA) (data_bytes t))
                              (positions (_fragments_count (max_fragment_size hA) t))).
  { unfold w, arriving. cbn [_data]. rewrite slots_after_all. unfold n.
    now rewrite N2Nat.id. }
  assert (Hc : _is_complete w = true).
  { unfold _is_complete. rewrite Hslots. apply forallb_forall.
    intros b Hb. apply in_map_iff in Hb. destruct Hb as (pos & <- & Hin).
    destruct (positions_within _ t pos size_not_zero complete Hin) as [Hpos Hlt].
    apply negb_true_iff.
    destruct (chunk (max_fragment_size hA) (data_bytes t) pos) eqn:E; [|reflexivity].
    exfalso. revert E. apply chunk_not_empty; [assumption | lia | exact Hlt]. }
  assert (Hb : data_bytes w = data_bytes t).
  { unfold data_bytes at 1. rewrite Hslots. apply concat_chunks; [assumption|].
    unfold _fragments_count. rewrite complete.
    apply (count_covers (data_size t) (max_fragment_size hA) size_not_zero). }
  split; [exact Hc|]. split; [exact Hb|].
  unfold _fragments_count. rewrite Hc, complete.
  unfold data_size. fold (data_bytes w). fold (data_bytes t). now rewrite Hb.
Qed.

(** X14.  A transfer on its way.  The transfer has all its slots filled
    and some data, makes at most 255 fragments and has ids below [2^16];
    the two handlers are idle, have a transmit slot free and the same
    nonzero [max_fragment_size]; the interface keeps a slot free and every
    fragment is usable.  Handed to [transmit] the transfer goes out as its
    burst; the handler of the peer takes the fragments one by one without
    emitting anything, and its next [main_task] hands to
    [transfer_receive_event] a transfer with the same bytes, ids and
    addresses, after the [FRAGMENT_ACK] for it; that acknowledgement makes
    [receive_callback] at the first handler emit [transfer_ack_event] with
    the metadata of the transfer and leaves its outgoing table empty. *)
Theorem transfer_goes_round :
  forall nowA nowB nowC nowD,
    (forall st f, can_transmit_status st = true ->
                  can_transmit_status (link_write st f) = true) ->
    _outgoing_transfers hA = [] ->
    can_transmit hA = true ->
    max_fragment_size hB = max_fragment_size hA ->
    _incoming_transfers hB = [] ->
    _outgoing_transfers hB = [] ->
    can_transmit hB = true ->
    data_size t <> 0 ->
    let arrive := map (fun f => call_receive nowB (sent_from (_source t) f)) (burst hA t) in
    exists hA1 hB1 hB2 hA2 w,
      transmit link_write nowA t hA = Returns (hA1, map transmit_event (burst hA t))
      /\ run fragment_ok link_write arrive hB = (hB1, map (fun c => (c, [])) arrive)
      /\ main_task link_write nowC hB1
         = Returns (hB2, [transmit_event (completion_ack hB w); transfer_receive_event w])
      /\ data_bytes w = data_bytes t
      /\ (_id w, _prev_id w, _source w, _destination w)
         = (_id t, _prev_id t, _source t, _destination t)
      /\ receive_callback fragment_ok link_write nowD
           (sent_from (_destination t) (completion_ack hB w)) hA1
         = Returns (hA2, [transfer_ack_event (get_metadata t)])
      /\ _outgoing_transfers hA2 = [].
Proof.
  intros nowA nowB nowC nowD Hlink HoutA HcanA HsizeB HincB HoutB HcanB Hd arrive.
  set (m := max_fragment_size hA) in *.
  set (count := _fragments_count m t) in *.
  set (n := N.to_nat count).
  set (w := arriving nowB hB m t n n).
  destruct (arrived_complete nowB Hd) as (Hwc & Hwb & Hwn).
  fold m count n w in Hwc, Hwb, Hwn.
  (* the burst *)
  assert (Hall : forall pos, In pos (positions count) ->
                   exists f, serialize_fragment hA headers.FRAGMENT pos t = Value f).
  { intros pos Hin.
    destruct (positions_within _ t pos size_not_zero complete Hin) as [Hpos Hlt].
    eexists. apply serialize_fragment_returns; [assumption | fold m; lia]. }
  destruct (transmit_loop_sends_prefix link_write hA t (positions count)
              (_interface_status hA) Hall) as (k & stA & Hloop & Hfull).
  fold (burst hA t) in Hloop, Hfull. specialize (Hfull Hlink HcanA).
  rewrite Hfull in Hloop.
  set (rec := mk_progress (Some t) nowA 0 (_id t)).
  exists (set_status stA (set_outgoing [rec] hA)),
    (set_incoming [mk_progress (Some w) nowB 0 (_id t)] hB),
    (set_status (link_write (_interface_status hB) (completion_ack hB w))
       (set_incoming [mk_progress None nowB 0 (_id t)] hB)),
    (set_outgoing [] (set_status stA (set_outgoing [rec] hA))), w.
  split; [|split; [|split; [|split; [|split; [|split]]]]].
  - unfold transmit. fold m count. rewrite Hloop, HoutA. reflexivity.
  - unfold arrive. rewrite <- map_map with (f := sent_from (_source t)).
    rewrite (burst_arrives nowB HincB Hd). fold m count n w.
    f_equal. now rewrite !map_map.
  - unfold main_task, incoming_loop.
    cbn [set_incoming _incoming_transfers _outgoing_transfers _interface_status
           incoming_walk].
    unfold incoming_body at 1. cbn [tr]. rewrite Hwc.
    unfold can_transmit in HcanB. rewrite HcanB. cbn [andb keep after_events app].
    rewrite HoutB. unfold outgoing_loop, outgoing_fuel. cbn [length outgoing_walk].
    unfold completion_ack, reset. cbn [timestamp_accessed retransmitions id].
    unfold make_header, max_fragment_size. cbn [_max_fragment_size].
    unfold set_status, set_outgoing, set_incoming.
    cbn [_incoming_transfers _outgoing_transfers _retransmit_time _drop_time
           _interface_identifier _interface_status _max_fragment_size
           _retransmit_multiplier app].
    rewrite HoutB. reflexivity.
  - exact Hwb.
  - reflexivity.
  - assert (Hack : completion_ack hB w
                   = fragment_to (_source t)
                       (headers.to_bytes (make_header hA headers.FRAGMENT_ACK count t))).
    { unfold completion_ack, make_header. rewrite HsizeB. fold m. rewrite Hwn.
      reflexivity. }
    rewrite Hack. unfold receive_callback. rewrite usable.
    unfold sent_from, fragment_to. cbn [f_data f_source f_destination].
    rewrite length_to_bytes. cbn [Nat.leb headers.sizeof andb].
    rewrite <- (app_nil_r (headers.to_bytes _)).
    assert (Hc1 : 1 <= count).
    { pose proof (count_covers (data_size t) m size_not_zero) as Hc.
      cbv zeta in Hc. destruct Hc as [_ Hc]. destruct (Hc Hd) as [Hc1 _].
      unfold count, _fragments_count. rewrite complete. exact Hc1. }
    rewrite fragment_header by (try reflexivity; exact count_fits).
    fold m count.
    assert (Hvalid : headers.is_valid
                       (headers.mk_header headers.FRAGMENT_ACK count count
                          (_id t) (_prev_id t)) = true).
    { unfold headers.is_valid.
      cbn [headers.type headers.fragment headers.fragments_total].
      cbn [N.eqb Pos.eqb headers.FRAGMENT headers.FRAGMENT_ACK orb andb].
      rewrite !andb_true_iff, !N.leb_le. lia. }
    rewrite Hvalid. unfold handle_fragment. cbn [headers.type].
    cbn [N.eqb Pos.eqb headers.FRAGMENT headers.FRAGMENT_ACK headers.FRAGMENT_REQ andb].
    cbn [set_status set_outgoing _outgoing_transfers find_if_tr rec tr].
    unfold outgoing_match, match_as_response, shrink_header.
    cbn [headers.get_id f_source f_destination]. rewrite !N.eqb_refl.
    cbn [andb app]. reflexivity.
  - reflexivity.
Qed.

End round_trip.

(** A payload of ten bytes from the address 9 to the address 1, both
    handlers with room for four bytes in a fragment. *)
Lemma transfer_goes_round_witness :
  let hA := idle_handler 5 4 1 in
  let hB := idle_handler 5 4 1 in
  let t := outbound [payload [1; 2; 3; 4; 5; 6; 7; 8; 9; 10]] in
  let arrive := map (fun f => call_receive 1%Z (sent_from (_source t) f)) (burst hA t) in
  exists hA1 hB1 hB2 hA2 w,
    transmit write_keeps_status 0%Z t hA = Returns (hA1, map transmit_event (burst hA t))
    /\ run any_fragment write_keeps_status arrive hB = (hB1, map (fun c => (c, [])) arrive)
    /\ main_task write_keeps_status 2%Z hB1
       = Returns (hB2, [transmit_event (completion_ack hB w); transfer_receive_event w])
    /\ data_bytes w = data_bytes t
    /\ (_id w, _prev_id w, _source w, _destination w)
       = (_id t, _prev_id t, _source t, _destination t)
    /\ receive_callback any_fragment write_keeps_status 3%Z
         (sent_from (_destination t) (completion_ack hB w)) hA1
       = Returns (hA2, [transfer_ack_event (get_metadata t)])
    /\ _outgoing_transfers hA2 = [].
Proof.
  apply (transfer_goes_round any_fragment write_keeps_status
           (idle_handler 5 4 1) (idle_handler 5 4 1)
           (outbound [payload [1; 2; 3; 4; 5; 6; 7; 8; 9; 10]]));
    first [reflexivity | discriminate | vm_compute; reflexivity | auto].
Defined.

(** ** A fragment that is lost on the way and asked for again *)

Lemma seq_split (n p : nat) :
  (1 <= p <= n)%nat -> seq 1 n = seq 1 (p - 1) ++ p :: seq (S p) (n - p).
Proof.
  intros Hp. replace n with ((p - 1) + S (n - p))%nat at 1 by lia.
  rewrite seq_app. cbn [seq]. replace (1 + (p - 1))%nat with p by lia. reflexivity.
Qed.

Lemma positions_split n pos :
  1 <= pos <= n ->
  positions n
  = positions (pos - 1) ++ pos :: map N.of_nat (seq (S (N.to_nat pos)) (N.to_nat (n - pos))).
Proof.
  intros Hpos. unfold positions.
  rewrite (seq_split (N.to_nat n) (N.to_nat pos)) by lia.
  rewrite map_app. cbn [map]. rewrite N2Nat.id.
  replace (N.to_nat (pos - 1)) with (N.to_nat pos - 1)%nat by lia.
  replace (N.to_nat (n - pos)) with (N.to_nat n - N.to_nat pos)%nat by lia.
  reflexivity.
Qed.

Lemma NoDup_map_of_nat l : NoDup l -> NoDup (map N.of_nat l).
Proof.
  induction 1 as [|x l Hx _ IH]; cbn [map]; constructor; [|exact IH].
  intros Hin. apply in_map_iff in Hin. destruct Hin as (y & Hy & Hin).
  apply Nat2N.inj in Hy. congruence.
Qed.

(** The positions of a transfer of [n] fragments but [pos]. *)
Lemma without_positions n pos :
  1 <= pos <= n ->
  let rest := without pos (positions n) in
  NoDup rest
  /\ (forall q, In q rest <-> 1 <= q <= n /\ q <> pos)
  /\ rest = positions (pos - 1)
            ++ map N.of_nat (seq (S (N.to_nat pos)) (N.to_nat (n - pos))).
Proof.
  intros Hpos rest.
  assert (Hrest : rest = positions (pos - 1)
                         ++ map N.of_nat (seq (S (N.to_nat pos)) (N.to_nat (n - pos)))).
  { unfold rest, without. rewrite (positions_split n pos Hpos).
    assert (Hlen : length (positions (pos - 1)) = (N.to_nat pos - 1)%nat)
      by (rewrite length_positions; lia).
    rewrite firstn_app, Hlen, Nat.sub_diag, firstn_O, app_nil_r.
    rewrite <- Hlen at 1. rewrite firstn_all.
    replace (N.to_nat pos) with (length (positions (pos - 1)) + 1)%nat at 1 by lia.
    rewrite skipn_app, skipn_all2 by lia.
    replace (length (positions (pos - 1)) + 1 - length (positions (pos - 1)))%nat
      with 1%nat by lia.
    reflexivity. }
  pose proof (seq_NoDup (N.to_nat n) 1) as Hnd.
  apply NoDup_map_of_nat in Hnd. fold (positions n) in Hnd.
  rewrite (positions_split n pos Hpos) in Hnd.
  apply NoDup_remove in Hnd. destruct Hnd as [Hnd Hnot]. rewrite <- Hrest in Hnd, Hnot.
  split; [exact Hnd|]. split; [|exact Hrest].
  intros q. split.
  - intros Hin. split; [|intros ->; contradiction].
    apply In_positions. rewrite (positions_split n pos Hpos).
    rewrite Hrest in Hin. apply in_app_iff in Hin. apply in_app_iff.
    destruct Hin; [now left | right; now right].
  - intros [Hq Hne]. apply In_positions in Hq.
    rewrite (positions_split n pos Hpos) in Hq. rewrite Hrest.
    apply in_app_iff in Hq. apply in_app_iff.
    destruct Hq as [Hq|[Hq|Hq]]; [now left | congruence | now right].
Qed.

Lemma length_slots_with m d n got : length (slots_with m d n got) = N.to_nat n.
Proof. unfold slots_with. now rewrite length_map, length_positions. Qed.

Lemma slots_with_ext m d n got got' :
  (forall pos, 1 <= pos <= n -> got pos = got' pos) ->
  slots_with m d n got = slots_with m d n got'.
Proof.
  intros H. unfold slots_with. apply map_ext_in. intros pos Hin.
  apply In_positions in Hin. now rewrite H.
Qed.

Lemma slots_with_none m d n : slots_with m d n (fun _ => false) = repeat [] (N.to_nat n).
Proof.
  unfold slots_with. rewrite <- (length_positions n).
  generalize (positions n) as l.
  induction l as [|p l IH]; cbn [map length repeat]; [reflexivity|].
  now rewrite IH.
Qed.

(** The slots around the position [pos]. *)
Lemma slots_with_split (m : N) (d : bytes) (n : N) (got : N -> bool) (pos : N) :
  1 <= pos <= n ->
  exists A B : list bytes,
    length A = N.to_nat (pos - 1)
    /\ A = map (fun q => if got q then chunk m d q else []) (positions (pos - 1))
    /\ slots_with m d n got = A ++ (if got pos then chunk m d pos else []) :: B
    /\ slots_with m d n (fun q => (q =? pos) || got q) = A ++ chunk m d pos :: B.
Proof.
  intros Hpos. unfold slots_with. rewrite (positions_split n pos Hpos), !map_app.
  cbn [map]. rewrite N.eqb_refl. cbn [orb].
  eexists _, _. split; [|split; [reflexivity|split; [reflexivity|]]].
  - now rewrite length_map, length_positions.
  - f_equal; [|f_equal]; apply map_ext_in; intros q Hq.
    + apply In_positions in Hq.
      destruct (N.eqb_spec q pos) as [->|_]; [lia | reflexivity].
    + apply in_map_iff in Hq. destruct Hq as (k & <- & Hk). apply in_seq in Hk.
      destruct (N.eqb_spec (N.of_nat k) pos) as [E|_]; [lia | reflexivity].
Qed.

Lemma assign_slot now m d n got iid tc tm i p src dst pos f :
  1 <= pos <= n -> got pos = false ->
  f_data f = chunk m d pos ->
  _assign now pos f (mk_transfer (slots_with m d n got) iid tc tm i p src dst)
  = mk_transfer (slots_with m d n (fun q => (q =? pos) || got q)) iid tc now i p
      (f_source f) (f_destination f).
Proof.
  intros Hpos Hgot Hf.
  destruct (slots_with_split m d n got pos Hpos) as (A & B & HA & _ & H0 & H1).
  rewrite Hgot in H0.
  unfold _assign. cbn [_data _interface_id _timestamp_creation _timestamp_modified
                          _id _prev_id].
  rewrite length_slots_with, N2Nat.id.
  assert (Hin : (1 <=? pos) && (pos <=? n) = true).
  { apply andb_true_iff. split; apply N.leb_le; lia. }
  rewrite Hin. cbn [andb]. rewrite H0, H1, Hf, <- HA.
  rewrite nth_middle, set_slot_app. reflexivity.
Qed.

Lemma first_empty_app i (A B : list bytes) :
  Forall (fun b => b <> []) A ->
  first_empty i (A ++ [] :: B) = i + N.of_nat (length A) + 1.
Proof.
  intros HA. revert i. induction HA as [|b A Hb _ IH]; intros i; cbn [app first_empty length].
  - cbn [is_empty]. lia.
  - destruct b; [contradiction|]. cbn [is_empty]. rewrite IH. lia.
Qed.

Section recovery.

Variable fragment_ok : fragment -> bool.
Variable link_write : status -> fragment -> status.

Variables (hA hB : fragmentation_handler) (t : transfer).

Hypothesis usable : forall f, fragment_ok f = true.
Hypothesis link_stays_free :
  forall st f, can_transmit_status st = true -> can_transmit_status (link_write st f) = true.
Hypothesis size_not_zero : max_fragment_size hA <> 0.
Hypothesis complete : _is_complete t = true.
Hypothesis count_fits : _fragments_count (max_fragment_size hA) t < 256.
Hypothesis id_fits : _id t < 65536.
Hypothesis prev_id_fits : _prev_id t < 65536.

Lemma chunk_in_range pos :
  1 <= pos <= _fragments_count (max_fragment_size hA) t ->
  chunk (max_fragment_size hA) (data_bytes t) pos <> []
  /\ (pos - 1) * max_fragment_size hA < data_size t.
Proof.
  intros Hpos. apply In_positions in Hpos.
  destruct (positions_within _ t pos size_not_zero complete Hpos) as [Hne Hlt].
  split; [|exact Hlt]. apply chunk_not_empty; [assumption | lia | exact Hlt].
Qed.

(** The first fragment that arrives opens the transfer. *)
Lemma fragment_opens now pos :
  _incoming_transfers hB = [] ->
  1 <= pos <= _fragments_count (max_fragment_size hA) t ->
  handle_fragment link_write now
    (headers.mk_header headers.FRAGMENT pos
       (_fragments_count (max_fragment_size hA) t) (_id t) (_prev_id t))
    (mk_fragment (_source t) (_destination t)
       (chunk (max_fragment_size hA) (data_bytes t) pos)) hB
  = Returns (set_incoming
               [mk_progress
                  (Some (reassembling now now hB (max_fragment_size hA) t
                           (fun q => (q =? pos) || false)))
                  now 0 (_id t)] hB, []).
Proof.
  intros Hinc Hpos. unfold handle_fragment. cbn [headers.type].
  cbn [N.eqb Pos.eqb headers.FRAGMENT]. rewrite Hinc. cbn [find_if app].
  unfold with_tr, new_progress, transfer_new.
  cbn [tr timestamp_accessed retransmitions id _id
         headers.fragments_total headers.get_id headers.get_prev_id headers.fragment].
  rewrite <- (slots_with_none (max_fragment_size hA) (data_bytes t)).
  rewrite (assign_slot now (max_fragment_size hA) (data_bytes t))
    by (try reflexivity; assumption).
  reflexivity.
Qed.

(** A fragment that arrives for the transfer fills its slot. *)
Lemma fragment_fills h now pos got tc tm ta rn :
  1 <= pos <= _fragments_count (max_fragment_size hA) t ->
  got pos = false ->
  handle_fragment link_write now
    (headers.mk_header headers.FRAGMENT pos
       (_fragments_count (max_fragment_size hA) t) (_id t) (_prev_id t))
    (mk_fragment (_source t) (_destination t)
       (chunk (max_fragment_size hA) (data_bytes t) pos))
    (set_incoming
       [mk_progress (Some (reassembling tc tm h (max_fragment_size hA) t got))
          ta rn (_id t)] h)
  = Returns (set_incoming
               [mk_progress
                  (Some (reassembling tc now h (max_fragment_size hA) t
                           (fun q => (q =? pos) || got q)))
                  ta rn (_id t)] h, []).
Proof.
  intros Hpos Hgot. unfold handle_fragment. cbn [headers.type].
  cbn [N.eqb Pos.eqb headers.FRAGMENT].
  unfold set_incoming at 1, reassembling at 1.
  cbn [_incoming_transfers find_if]. unfold incoming_match, transfer_match.
  cbn [tr _id headers.get_id f_source f_destination _source _destination].
  rewrite !N.eqb_refl. cbn [andb tr app]. unfold with_tr.
  cbn [tr timestamp_accessed retransmitions id headers.fragment].
  rewrite (assign_slot now (max_fragment_size hA) (data_bytes t))
    by (try reflexivity; assumption).
  reflexivity.
Qed.

(** The peer after the fragments of the positions [ps], all at the time
    [now]. *)
Lemma fragments_fill now ps :
  forall got ta rn,
    NoDup ps ->
    (forall pos, In pos ps ->
                 1 <= pos <= _fragments_count (max_fragment_size hA) t /\ got pos = false) ->
    let fs := map (fun pos =>
                     sent_from (_source t)
                       (fragment_to (_destination t)
                          (headers.to_bytes (make_header hA headers.FRAGMENT pos t)
                           ++ chunk (max_fragment_size hA) (data_bytes t) pos))) ps in
    exists got',
      (forall q, got' q = existsb (N.eqb q) ps || got q)
      /\ run fragment_ok link_write (map (call_receive now) fs)
           (set_incoming
              [mk_progress (Some (reassembling now now hB (max_fragment_size hA) t got))
                 ta rn (_id t)] hB)
         = (set_incoming
              [mk_progress (Some (reassembling now now hB (max_fragment_size hA) t got'))
                 ta rn (_id t)] hB,
            map (fun f => (call_receive now f, [])) fs).
Proof.
  induction ps as [|pos ps IH]; intros got ta rn Hnd Hps; cbv zeta.
  - exists got. split; [reflexivity|]. reflexivity.
  - inversion_clear Hnd as [|? ? Hnot Hnd'].
    destruct (Hps pos (or_introl eq_refl)) as [Hpos Hgot].
    cbn [map run exec].
    rewrite (received_fragment fragment_ok link_write hA t usable size_not_zero
               count_fits id_fits prev_id_fits pos Hpos).
    rewrite (fragment_fills hB) by assumption.
    destruct (IH (fun q => (q =? pos) || got q) ta rn Hnd') as (got' & Hgot' & Hrun).
    { intros q Hq. destruct (Hps q (or_intror Hq)) as [Hq1 Hq2]. split; [exact Hq1|].
      rewrite Hq2, orb_false_r. apply N.eqb_neq. intros ->. contradiction. }
    cbv zeta in Hrun. rewrite Hrun. exists got'. split; [|reflexivity].
    intros q. rewrite Hgot'. cbn [existsb]. now rewrite orb_assoc, (orb_comm (existsb _ _)).
Qed.

(** The transfer of the peer when every fragment but [lost] has arrived. *)
Lemma all_but_one_arrive now lost :
  _incoming_transfers hB = [] ->
  1 <= lost <= _fragments_count (max_fragment_size hA) t ->
  2 <= _fragments_count (max_fragment_size hA) t ->
  let arrive := map (fun f => call_receive now (sent_from (_source t) f))
                  (without lost (burst hA t)) in
  run fragment_ok link_write arrive hB
  = (set_incoming
       [mk_progress
          (Some (reassembling now now hB (max_fragment_size hA) t
                   (fun q => negb (q =? lost))))
          now 0 (_id t)] hB,
     map (fun c => (c, [])) arrive).
Proof.
  intros Hinc Hlost Hcount arrive.
  set (count := _fragments_count (max_fragment_size hA) t) in *.
  set (g := fun pos =>
              sent_from (_source t)
                (fragment_to (_destination t)
                   (headers.to_bytes (make_header hA headers.FRAGMENT pos t)
                    ++ chunk (max_fragment_size hA) (data_bytes t) pos))).
  assert (Harrive : arrive = map (call_receive now) (map g (without lost (positions count)))).
  { unfold arrive, without. rewrite burst_complete by assumption. fold count.
    rewrite firstn_map, skipn_map, <- map_app, !map_map. reflexivity. }
  destruct (without_positions count lost Hlost) as (Hnd & Hin & _). cbv zeta in Hnd, Hin.
  rewrite Harrive.
  destruct (without lost (positions count)) as [|first ps] eqn:Hps.
  { exfalso. destruct (N.eq_dec lost 1) as [->|Hne].
    - assert (H2 : In 2 (@nil N)) by (apply Hin; lia). contradiction.
    - assert (H1 : In 1 (@nil N)) by (apply Hin; lia). contradiction. }
  inversion_clear Hnd as [|? ? Hnot Hnd'].
  assert (Hfirst : 1 <= first <= count /\ first <> lost) by (apply Hin; now left).
  cbn [map run exec]. unfold g at 1.
  rewrite (received_fragment fragment_ok link_write hA t usable size_not_zero
             count_fits id_fits prev_id_fits first) by apply Hfirst.
  rewrite fragment_opens by (try assumption; apply Hfirst).
  destruct (fragments_fill now ps (fun q => (q =? first) || false) now 0 Hnd')
    as (got' & Hgot' & Hrun).
  { intros q Hq. assert (Hq' : 1 <= q <= count /\ q <> lost) by (apply Hin; now right).
    split; [apply Hq'|]. rewrite orb_false_r. apply N.eqb_neq. intros ->. contradiction. }
  cbv zeta in Hrun. fold g in Hrun. rewrite Hrun.
  assert (Hslots : slots_with (max_fragment_size hA) (data_bytes t) count got'
                   = slots_with (max_fragment_size hA) (data_bytes t) count
                       (fun q => negb (q =? lost))).
  { apply slots_with_ext. intros q Hq. rewrite Hgot', orb_false_r.
    destruct (N.eqb_spec q lost) as [->|Hne]; cbn [negb].
    - destruct (N.eqb_spec lost first) as [E|_]; [destruct Hfirst; congruence|].
      rewrite orb_false_r.
      destruct (existsb (N.eqb lost) ps) eqn:E; [|reflexivity].
      apply existsb_exists in E. destruct E as (x & Hx & Hxe). apply N.eqb_eq in Hxe.
      subst x. assert (Hl : 1 <= lost <= count /\ lost <> lost) by (apply Hin; now right).
      destruct Hl as [_ Hl]. congruence.
    - assert (Hq' : In q (first :: ps)) by (apply Hin; auto).
      destruct Hq' as [<-|Hq']; [now rewrite N.eqb_refl, orb_true_r|].
      assert (E : existsb (N.eqb q) ps = true).
      { apply existsb_exists. exists q. split; [exact Hq' | apply N.eqb_refl]. }
      now rewrite E. }
  unfold reassembling. fold count. rewrite Hslots. f_equal.
  rewrite !map_map. reflexivity.
Qed.

(** What the transfer of the peer lacks, and what it has in the end. *)
Lemma one_slot_empty now lost :
  1 <= lost <= _fragments_count (max_fragment_size hA) t ->
  let w := reassembling now now hB (max_fragment_size hA) t (fun q => negb (q =? lost)) in
  _is_complete w = false
  /\ _missing_fragment w = lost
  /\ N.of_nat (length (_data w)) = _fragments_count (max_fragment_size hA) t.
Proof.
  intros Hlost w.
  set (count := _fragments_count (max_fragment_size hA) t) in *.
  destruct (slots_with_split (max_fragment_size hA) (data_bytes t) count
              (fun q => negb (q =? lost)) lost Hlost) as (A & B & HA & HAdef & Hw & _).
  rewrite N.eqb_refl in Hw. cbn [negb] in Hw.
  assert (HAfull : Forall (fun b => b <> []) A).
  { rewrite HAdef. apply Forall_forall. intros b Hb. apply in_map_iff in Hb.
    destruct Hb as (q & <- & Hq). apply In_positions in Hq.
    destruct (N.eqb_spec q lost) as [?|_]; [lia|]. cbn [negb].
    apply chunk_in_range. fold count. lia. }
  assert (Hslots : _data w = A ++ [] :: B) by exact Hw.
  split; [|split].
  - unfold _is_complete. rewrite Hslots, forallb_app. cbn [forallb is_empty negb].
    apply andb_false_r.
  - unfold _missing_fragment. rewrite Hslots, first_empty_app by exact HAfull. lia.
  - unfold w, reassembling. cbn [_data]. fold count. rewrite length_slots_with. lia.
Qed.

Lemma all_slots_filled tc now :
  data_size t <> 0 ->
  let w := reassembling tc now hB (max_fragment_size hA) t (fun _ => true) in
  _is_complete w = true /\ data_bytes w = data_bytes t.
Proof.
  intros Hd w.
  assert (Hslots : _data w = map (chunk (max_fragment_size hA) (data_bytes t))
                              (positions (_fragments_count (max_fragment_size hA) t)))
    by reflexivity.
  split.
  - unfold _is_complete. rewrite Hslots. apply forallb_forall.
    intros b Hb. apply in_map_iff in Hb. destruct Hb as (pos & <- & Hin).
    apply In_positions in Hin. apply negb_true_iff.
    destruct (chunk (max_fragment_size hA) (data_bytes t) pos) eqn:E; [|reflexivity].
    exfalso. revert E. now apply chunk_in_range.
  - unfold data_bytes at 1. rewrite Hslots. apply concat_chunks; [assumption|].
    unfold _fragments_count. rewrite complete.
    apply (count_covers (data_size t) (max_fragment_size hA) size_not_zero).
Qed.

(** The interface status after the burst. *)
Lemma transmit_loop_keeps_free h w ps st ev st' :
  can_transmit_status st = true ->
  transmit_loop link_write h w ps st = Returns (ev, st') ->
  can_transmit_status st' = true.
Proof.
  revert st ev. induction ps as [|pos ps IH]; intros st ev Hst; cbn [transmit_loop].
  - now intros [= _ <-].
  - rewrite Hst. destruct (serialize_fragment h headers.FRAGMENT pos w) as [f|what];
      [|discriminate].
    destruct (transmit_loop link_write h w ps (link_write st f))
      as [[ev1 st1]|what x| | |] eqn:Hloop; cbn [outcome_map fst snd]; try discriminate.
    intros [= _ <-]. eapply IH; [|exact Hloop]. now apply link_stays_free.
Qed.

(** X22.  A fragment that is lost on the way is recovered.  The
    transfer has all its slots filled and makes at least two and at most
    255 fragments, its ids are below [2^16]; both handlers have a nonzero
    [max_fragment_size], are idle and have a transmit slot free, the
    interface keeps a slot free and every fragment is usable.  When the
    peer has received every fragment of the burst but one, its
    [main_task], run after the retransmit time and within the drop time,
    sends a [FRAGMENT_REQ] that names the lost fragment; that request makes
    [receive_callback] of the sender emit the fragment again, the same as
    in the burst; the peer assigns it, and its next [main_task] hands to
    [transfer_receive_event] a transfer with the bytes of the one that was
    transmitted. *)
Theorem lost_fragment_is_recovered :
  forall lost nowA nowB nowC nowD nowE nowF,
    _outgoing_transfers hA = [] ->
    can_transmit hA = true ->
    _incoming_transfers hB = [] ->
    _outgoing_transfers hB = [] ->
    can_transmit hB = true ->
    max_fragment_size hB <> 0 ->
    1 <= lost <= _fragments_count (max_fragment_size hA) t ->
    2 <= _fragments_count (max_fragment_size hA) t ->
    older_than nowC nowB (_retransmit_time hB) = true ->
    older_than nowC nowB (_drop_time hB) = false ->
    let arrive := map (fun f => call_receive nowB (sent_from (_source t) f))
                    (without lost (burst hA t)) in
    exists hA1 hB1 hB2 hA2 hB3 hB4 req again w,
      transmit link_write nowA t hA = Returns (hA1, map transmit_event (burst hA t))
      /\ run fragment_ok link_write arrive hB = (hB1, map (fun c => (c, [])) arrive)
      /\ main_task link_write nowC hB1 = Returns (hB2, [transmit_event req])
      /\ headers.byte_copy (f_data req)
         = headers.mk_header headers.FRAGMENT_REQ lost
             (_fragments_count (max_fragment_size hA) t) (_id t) (_prev_id t)
      /\ receive_callback fragment_ok link_write nowD (sent_from (_destination t) req) hA1
         = Returns (hA2, [transmit_event again])
      /\ nth_error (burst hA t) (N.to_nat lost - 1) = Some again
      /\ receive_callback fragment_ok link_write nowE (sent_from (_source t) again) hB2
         = Returns (hB3, [])
      /\ main_task link_write nowF hB3
         = Returns (hB4, [transmit_event (completion_ack hB w); transfer_receive_event w])
      /\ data_bytes w = data_bytes t.
Proof.
  intros lost nowA nowB nowC nowD nowE nowF HoutA HcanA HincB HoutB HcanB _ Hlost Hcount
    Hrt Hdrop arrive.
  set (m := max_fragment_size hA) in *.
  set (count := _fragments_count m t) in *.
  assert (Hd : data_size t <> 0).
  { intros E. unfold count, _fragments_count in Hcount. rewrite complete, E in Hcount.
    rewrite N.Div0.div_0_l, N.Div0.mod_0_l in Hcount. cbn in Hcount. lia. }
  (* the burst *)
  assert (Hall : forall pos, In pos (positions count) ->
                   exists f, serialize_fragment hA headers.FRAGMENT pos t = Value f).
  { intros pos Hin.
    destruct (positions_within _ t pos size_not_zero complete Hin) as [Hpos Hlt].
    eexists. apply serialize_fragment_returns; [assumption | fold m; lia]. }
  destruct (transmit_loop_sends_prefix link_write hA t (positions count)
              (_interface_status hA) Hall) as (k & stA & Hloop & Hfull).
  specialize (Hfull link_stays_free HcanA).
  rewrite Hfull in Hloop.
  pose proof (transmit_loop_keeps_free _ _ _ _ _ _ HcanA Hloop) as HstA.
  set (rec := mk_progress (Some t) nowA 0 (_id t)).
  set (hA1 := set_status stA (set_outgoing [rec] hA)).
  (* the peer *)
  set (w1 := reassembling nowB nowB hB m t (fun q => negb (q =? lost))).
  destruct (one_slot_empty nowB lost Hlost) as (Hw1c & Hw1m & Hw1n).
  fold m w1 count in Hw1c, Hw1m, Hw1n.
  set (r1 := mk_progress (Some w1) nowB 0 (_id t)).
  set (req := retransmit_request hB w1).
  set (again := fragment_to (_destination t)
                  (headers.to_bytes (make_header hA headers.FRAGMENT lost t)
                   ++ chunk m (data_bytes t) lost)).
  set (w := reassembling nowB nowE hB m t (fun q => (q =? lost) || negb (q =? lost))).
  assert (Hw : w = reassembling nowB nowE hB m t (fun _ => true)).
  { unfold w, reassembling. f_equal. apply slots_with_ext. intros q _.
    now destruct (q =? lost). }
  destruct (all_slots_filled nowB nowE Hd) as (Hwc & Hwb). fold m in Hwc, Hwb.
  rewrite <- Hw in Hwc, Hwb.
  assert (Hreq : req = fragment_to (_source t)
                         (headers.to_bytes (make_header hA headers.FRAGMENT_REQ lost t))).
  { unfold req, retransmit_request, make_header. rewrite Hw1m.
    unfold _fragments_count at 1. rewrite Hw1c, Hw1n. reflexivity. }
  set (stB := link_write (_interface_status hB) req).
  assert (HstB : can_transmit_status stB = true) by now apply link_stays_free.
  exists hA1, (set_incoming [r1] hB),
    (set_status stB (set_incoming [retransmit_done nowC r1] hB)),
    (set_status (link_write stA again)
       (set_outgoing [retransmit_done nowD rec] hA1)),
    (set_incoming [mk_progress (Some w) nowC (uint (0 + 1)) (_id t)]
       (set_status stB (set_incoming [retransmit_done nowC r1] hB))),
    (set_status (link_write stB (completion_ack hB w))
       (set_incoming [mk_progress None nowC (uint (0 + 1)) (_id t)]
          (set_status stB (set_incoming [retransmit_done nowC r1] hB)))),
    req, again, w.
  split; [|split; [|split; [|split; [|split; [|split; [|split; [|split]]]]]]].
  - unfold transmit. fold m count. rewrite Hloop, HoutA. reflexivity.
  - apply (all_but_one_arrive nowB lost HincB Hlost Hcount).
  - unfold main_task, incoming_loop.
    cbn [set_incoming _incoming_transfers _outgoing_transfers _interface_status
           incoming_walk].
    unfold incoming_body at 1. cbn [r1 tr timestamp_accessed]. rewrite Hw1c.
    cbn [andb]. change (_timestamp_modified w1) with nowB.
    change (_drop_time (set_incoming [r1] hB)) with (_drop_time hB).
    change (_retransmit_time (set_incoming [r1] hB)) with (_retransmit_time hB).
    rewrite Hdrop, Hrt.
    unfold can_transmit in HcanB. rewrite HcanB. cbn [andb].
    change (fragment_to (_source w1)
              (headers.to_bytes
                 (make_header (set_incoming [r1] hB) headers.FRAGMENT_REQ
                    (_missing_fragment w1) w1)))
      with req.
    fold stB. cbn [keep after_events app].
    rewrite HoutB. unfold outgoing_loop, outgoing_fuel. cbn [length outgoing_walk].
    unfold set_status, set_outgoing, set_incoming.
    cbn [_incoming_transfers _outgoing_transfers _retransmit_time _drop_time
           _interface_identifier _interface_status _max_fragment_size
           _retransmit_multiplier app].
    rewrite HoutB. reflexivity.
  - rewrite Hreq. unfold fragment_to. cbn [f_data].
    rewrite <- (app_nil_r (headers.to_bytes _)).
    apply (fragment_header hA t count_fits id_fits prev_id_fits);
      [reflexivity | fold m count; lia].
  - rewrite Hreq. unfold receive_callback. rewrite usable.
    unfold sent_from, fragment_to. cbn [f_data f_source f_destination].
    rewrite length_to_bytes. cbn [Nat.leb headers.sizeof andb].
    rewrite <- (app_nil_r (headers.to_bytes _)).
    rewrite (fragment_header hA t count_fits id_fits prev_id_fits)
      by (try reflexivity; fold m count; lia).
    fold m count.
    assert (Hvalid : headers.is_valid
                       (headers.mk_header headers.FRAGMENT_REQ lost count
                          (_id t) (_prev_id t)) = true).
    { unfold headers.is_valid.
      cbn [headers.type headers.fragment headers.fragments_total].
      cbn [N.eqb Pos.eqb headers.FRAGMENT headers.FRAGMENT_ACK headers.FRAGMENT_REQ
             orb andb].
      rewrite !andb_true_iff, !N.leb_le. lia. }
    rewrite Hvalid. unfold handle_fragment. cbn [headers.type].
    cbn [N.eqb Pos.eqb headers.FRAGMENT headers.FRAGMENT_ACK headers.FRAGMENT_REQ andb].
    unfold hA1 at 1. cbn [set_status set_outgoing _outgoing_transfers find_if_tr rec tr].
    unfold outgoing_match, match_as_response, shrink_header.
    cbn [headers.get_id f_source f_destination]. rewrite !N.eqb_refl.
    cbn [andb app headers.fragment].
    assert (HcanA1 : can_transmit hA1 = true) by exact HstA.
    rewrite HcanA1.
    destruct (chunk_in_range lost Hlost) as [_ Hlt]. fold m in Hlt.
    rewrite serialize_fragment_returns
      by (unfold hA1; cbn [max_fragment_size set_status set_outgoing _max_fragment_size];
          fold (max_fragment_size hA); fold m; lia).
    reflexivity.
  - rewrite burst_complete by assumption. fold m count.
    rewrite nth_error_map.
    rewrite (nth_error_positions count (N.to_nat lost)) by lia.
    cbn [option_map]. rewrite N2Nat.id. reflexivity.
  - unfold again.
    rewrite (received_fragment fragment_ok link_write hA t usable size_not_zero
               count_fits id_fits prev_id_fits lost Hlost).
    fold m count.
    pose proof (fragment_fills (set_status stB hB) nowE lost
                  (fun q => negb (q =? lost)) nowB nowB nowC (uint (0 + 1)) Hlost)
      as Hfill.
    cbv beta in Hfill. rewrite N.eqb_refl in Hfill. specialize (Hfill eq_refl).
    exact Hfill.
  - unfold main_task, incoming_loop.
    cbn [set_incoming set_status _incoming_transfers _outgoing_transfers
           _interface_status incoming_walk].
    unfold incoming_body at 1. cbn [tr]. rewrite Hwc, HstB.
    cbn [andb keep after_events app].
    rewrite HoutB. unfold outgoing_loop, outgoing_fuel. cbn [length outgoing_walk].
    unfold completion_ack, reset. cbn [timestamp_accessed retransmitions id].
    unfold make_header, max_fragment_size. cbn [_max_fragment_size].
    unfold set_status, set_outgoing, set_incoming.
    cbn [_incoming_transfers _outgoing_transfers _retransmit_time _drop_time
           _interface_identifier _interface_status _max_fragment_size
           _retransmit_multiplier app].
    rewrite HoutB. reflexivity.
  - exact Hwb.
Qed.

End recovery.

(** A payload of ten bytes in three fragments, of which the second is
    lost; the peer asks for it after its retransmit time of 10. *)
Lemma lost_fragment_is_recovered_witness :
  let hA := idle_handler 5 4 1 in
  let hB := idle_handler 5 4 1 in
  let t := outbound [payload [1; 2; 3; 4; 5; 6; 7; 8; 9; 10]] in
  let arrive := map (fun f => call_receive 1%Z (sent_from (_source t) f))
                  (without 2 (burst hA t)) in
  exists hA1 hB1 hB2 hA2 hB3 hB4 req again w,
    transmit write_keeps_status 0%Z t hA = Returns (hA1, map transmit_event (burst hA t))
    /\ run any_fragment write_keeps_status arrive hB = (hB1, map (fun c => (c, [])) arrive)
    /\ main_task write_keeps_status 12%Z hB1 = Returns (hB2, [transmit_event req])
    /\ headers.byte_copy (f_data req)
       = headers.mk_header headers.FRAGMENT_REQ 2
           (_fragments_count (max_fragment_size hA) t) (_id t) (_prev_id t)
    /\ receive_callback any_fragment write_keeps_status 13%Z
         (sent_from (_destination t) req) hA1
       = Returns (hA2, [transmit_event again])
    /\ nth_error (burst hA t) (N.to_nat 2 - 1) = Some again
    /\ receive_callback any_fragment write_keeps_status 14%Z
         (sent_from (_source t) again) hB2
       = Returns (hB3, [])
    /\ main_task write_keeps_status 15%Z hB3
       = Returns (hB4, [transmit_event (completion_ack hB w); transfer_receive_event w])
    /\ data_bytes w = data_bytes t.
Proof.
  apply (lost_fragment_is_recovered any_fragment write_keeps_status
           (idle_handler 5 4 1) (idle_handler 5 4 1)
           (outbound [payload [1; 2; 3; 4; 5; 6; 7; 8; 9; 10]]));
    first [reflexivity | discriminate | vm_compute; reflexivity
          | vm_compute; split; discriminate | auto].
Defined.

(** ** Exceptions *)

Section exceptions.

Variable fragment_ok : fragment -> bool.
Variable link_write : status -> fragment -> status.

(** X20.  [receive_callback] comes back from every fragment but a request
    for a fragment beyond the data.  In a handler with a nonzero
    [max_fragment_size] whose outgoing records own their transfers it
    returns whenever the fragment, if it is a [FRAGMENT_REQ], asks for a
    fragment that begins within the data of every outgoing transfer, and,
    if it is a [FRAGMENT], carries an index that names a slot of every
    incoming transfer [_assign] may be called on. *)
Theorem receive_callback_returns_unless_request_beyond_data :
  forall now p h,
    max_fragment_size h <> 0 ->
    Forall owns (_outgoing_transfers h) ->
    let hd := headers.byte_copy (f_data p) in
    (headers.type hd = headers.FRAGMENT_REQ ->
     Forall (fun r => forall w, tr r = Some w ->
                        (headers.fragment hd - 1) * max_fragment_size h <= data_size w)
       (_outgoing_transfers h)) ->
    (headers.type hd = headers.FRAGMENT ->
     Forall (fun r => forall w, tr r = Some w ->
                        headers.fragment hd <= N.of_nat (length (_data w)))
       (_incoming_transfers h)) ->
    exists h' ev, receive_callback fragment_ok link_write now p h = Returns (h', ev).
Proof.
  intros now p h _ Ho hd Hreq _.
  pose proof (receive_callback_effect fragment_ok link_write now p h) as Heff.
  pose proof (receive_callback_terminates fragment_ok link_write now p h) as Hterm.
  cbv zeta in Hterm. fold hd in Hterm.
  destruct (receive_callback fragment_ok link_write now p h) as [[h' ev]|what x| | |];
    try contradiction; eauto.
  exfalso. destruct Hterm as [Hterm _].
  destruct (Hterm eq_refl)
    as (_ & _ & _ & Hty & _ & before & it & w & after & Hfind & Hlt).
  apply find_if_tr_split in Hfind. destruct Hfind as (Hl & Hw & _ & _).
  specialize (Hreq Hty). rewrite Hl in Hreq.
  apply Forall_app in Hreq. destruct Hreq as [_ Hreq].
  inversion_clear Hreq as [|? ? Hit _]. specialize (Hit w Hw). lia.
Qed.

Lemma transmit_loop_throws h w ps st what x :
  transmit_loop link_write h w ps st = Throws what x ->
  exists pos,
    In pos ps /\ serialize_fragment h headers.FRAGMENT pos w = Raise what.
Proof.
  revert st x. induction ps as [|pos ps IH]; intros st x; cbn [transmit_loop];
    [discriminate|].
  destruct (can_transmit_status st); [|discriminate].
  destruct (serialize_fragment h headers.FRAGMENT pos w) as [f|what'] eqn:Hf.
  - destruct (transmit_loop link_write h w ps (link_write st f))
      as [y|what' y| | |] eqn:Hloop; cbn [outcome_map]; try discriminate.
    intros [= <- <-]. destruct (IH _ _ Hloop) as (q & Hq & Hr).
    exists q. split; [now right | exact Hr].
  - intros [= <- <-]. exists pos. split; [now left | exact Hf].
Qed.

(** X21.  [transmit] throws only for a transfer that has an empty slot:
    the exception is the [std::invalid_argument] of [_get_fragment] for a
    position that begins beyond the data, and it leaves the transfer in
    the outgoing table, where [emplace_back] has put it before the first
    fragment went out. *)
Theorem transmit_throws_only_with_an_empty_slot :
  forall now t h what h' ev,
    max_fragment_size h <> 0 ->
    transmit link_write now t h = Throws what (h', ev) ->
    _is_complete t = false
    /\ what = "fragment_pos * p_size > data_size()"%string
    /\ (exists pos,
          1 <= pos <= N.of_nat (length (_data t))
          /\ data_size t < (pos - 1) * max_fragment_size h)
    /\ exists st,
         h' = set_status st
                (set_outgoing
                   (_outgoing_transfers h ++ [mk_progress (Some t) now 0 (_id t)]) h).
Proof.
  intros now t h what h' ev Hm. unfold transmit.
  destruct (transmit_loop link_write h t _ (_interface_status h))
    as [[ev0 st]|what0 [ev0 st]| | |] eqn:Hloop; try discriminate.
  intros [= <- <- <-].
  destruct (transmit_loop_throws _ _ _ _ _ _ Hloop) as (pos & Hin & Hraise).
  assert (Hc : _is_complete t = false).
  { destruct (_is_complete t) eqn:Hc; [|reflexivity]. exfalso.
    destruct (positions_within _ t pos Hm Hc Hin) as [Hpos Hlt].
    rewrite serialize_fragment_returns in Hraise by (try assumption; lia).
    discriminate. }
  apply In_positions in Hin. unfold _fragments_count in Hin. rewrite Hc in Hin.
  split; [exact Hc|].
  assert (Hwhat : what0 = "fragment_pos * p_size > data_size()"%string
                  /\ data_size t < (pos - 1) * max_fragment_size h).
  { revert Hraise. unfold serialize_fragment, _get_fragment.
    destruct (N.eqb_spec pos 0) as [?|_]; [lia|].
    destruct (N.ltb_spec (data_size t) ((pos - 1) * max_fragment_size h));
      [|discriminate].
    intros [= <-]. auto. }
  destruct Hwhat as [-> Hlt].
  split; [reflexivity|]. split; [exists pos; auto|]. exists st. reflexivity.
Qed.

End exceptions.

(** A request for the only fragment of the outgoing transfer of
    [waiting_handler]. *)
Lemma receive_callback_returns_unless_request_beyond_data_witness :
  let p := wire 1 9 (headers.construct headers.FRAGMENT_REQ 1 1 7 6) [] in
  headers.type (headers.byte_copy (f_data p)) = headers.FRAGMENT_REQ
  /\ exists h' ev,
       receive_callback any_fragment write_keeps_status 1%Z p waiting_handler
       = Returns (h', ev).
Proof.
  cbv zeta. split; [reflexivity|].
  apply (receive_callback_returns_unless_request_beyond_data any_fragment
           write_keeps_status 1%Z
           (wire 1 9 (headers.construct headers.FRAGMENT_REQ 1 1 7 6) []) waiting_handler).
  - discriminate.
  - constructor; [discriminate | constructor].
  - intros _. constructor; [|constructor].
    intros w [= <-]. vm_compute. discriminate.
  - intros Hty. vm_compute in Hty. discriminate.
Defined.

(** A transfer of three slots with one byte in all: the third position
    begins beyond the data. *)
Lemma transmit_throws_only_with_an_empty_slot_witness :
  let t := outbound [payload [1]; []; []] in
  let h := idle_handler 5 1 1 in
  let h' := set_outgoing [mk_progress (Some t) 0%Z 0 7] h in
  let ev := [transmit_event
               (fragment_to 1
                  (headers.to_bytes (headers.construct headers.FRAGMENT 1 3 7 6)
                   ++ payload [1]));
             transmit_event
               (fragment_to 1
                  (headers.to_bytes (headers.construct headers.FRAGMENT 2 3 7 6)))] in
  _is_complete t = false
  /\ "fragment_pos * p_size > data_size()"%string
     = "fragment_pos * p_size > data_size()"%string
  /\ (exists pos,
        1 <= pos <= N.of_nat (length (_data t))
        /\ data_size t < (pos - 1) * max_fragment_size h)
  /\ exists st,
       h' = set_status st
              (set_outgoing
                 (_outgoing_transfers h ++ [mk_progress (Some t) 0%Z 0 (_id t)]) h).
Proof.
  apply (transmit_throws_only_with_an_empty_slot write_keeps_status 0%Z
           (outbound [payload [1]; []; []]) (idle_handler 5 1 1)
           "fragment_pos * p_size > data_size()"%string
           (set_outgoing [mk_progress (Some (outbound [payload [1]; []; []])) 0%Z 0 7]
              (idle_handler 5 1 1))
           [transmit_event
              (fragment_to 1
                 (headers.to_bytes (headers.construct headers.FRAGMENT 1 3 7 6)
                  ++ payload [1]));
            transmit_event
              (fragment_to 1
                 (headers.to_bytes (headers.construct headers.FRAGMENT 2 3 7 6)))]);
    [discriminate | vm_compute; reflexivity].
Defined.

(** ** The theorems on [main_task] and on runs at work *)

Lemma waiting_handler_owns : Forall owns (_outgoing_transfers waiting_handler).
Proof. constructor; [discriminate | constructor]. Qed.

(** At the time 20 the pass asks for the missing fragment and sends the
    first fragment of the outgoing transfer again, which takes the one
    retransmission the cap allows. *)
Lemma main_task_sends_within_budgets_witness :
  let h := waiting_handler in
  exists h' ev,
    main_task write_keeps_status 20%Z h = Returns (h', ev)
    /\ N.of_nat (length (filter (is_emission headers.FRAGMENT) ev))
       + budgets h (_outgoing_transfers h')
       <= budgets h (_outgoing_transfers h)
    /\ (length (transmits ev)
        <= length (_incoming_transfers h)
           + length (filter (is_emission headers.FRAGMENT) ev))%nat.
Proof.
  apply (main_task_sends_within_budgets write_keeps_status 20%Z waiting_handler);
    [discriminate | exact waiting_handler_owns].
Defined.

Lemma main_task_leaves_outgoing_settled_witness :
  let h := waiting_handler in
  exists h' ev,
    main_task write_keeps_status 20%Z h = Returns (h', ev)
    /\ Forall (fun r => older_than 20%Z (timestamp_accessed r) (_drop_time h) = false)
         (_outgoing_transfers h')
    /\ (can_transmit h' = true -> Forall (settled 20%Z h) (_outgoing_transfers h')).
Proof.
  apply (main_task_leaves_outgoing_settled write_keeps_status 20%Z waiting_handler);
    [discriminate | exact waiting_handler_owns].
Defined.


Lemma main_task_retransmits_first_fragments_witness :
  let h := waiting_handler in
  exists h' ev,
    main_task write_keeps_status 20%Z h = Returns (h', ev)
    /\ Forall (fun f =>
                 headers.type (headers.byte_copy (f_data f)) = headers.FRAGMENT ->
                 headers.fragment (headers.byte_copy (f_data f)) = 1)
         (transmits ev).
Proof.
  apply (main_task_retransmits_first_fragments write_keeps_status 20%Z waiting_handler);
    [discriminate | exact waiting_handler_owns].
Defined.

(** What the pass at the time 20 does, event by event. *)
Example waiting_handler_pass :
  let h := waiting_handler in
  exists h',
    main_task write_keeps_status 20%Z h
    = Returns (h', [transmit_event
                      (fragment_to 1
                         (headers.to_bytes
                            (headers.construct headers.FRAGMENT_REQ 2 2 5 4)));
                    transmit_event
                      (fragment_to 1
                         (headers.to_bytes (headers.construct headers.FRAGMENT 1 1 7 6)
                          ++ payload [1; 2; 3]))])
    /\ map retransmitions (_incoming_transfers h') = [1; 0]
    /\ map retransmitions (_outgoing_transfers h') = [1].
Proof. cbv zeta. eexists. split; [vm_compute; reflexivity|]. split; reflexivity. Qed.

(** A handler made for fragments of eleven bytes sends ten bytes in three
    fragments and the first of them once more. *)
Lemma emitted_fragments_fit_the_link_witness :
  let cs := [call_transmit 0%Z (outbound [payload [1; 2; 3; 4; 5; 6; 7; 8; 9; 10]]);
             call_main_task 11%Z] in
  let h := new_handler 32 (mk_status 5) 0 11 10%Z 100%Z 1 in
  max_fragment_size h = 11 - N.of_nat headers.sizeof
  /\ max_fragment_size h <> 0
  /\ Forall (fun f => N.of_nat (length (f_data f)) <= 11)
       (transmits (events_in (snd (run any_fragment write_keeps_status cs h))))
  /\ (forall h0,
        max_fragment_size h0 <> 0 ->
        Forall (sized (max_fragment_size h0))
          (transmits (events_in (snd (run any_fragment write_keeps_status cs h0))))).
Proof.
  apply (emitted_fragments_fit_the_link any_fragment write_keeps_status
           32 (mk_status 5) 0 11 10%Z 100%Z 1
           [call_transmit 0%Z (outbound [payload [1; 2; 3; 4; 5; 6; 7; 8; 9; 10]]);
            call_main_task 11%Z]).
  split; reflexivity.
Defined.

(** Two fragments arrive and the pass delivers the transfer they make. *)
Lemma delivered_transfers_are_complete_and_acknowledged_witness :
  let cs := [call_receive 0%Z
               (wire 1 9 (headers.construct headers.FRAGMENT 1 2 5 4) (payload [1; 2; 3; 4]));
             call_receive 1%Z
               (wire 1 9 (headers.construct headers.FRAGMENT 2 2 5 4) (payload [5; 6]));
             call_main_task 2%Z; call_main_task 3%Z] in
  let h := idle_handler 5 4 1 in
  Forall (fun x => acknowledged h (snd x)
                   /\ (delivered (snd x) <> [] -> exists now, fst x = call_main_task now))
    (snd (run any_fragment write_keeps_status cs h)).
Proof.
  apply (delivered_transfers_are_complete_and_acknowledged any_fragment write_keeps_status
           [call_receive 0%Z
              (wire 1 9 (headers.construct headers.FRAGMENT 1 2 5 4) (payload [1; 2; 3; 4]));
            call_receive 1%Z
              (wire 1 9 (headers.construct headers.FRAGMENT 2 2 5 4) (payload [5; 6]));
            call_main_task 2%Z; call_main_task 3%Z]
           (idle_handler 5 4 1)).
  discriminate.
Defined.

Lemma incoming_transfers_delivered_at_most_once_witness :
  let cs := [call_receive 0%Z
               (wire 1 9 (headers.construct headers.FRAGMENT 1 2 5 4) (payload [1; 2; 3; 4]));
             call_receive 1%Z
               (wire 1 9 (headers.construct headers.FRAGMENT 2 2 5 4) (payload [5; 6]));
             call_main_task 2%Z; call_main_task 3%Z] in
  let h := idle_handler 5 4 1 in
  let '(h', log) := run any_fragment write_keeps_status cs h in
  (length (delivered (events_in log)) + live (_incoming_transfers h')
   <= live (_incoming_transfers h) + receptions log)%nat.
Proof.
  apply (incoming_transfers_delivered_at_most_once any_fragment write_keeps_status
           [call_receive 0%Z
              (wire 1 9 (headers.construct headers.FRAGMENT 1 2 5 4) (payload [1; 2; 3; 4]));
            call_receive 1%Z
              (wire 1 9 (headers.construct headers.FRAGMENT 2 2 5 4) (payload [5; 6]));
            call_main_task 2%Z; call_main_task 3%Z]
           (idle_handler 5 4 1)).
  discriminate.
Defined.

(** The run of the two fragments delivers one transfer, once. *)
Example two_fragments_delivered_once :
  let cs := [call_receive 0%Z
               (wire 1 9 (headers.construct headers.FRAGMENT 1 2 5 4) (payload [1; 2; 3; 4]));
             call_receive 1%Z
               (wire 1 9 (headers.construct headers.FRAGMENT 2 2 5 4) (payload [5; 6]));
             call_main_task 2%Z; call_main_task 3%Z] in
  let '(h', log) := run any_fragment write_keeps_status cs (idle_handler 5 4 1) in
  map data_bytes (delivered (events_in log)) = [payload [1; 2; 3; 4; 5; 6]]
  /\ live (_incoming_transfers h') = 0%nat
  /\ receptions log = 2%nat.
Proof. vm_compute. repeat split. Qed.

Lemma record_id_matches_transfer_id_witness :
  let cs := [call_transmit 0%Z (outbound [payload [1; 2; 3]]);
             call_receive 0%Z
               (wire 1 9 (headers.construct headers.FRAGMENT 1 2 5 4) (payload [1; 2; 3; 4]));
             call_main_task 11%Z] in
  let h := idle_handler 5 4 1 in
  let h' := fst (run any_fragment write_keeps_status cs h) in
  Forall id_matches (_incoming_transfers h')
  /\ Forall id_matches (_outgoing_transfers h').
Proof.
  apply (record_id_matches_transfer_id any_fragment write_keeps_status
           [call_transmit 0%Z (outbound [payload [1; 2; 3]]);
            call_receive 0%Z
              (wire 1 9 (headers.construct headers.FRAGMENT 1 2 5 4) (payload [1; 2; 3; 4]));
            call_main_task 11%Z]
           (idle_handler 5 4 1));
    [discriminate | constructor | constructor].
Defined.

(** * The circular iterator of the receive buffer *)

Section circular.

Import buffered_interface.
Local Open Scope Z_scope.

Lemma increment_offset it :
  in_buffer it ->
  in_buffer (increment it)
  /\ same_buffer it (increment it)
  /\ offset (increment it) = (offset it + 1) mod size it.
Proof.
  unfold in_buffer, same_buffer, offset, size, increment.
  cbn [_begin _end _current]. intros Hin.
  destruct (Z.leb_spec (_end it) (_current it + 1)) as [Hwrap|Hstay].
  - repeat split; try lia.
    replace (_current it - _begin it + 1) with (_end it - _begin it) by lia.
    rewrite Z.sub_diag, Z.mod_same by lia. reflexivity.
  - repeat split; try lia. rewrite Z.mod_small by lia. lia.
Qed.

Lemma iter_increment k it :
  in_buffer it ->
  in_buffer (Nat.iter k increment it)
  /\ same_buffer it (Nat.iter k increment it)
  /\ offset (Nat.iter k increment it) = (offset it + Z.of_nat k) mod size it.
Proof.
  intros Hin. induction k as [|k (IH1 & IH2 & IH3)].
  - cbn [Nat.iter]. split; [exact Hin|]. split; [split; reflexivity|].
    change (Z.of_nat 0) with 0. rewrite Z.add_0_r, Z.mod_small; [reflexivity|].
    unfold in_buffer, offset, size in *. lia.
  - change (Nat.iter (S k) increment it) with (increment (Nat.iter k increment it)).
    destruct (increment_offset _ IH1) as (H1 & H2 & H3).
    split; [exact H1|]. split.
    + unfold same_buffer in *. destruct IH2 as [A B], H2 as [C D]. split; congruence.
    + rewrite H3, IH3.
      assert (Hs : size (Nat.iter k increment it) = size it).
      { unfold size. destruct IH2 as [-> ->]. reflexivity. }
      rewrite Hs, Z.add_mod_idemp_l by (unfold in_buffer, size in *; lia).
      f_equal. lia.
Qed.

Lemma iterator_eq a b :
  same_buffer a b -> offset a = offset b -> a = b.
Proof.
  destruct a as [ba ea ca], b as [bb eb cb]. unfold same_buffer, offset.
  cbn [_begin _end _current]. intros [-> ->] H. f_equal. lia.
Qed.

(** X15.  [operator++] keeps the iterator within its buffer and wraps at
    the end: after [k] increments the iterator is [k] bytes further,
    modulo the size of the buffer, and after as many increments as the
    buffer has bytes it is where it was.  From the start of the receive
    buffer the [k]-th increment reads the byte [k mod buffer_size]. *)
Theorem increment_walks_the_buffer_in_a_circle :
  forall it k,
    in_buffer it ->
    let it' := Nat.iter k increment it in
    in_buffer it'
    /\ same_buffer it it'
    /\ offset it' = (offset it + Z.of_nat k) mod size it
    /\ (Z.of_nat k = size it -> it' = it)
    /\ (forall memory rx_buffer buffer_size,
          it = get_rx_buffer rx_buffer buffer_size ->
          deref memory it' = memory (rx_buffer + Z.of_nat k mod Z.of_N buffer_size)).
Proof.
  intros it k Hin it'.
  destruct (iter_increment k it Hin) as (H1 & H2 & H3). fold it' in H1, H2, H3.
  split; [exact H1|]. split; [exact H2|]. split; [exact H3|]. split.
  - intros Hk. symmetry. apply iterator_eq; [exact H2|].
    rewrite H3, Hk.
    unfold in_buffer, offset, size in *.
    rewrite <- (Z.mul_1_l (_end it - _begin it)) at 1.
    rewrite Z.mod_add by lia. rewrite Z.mod_small by lia. reflexivity.
  - intros memory rx_buffer buffer_size ->. unfold deref. f_equal.
    unfold offset, size, same_buffer in *. destruct H2 as [Hb He].
    cbn [get_rx_buffer _begin _end _current] in *.
    rewrite <- Hb in H3. rewrite Z.sub_diag, Z.add_0_l in H3.
    replace (rx_buffer + Z.of_N buffer_size - rx_buffer) with (Z.of_N buffer_size) in H3
      by lia.
    lia.
Qed.

(** Three increments from the last but one byte of a buffer of four. *)
Lemma increment_walks_the_buffer_in_a_circle_witness :
  let it := mk_circular_iterator 100 104 102 in
  let it' := Nat.iter 3 increment it in
  in_buffer it'
  /\ same_buffer it it'
  /\ offset it' = (offset it + Z.of_nat 3) mod size it
  /\ (Z.of_nat 3 = size it -> it' = it)
  /\ (forall memory rx_buffer buffer_size,
        it = get_rx_buffer rx_buffer buffer_size ->
        deref memory it' = memory (rx_buffer + Z.of_nat 3 mod Z.of_N buffer_size)).
Proof.
  apply (increment_walks_the_buffer_in_a_circle (mk_circular_iterator 100 104 102) 3).
  unfold in_buffer. cbn [_begin _end _current]. lia.
Defined.

Lemma add_assign_offset it shift :
  in_buffer it ->
  same_buffer it (add_assign it shift)
  /\ offset (add_assign it shift)
     = (if size it <=? offset it + Z.of_N shift
        then offset it + Z.of_N shift - size it
        else offset it + Z.of_N shift).
Proof.
  unfold in_buffer, same_buffer, offset, size, add_assign.
  cbn [_begin _end _current]. intros Hin. split; [split; reflexivity|].
  destruct (Z.leb_spec (_end it) (_current it + Z.of_N shift));
    destruct (Z.leb_spec (_end it - _begin it) (_current it - _begin it + Z.of_N shift));
    lia.
Qed.

(** X16.  [operator+=] and [operator+] wrap once: the iterator they leave
    is within the buffer exactly when the shift takes it less than one
    buffer size beyond the end.  For a shift of at most the size of the
    buffer that is so, and the iterator is where as many increments take
    it. *)
Theorem shift_wraps_once :
  forall it shift,
    in_buffer it ->
    (in_buffer (add_assign it shift) <-> offset it + Z.of_N shift < 2 * size it)
    /\ (Z.of_N shift <= size it ->
        in_buffer (plus it shift)
        /\ plus it shift = Nat.iter (N.to_nat shift) increment it).
Proof.
  intros it shift Hin.
  destruct (add_assign_offset it shift Hin) as ([Hb He] & Ho).
  assert (Hiff : in_buffer (add_assign it shift)
                 <-> offset it + Z.of_N shift < 2 * size it).
  { unfold in_buffer in *. unfold offset at 1 in Ho. unfold size, offset in *.
    rewrite <- Hb, <- He.
    destruct (Z.leb_spec (_end it - _begin it) (_current it - _begin it + Z.of_N shift));
      lia. }
  split; [exact Hiff|]. intros Hshift. unfold plus.
  assert (Hin' : in_buffer (add_assign it shift)).
  { apply Hiff. unfold in_buffer, offset, size in *. lia. }
  split; [exact Hin'|].
  destruct (iter_increment (N.to_nat shift) it Hin) as (H1 & H2 & H3).
  apply iterator_eq.
  - unfold same_buffer in *. destruct H2 as [H2b H2e]. split; congruence.
  - rewrite Ho, H3, N_nat_Z.
    unfold in_buffer, offset, size in *.
    destruct (Z.leb_spec (_end it - _begin it) (_current it - _begin it + Z.of_N shift)).
    + apply Z.mod_unique_pos with (q := 1); lia.
    + rewrite Z.mod_small by lia. reflexivity.
Qed.

(** From the third byte of a buffer of four: a shift of nine leaves the
    iterator beyond the end, a shift of three wraps to the second byte. *)
Lemma shift_wraps_once_witness :
  let it := mk_circular_iterator 100 104 102 in
  (in_buffer (add_assign it 9) <-> offset it + Z.of_N 9 < 2 * size it)
  /\ (Z.of_N 9 <= size it ->
      in_buffer (plus it 9)
      /\ plus it 9 = Nat.iter (N.to_nat 9) increment it).
Proof.
  apply (shift_wraps_once (mk_circular_iterator 100 104 102) 9).
  unfold in_buffer. cbn [_begin _end _current]. lia.
Defined.

(** X17.  [distance] of two iterators into the same buffer is the number
    of increments that take the lagging one to the leading one: it is not
    negative and less than the size of the buffer, [lagging +
    distance(lagging, leading)] is [leading], and it is zero exactly when
    [operator==] holds.  It tells an iterator from itself after less than a
    whole turn only: [distance(it, it + shift)] is [shift] for a shift
    below the size of the buffer and zero for a shift of the size of the
    buffer. *)
Theorem distance_counts_the_increments :
  forall lagging leading,
    in_buffer lagging ->
    in_buffer leading ->
    same_buffer lagging leading ->
    let d := distance lagging leading in
    0 <= d < size lagging
    /\ plus lagging (Z.to_N d) = leading
    /\ eqb lagging leading = (d =? 0)
    /\ neqb lagging leading = negb (d =? 0)
    /\ (forall shift,
          Z.of_N shift <= size lagging ->
          distance lagging (plus lagging shift) = Z.of_N shift mod size lagging).
Proof.
  intros lagging leading Ha Hb [Hsb Hse] d.
  assert (Hd : 0 <= d < size lagging /\ d = (offset leading - offset lagging) mod size lagging).
  { unfold d, distance, in_buffer, size, offset in *.
    destruct (Z.leb_spec 0 (_current leading - _current lagging)).
    - split; [lia|]. rewrite Z.mod_small by lia. lia.
    - split; [lia|]. apply Z.mod_unique_pos with (q := -1); lia. }
  destruct Hd as [Hrange Hmod]. split; [exact Hrange|].
  assert (Hplus : plus lagging (Z.to_N d) = leading).
  { unfold plus. destruct (add_assign_offset lagging (Z.to_N d) Ha) as ([H1 H2] & Ho).
    apply iterator_eq.
    - unfold same_buffer in *. split; congruence.
    - rewrite Ho, Z2N.id by lia.
      unfold d, distance, in_buffer, size, offset in *.
      destruct (Z.leb_spec 0 (_current leading - _current lagging));
        destruct (Z.leb_spec (_end lagging - _begin lagging)
                    (_current lagging - _begin lagging
                     + (_current leading - _current lagging)));
        destruct (Z.leb_spec (_end lagging - _begin lagging)
                    (_current lagging - _begin lagging
                     + (_current leading - _current lagging
                        + (_end lagging - _begin lagging))));
        lia. }
  split; [exact Hplus|].
  assert (Heq : eqb lagging leading = (d =? 0)).
  { unfold eqb, d, distance, in_buffer in *.
    destruct (Z.leb_spec 0 (_current leading - _current lagging));
      destruct (Z.eqb_spec (_current lagging) (_current leading));
      symmetry; [apply Z.eqb_eq | apply Z.eqb_neq | apply Z.eqb_eq | apply Z.eqb_neq];
      lia. }
  split; [exact Heq|]. split.
  - unfold neqb. fold (eqb lagging leading). now rewrite Heq.
  - intros shift Hshift. unfold plus.
    destruct (add_assign_offset lagging shift Ha) as (_ & Ho).
    unfold distance, add_assign, in_buffer, size, offset in *.
    cbn [_begin _end _current] in *.
    destruct (Z.leb_spec (_end lagging) (_current lagging + Z.of_N shift)) as [Hw|Hw].
    + destruct (Z.leb_spec 0 (_current lagging + Z.of_N shift
                              - (_end lagging - _begin lagging) - _current lagging))
        as [Hp|Hp].
      * assert (Z.of_N shift = _end lagging - _begin lagging) by lia.
        replace (Z.of_N shift) with (_end lagging - _begin lagging) by lia.
        rewrite Z.mod_same by lia. lia.
      * rewrite Z.mod_small by lia. lia.
    + destruct (Z.leb_spec 0 (_current lagging + Z.of_N shift - _current lagging));
        [|lia].
      rewrite Z.mod_small by lia. lia.
Qed.

(** The leading iterator has wrapped: from the fourth byte to the second
    of a buffer of four is a distance of two. *)
Lemma distance_counts_the_increments_witness :
  let lagging := mk_circular_iterator 100 104 103 in
  let leading := mk_circular_iterator 100 104 101 in
  let d := distance lagging leading in
  0 <= d < size lagging
  /\ plus lagging (Z.to_N d) = leading
  /\ eqb lagging leading = (d =? 0)
  /\ neqb lagging leading = negb (d =? 0)
  /\ (forall shift,
        Z.of_N shift <= size lagging ->
        distance lagging (plus lagging shift) = Z.of_N shift mod size lagging).
Proof.
  apply (distance_counts_the_increments (mk_circular_iterator 100 104 103)
           (mk_circular_iterator 100 104 101));
    unfold in_buffer, same_buffer; cbn [_begin _end _current]; lia.
Defined.

End circular.

(** * The peers of the minimal handler *)

Section peers.

Import base_minimal_handler.

Variables never now : time_point.
Variable _config : configuration.

(** X18.  [peer_find(addr)] returns an iterator at the first peer of the
    list with that address.  When there is one the list is left as it
    is; when there is none a new peer is put at the front of the list,
    with the rate of the configuration and not in transmit holdoff, and
    the iterator is at it. *)
Theorem peer_find_finds_or_adds :
  forall a l,
    let l' := fst (peer_find never now _config a l) in
    let i := snd (peer_find never now _config a l) in
    (exists ps,
        nth_error l' i = Some ps /\ addr ps = a
        /\ forall j ps', (j < i)%nat -> nth_error l' j = Some ps' -> addr ps' <> a)
    /\ ((exists ps, In ps l /\ addr ps = a) -> l' = l)
    /\ ((forall ps, In ps l -> addr ps <> a) ->
        l' = mk_peer_state a (peer_rate _config) never now :: l
        /\ i = 0%nat
        /\ forall later, (now <= later)%Z ->
             in_transmit_holdoff later (mk_peer_state a (peer_rate _config) never now)
             = false).
Proof.
  intros a l l' i. unfold l', i, peer_find.
  destruct (find_if (fun ps => addr ps =? a) l) as [[[before ps] after]|] eqn:Hfind.
  - apply find_if_split in Hfind. destruct Hfind as (Hl & Hps & Hbefore).
    apply N.eqb_eq in Hps. cbn [fst snd]. split; [|split].
    + exists ps. rewrite Hl. split; [|split; [exact Hps|]].
      * rewrite nth_error_app2, Nat.sub_diag by lia. reflexivity.
      * intros j ps' Hj Hnth. rewrite nth_error_app1 in Hnth by exact Hj.
        apply nth_error_In in Hnth.
        rewrite Forall_forall in Hbefore. specialize (Hbefore ps' Hnth).
        now apply N.eqb_neq.
    + reflexivity.
    + intros Hnone. exfalso. apply (Hnone ps); [|exact Hps].
      rewrite Hl. apply in_elt.
  - apply find_if_none in Hfind. cbn [fst snd]. split; [|split].
    + eexists. split; [reflexivity|]. split; [reflexivity|]. intros j ps' Hj. lia.
    + intros (ps & Hin & Hps). exfalso.
      rewrite Forall_forall in Hfind. specialize (Hfind ps Hin).
      apply N.eqb_neq in Hfind. contradiction.
    + intros _. split; [reflexivity|]. split; [reflexivity|].
      intros later Hlater. unfold in_transmit_holdoff. cbn [tx_holdoff].
      apply Z.ltb_ge. exact Hlater.
Qed.

(** X19.  [peer_find] keeps one peer for an address: a list without two
    peers of the same address stays so, a second call for the address
    returns the same peer and adds nothing, and the peer found for any
    other address is the one it was. *)
Theorem peer_find_keeps_one_peer_per_address :
  forall a l,
    let l' := fst (peer_find never now _config a l) in
    let i := snd (peer_find never now _config a l) in
    (NoDup (map addr l) -> NoDup (map addr l'))
    /\ (forall now' _config', peer_find never now' _config' a l' = (l', i))
    /\ (forall b,
          b <> a ->
          option_map (fun x => snd (fst x)) (find_if (fun ps => addr ps =? b) l')
          = option_map (fun x => snd (fst x)) (find_if (fun ps => addr ps =? b) l)).
Proof.
  intros a l l' i. unfold l', i, peer_find.
  destruct (find_if (fun ps => addr ps =? a) l) as [[[before ps] after]|] eqn:Hfind;
    cbn [fst snd].
  - split; [auto|]. split; [|reflexivity].
    intros now' _config'. unfold peer_find. rewrite Hfind. reflexivity.
  - pose proof (find_if_none _ _ Hfind) as Hnone. split; [|split].
    + intros Hnd. cbn [map new_peer_state addr]. constructor; [|exact Hnd].
      intros Hin. apply in_map_iff in Hin. destruct Hin as (ps & Hps & Hin).
      rewrite Forall_forall in Hnone. specialize (Hnone ps Hin).
      apply N.eqb_neq in Hnone. contradiction.
    + intros now' _config'. unfold peer_find. cbn [find_if new_peer_state addr].
      rewrite N.eqb_refl. reflexivity.
    + intros b Hb. cbn [find_if new_peer_state addr].
      apply not_eq_sym in Hb. apply N.eqb_neq in Hb. rewrite Hb.
      destruct (find_if (fun ps => addr ps =? b) l) as [[[before ps] after]|];
        reflexivity.
Qed.

End peers.
